(** * Graphite: event-driven workflow engine

    A shallow embedding of the orchestration core of [grafi]:
    - [grafi/common/event_stores/event_store_in_memory.py]
    - [grafi/common/events/topic_events/publish_to_topic_event.py]
    - [grafi/common/events/node_events/node_respond_event.py]
    - [grafi/nodes/impl/llm_node.py]
    - [grafi/workflows/impl/event_driven_workflow.py]

    Python lists are [list], insertion-ordered dicts whose iteration order
    is observed are association lists ([PyDict]), dicts that are only looked
    up are [gmap]s, [None]-able attributes are [option]s, raised exceptions
    are the [inl] side of a sum.  Default factories that read the clock or
    draw a fresh identifier are functions of a counter threaded through the
    state. *)

From Stdlib Require Import ZArith.
From stdpp Require Import gmap strings list sorting pretty.

Open Scope string_scope.
Open Scope list_scope.

(** ** Python containers *)

(** [l.insert(i, x)]: [x] is placed before index [i]; an index past the end
    appends. *)
Definition list_insert_at {A} (i : nat) (x : A) (l : list A) : list A :=
  take i l ++ x :: drop i l.

(** Insertion-ordered dictionary: assigning to a present key keeps the
    position of the key and replaces the value; a new key goes last. *)
Module PyDict.
Section dict.
Context {K V : Type} `{EqDecision K}.

Definition t := list (K * V).

Definition empty : t := [].

Fixpoint get (d : t) (k : K) : option V :=
  match d with
  | [] => None
  | (k', v) :: d' => if decide (k' = k) then Some v else get d' k
  end.

Fixpoint set (d : t) (k : K) (v : V) : t :=
  match d with
  | [] => [(k, v)]
  | (k', v') :: d' =>
      if decide (k' = k) then (k', v) :: d' else (k', v') :: set d' k v
  end.

Definition contains (d : t) (k : K) : bool := bool_decide (is_Some (get d k)).

Definition keys (d : t) : list K := d.*1.
Definition values (d : t) : list V := d.*2.

(** [{key x: val x for x in l}] *)
Definition comprehension {A} (key : A → K) (val : A → V) (l : list A) : t :=
  foldl (λ d x, set d (key x) (val x)) empty l.

End dict.
Global Arguments t : clear implicits.
End PyDict.

(** ** Messages *)

Module ToolCall.
Record t := mk { id : string; function_name : string; arguments : string }.
Global Instance eq_dec : EqDecision t.
Proof. solve_decision. Defined.
End ToolCall.

Module FunctionSpec.
Record t := mk { name : string; description : string; parameters : string }.
Global Instance eq_dec : EqDecision t.
Proof. solve_decision. Defined.
(** The tool entry attached to a message. *)
Record tool := mk_tool { tool_type : string; tool_function : t }.
Global Instance tool_eq_dec : EqDecision tool.
Proof. solve_decision. Defined.
Definition to_openai_tool (spec : t) : tool := mk_tool "function" spec.
End FunctionSpec.

Module Message.
(** Modelled from the spec: the [Message] value type (its class is not among
    the sources), with the fields of the data model:
    role, content, name, tool_call_id, tool_calls, tools, timestamp. *)
Record t := mk {
  role : string;
  content : option string;
  name : option string;
  tool_call_id : option string;
  tool_calls : option (list ToolCall.t);
  tools : option (list FunctionSpec.tool);
  timestamp : Z
}.
Global Instance eq_dec : EqDecision t.
Proof. solve_decision. Defined.

Definition set_tools (ts : option (list FunctionSpec.tool)) (m : t) : t :=
  mk (role m) (content m) (name m) (tool_call_id m) (tool_calls m) ts
     (timestamp m).

(** [Message(role=r, content=c, tool_call_id=i)]: the other attributes take
    their defaults, the timestamp is the clock reading [now]. *)
Definition make (now : Z) (r : string) (c : option string)
    (i : option string) : t :=
  mk r c None i None None now.

(** Python truthiness of [msg.tool_calls]: [None] and [[]] are false. *)
Definition calls (m : t) : list ToolCall.t := default [] (tool_calls m).
Definition has_tool_calls (m : t) : bool :=
  match tool_calls m with Some (_ :: _) => true | _ => false end.

(** Two messages that differ at most in [tools]. *)
Definition same_but_tools (m m' : t) : Prop := m' = set_tools (tools m') m.
End Message.

(** ** Events *)

Module ExecutionContext.
Record t := mk {
  conversation_id : string;
  execution_id : string;
  assistant_request_id : string;
  user_id : string
}.
Global Instance eq_dec : EqDecision t.
Proof. solve_decision. Defined.
End ExecutionContext.

(** Modelled from the spec: the [EventType] enumeration of
    [grafi/common/events/event.py] (not among the sources); only the members
    the sources and tests mention are listed. *)
Module EventType.
Inductive t :=
  | PUBLISH_TO_TOPIC | CONSUME_FROM_TOPIC | OUTPUT_TOPIC
  | NODE_INVOKE | NODE_RESPOND | NODE_FAILED
  | ASSISTANT_RESPOND | TOOL_INVOKE.
Global Instance eq_dec : EqDecision t.
Proof. solve_decision. Defined.

Definition value (e : t) : string :=
  match e with
  | PUBLISH_TO_TOPIC => "PublishToTopic"
  | CONSUME_FROM_TOPIC => "ConsumeFromTopic"
  | OUTPUT_TOPIC => "OutputTopic"
  | NODE_INVOKE => "NodeInvoke"
  | NODE_RESPOND => "NodeRespond"
  | NODE_FAILED => "NodeFailed"
  | ASSISTANT_RESPOND => "AssistantRespond"
  | TOOL_INVOKE => "ToolInvoke"
  end.

Definition all : list t :=
  [PUBLISH_TO_TOPIC; CONSUME_FROM_TOPIC; OUTPUT_TOPIC; NODE_INVOKE;
   NODE_RESPOND; NODE_FAILED; ASSISTANT_RESPOND; TOOL_INVOKE].

(** [EventType(s)]: the member whose value is [s], if any. *)
Definition of_value (s : string) : option t :=
  list_find (λ e, value e = s) all ≫= λ p, Some p.2.
End EventType.

(** The [data] attribute of a topic event: [Union[Message, List[Message]]];
    in the asynchronous mode a streaming node hands over the generator
    itself, modelled by the finite sequence of items it would yield. *)
Module Data.
Definition item : Type := Message.t + list Message.t.
Inductive t :=
  | One (m : Message.t)
  | Many (l : list Message.t)
  | Stream (g : list item).
Global Instance eq_dec : EqDecision t.
Proof. solve_decision. Defined.

(** [item if isinstance(item, list) else [item]] *)
Definition item_messages (i : item) : list Message.t :=
  match i with inl m => [m] | inr l => l end.

(** [event.data if isinstance(event.data, list) else [event.data]], read as
    messages; a generator is not a message, an attribute access on it
    raises. *)
Definition messages (d : t) : option (list Message.t) :=
  match d with
  | One m => Some [m]
  | Many l => Some l
  | Stream _ => None
  end.

Definition is_stream (d : t) : bool :=
  match d with Stream _ => true | _ => false end.
End Data.

Module PublishToTopicEvent.
Record t := mk {
  event_id : string;
  event_type : EventType.t;
  timestamp : Z;
  execution_context : ExecutionContext.t;
  topic_name : string;
  offset : nat;
  publisher_name : string;
  publisher_type : string;
  consumed_event_ids : list string;
  data : Data.t
}.
Global Instance eq_dec : EqDecision t.
Proof. solve_decision. Defined.
End PublishToTopicEvent.

Module ConsumeFromTopicEvent.
Record t := mk {
  event_id : string;
  event_type : EventType.t;
  timestamp : Z;
  execution_context : ExecutionContext.t;
  topic_name : string;
  offset : nat;
  consumer_name : string;
  consumer_type : string;
  data : Data.t
}.
Global Instance eq_dec : EqDecision t.
Proof. solve_decision. Defined.
End ConsumeFromTopicEvent.

Module AssistantRespondEvent.
Record t := mk {
  event_id : string;
  event_type : EventType.t;
  timestamp : Z;
  execution_context : ExecutionContext.t;
  input_data : list Message.t;
  output_data : list Message.t
}.
Global Instance eq_dec : EqDecision t.
Proof. solve_decision. Defined.
End AssistantRespondEvent.

Module NodeEvent.
Record t := mk {
  event_id : string;
  event_type : EventType.t;
  timestamp : Z;
  execution_context : ExecutionContext.t;
  node_id : string;
  node_name : string;
  node_type : string
}.
Global Instance eq_dec : EqDecision t.
Proof. solve_decision. Defined.
End NodeEvent.

Module NodeRespondEvent.
Record t := mk {
  base : NodeEvent.t;
  input_data : list ConsumeFromTopicEvent.t;
  output_data : Data.t
}.
Global Instance eq_dec : EqDecision t.
Proof. solve_decision. Defined.
End NodeRespondEvent.

(** The events an event store holds.  [Output] is [OutputTopicEvent], a
    subclass of [PublishToTopicEvent]. *)
Module Event.
Inductive t :=
  | Publish (e : PublishToTopicEvent.t)
  | Output (e : PublishToTopicEvent.t)
  | Consume (e : ConsumeFromTopicEvent.t)
  | AssistantRespond (e : AssistantRespondEvent.t)
  | NodeRespond (e : NodeRespondEvent.t)
  | Other (e : NodeEvent.t).
Global Instance eq_dec : EqDecision t.
Proof. solve_decision. Defined.

Definition event_id (e : t) : string :=
  match e with
  | Publish p | Output p => PublishToTopicEvent.event_id p
  | Consume c => ConsumeFromTopicEvent.event_id c
  | AssistantRespond a => AssistantRespondEvent.event_id a
  | NodeRespond n => NodeEvent.event_id (NodeRespondEvent.base n)
  | Other o => NodeEvent.event_id o
  end.

Definition execution_context (e : t) : ExecutionContext.t :=
  match e with
  | Publish p | Output p => PublishToTopicEvent.execution_context p
  | Consume c => ConsumeFromTopicEvent.execution_context c
  | AssistantRespond a => AssistantRespondEvent.execution_context a
  | NodeRespond n => NodeEvent.execution_context (NodeRespondEvent.base n)
  | Other o => NodeEvent.execution_context o
  end.

(** [isinstance(event, PublishToTopicEvent)] *)
Definition as_publish (e : t) : option PublishToTopicEvent.t :=
  match e with Publish p | Output p => Some p | _ => None end.

(** [isinstance(event, ConsumeFromTopicEvent)] *)
Definition as_consume (e : t) : option ConsumeFromTopicEvent.t :=
  match e with Consume c => Some c | _ => None end.

(** [isinstance(event, AssistantRespondEvent)] *)
Definition as_assistant_respond (e : t) : option AssistantRespondEvent.t :=
  match e with AssistantRespond a => Some a | _ => None end.

(** [isinstance(event, (PublishToTopicEvent, ConsumeFromTopicEvent))] *)
Definition is_topic_event (e : t) : bool :=
  match e with Publish _ | Output _ | Consume _ => true | _ => false end.

(** Attributes shared by the topic events. *)
Definition topic_name (e : t) : option string :=
  match e with
  | Publish p | Output p => Some (PublishToTopicEvent.topic_name p)
  | Consume c => Some (ConsumeFromTopicEvent.topic_name c)
  | _ => None
  end.

Definition offset (e : t) : option nat :=
  match e with
  | Publish p | Output p => Some (PublishToTopicEvent.offset p)
  | Consume c => Some (ConsumeFromTopicEvent.offset c)
  | _ => None
  end.

Definition data (e : t) : option Data.t :=
  match e with
  | Publish p | Output p => Some (PublishToTopicEvent.data p)
  | Consume c => Some (ConsumeFromTopicEvent.data c)
  | _ => None
  end.
End Event.

(** Events up to the [tools] of the messages they hold.  [tools] is the
    attribute of a message that is assigned after the message has been
    put into an event ([last_message.tools = ...] in
    [LLMNode.get_command_input]); two events with the same image here
    differ in nothing else. *)
Module WithoutTools.
Definition message (m : Message.t) : Message.t := Message.set_tools None m.

Definition item (i : Data.item) : Data.item :=
  match i with
  | inl m => inl (message m)
  | inr l => inr (message <$> l)
  end.

Definition data (d : Data.t) : Data.t :=
  match d with
  | Data.One m => Data.One (message m)
  | Data.Many l => Data.Many (message <$> l)
  | Data.Stream g => Data.Stream (item <$> g)
  end.

Definition publish (p : PublishToTopicEvent.t) : PublishToTopicEvent.t :=
  PublishToTopicEvent.mk
    (PublishToTopicEvent.event_id p) (PublishToTopicEvent.event_type p)
    (PublishToTopicEvent.timestamp p)
    (PublishToTopicEvent.execution_context p)
    (PublishToTopicEvent.topic_name p) (PublishToTopicEvent.offset p)
    (PublishToTopicEvent.publisher_name p)
    (PublishToTopicEvent.publisher_type p)
    (PublishToTopicEvent.consumed_event_ids p)
    (data (PublishToTopicEvent.data p)).

Definition consume (c : ConsumeFromTopicEvent.t) : ConsumeFromTopicEvent.t :=
  ConsumeFromTopicEvent.mk
    (ConsumeFromTopicEvent.event_id c) (ConsumeFromTopicEvent.event_type c)
    (ConsumeFromTopicEvent.timestamp c)
    (ConsumeFromTopicEvent.execution_context c)
    (ConsumeFromTopicEvent.topic_name c) (ConsumeFromTopicEvent.offset c)
    (ConsumeFromTopicEvent.consumer_name c)
    (ConsumeFromTopicEvent.consumer_type c)
    (data (ConsumeFromTopicEvent.data c)).

Definition event (e : Event.t) : Event.t :=
  match e with
  | Event.Publish p => Event.Publish (publish p)
  | Event.Output p => Event.Output (publish p)
  | Event.Consume c => Event.Consume (consume c)
  | Event.AssistantRespond a =>
      Event.AssistantRespond
        (AssistantRespondEvent.mk
           (AssistantRespondEvent.event_id a)
           (AssistantRespondEvent.event_type a)
           (AssistantRespondEvent.timestamp a)
           (AssistantRespondEvent.execution_context a)
           (message <$> AssistantRespondEvent.input_data a)
           (message <$> AssistantRespondEvent.output_data a))
  | Event.NodeRespond n =>
      Event.NodeRespond
        (NodeRespondEvent.mk (NodeRespondEvent.base n)
           (consume <$> NodeRespondEvent.input_data n)
           (data (NodeRespondEvent.output_data n)))
  | Event.Other o => Event.Other o
  end.
End WithoutTools.

(** ** The in-memory event store
    ([grafi/common/event_stores/event_store_in_memory.py]) *)

Module EventStoreInMemory.
Definition t := list Event.t.

Definition init : t := [].

Definition record_event (self : t) (event : Event.t) : t := self ++ [event].

Definition record_events (self : t) (events : list Event.t) : t :=
  self ++ events.

Definition clear_events (self : t) : t := [].

Definition get_events (self : t) : list Event.t := self.

Definition get_event (self : t) (event_id : string) : option Event.t :=
  snd <$> list_find (λ e, Event.event_id e = event_id) self.

Definition get_agent_events (self : t) (assistant_request_id : string)
    : list Event.t :=
  filter (λ e, ExecutionContext.assistant_request_id
                 (Event.execution_context e) = assistant_request_id) self.

Definition get_conversation_events (self : t) (conversation_id : string)
    : list Event.t :=
  filter (λ e, ExecutionContext.conversation_id
                 (Event.execution_context e) = conversation_id) self.
End EventStoreInMemory.

(** ** Exceptions *)

Inductive exn :=
  | AttributeError
  | KeyError (key : string)
  | ValueError (msg : string)
  | ValidationError
  | TypeError
  | DuplicateNodeError (node_name : string)
  | NodeExecutionError (node_name : string)
  | OutOfFuel.

Global Instance exn_eq_dec : EqDecision exn.
Proof. solve_decision. Defined.

Abbreviation result := (sum exn).

Global Instance result_bind : MBind result :=
  λ A B f x, match x with inl e => inl e | inr a => f a end.
Global Instance result_fmap : FMap result :=
  λ A B f x, match x with inl e => inl e | inr a => inr (f a) end.

Definition ok {A} (a : A) : result A := inr a.
Definition raise {A} (e : exn) : result A := inl e.

Fixpoint traverse {A B} (f : A → result B) (l : list A) : result (list B) :=
  match l with
  | [] => ok []
  | a :: l' => b ← f a; bs ← traverse f l'; ok (b :: bs)
  end.

(** ** Serialization of events
    ([publish_to_topic_event.py], [node_respond_event.py]) *)

(** Python values of the dictionaries [to_dict] builds.  Three kinds of
    strings and dictionaries are kept by what they denote, so that the
    library functions that read them back are their inverses by
    construction: [Iso t] is the text [t.isoformat()], [JsonText j] the text
    [json.dumps(j)], and [MessageObject m] the dictionary pydantic dumps
    for the message [m]. *)
Module Py.
#[warnings="-register-all"] Inductive value :=
  | None_
  | Str (s : string)
  | Int (z : Z)
  | List (l : list value)
  | Dict (d : list (string * value))
  | Iso (t : Z)
  | JsonText (j : value)
  | MessageObject (m : Message.t).

Definition dict := PyDict.t string value.

(** [d[k]] on a dictionary *)
Definition getitem (d : dict) (k : string) : result value :=
  match PyDict.get d k with
  | Some v => ok v
  | None => raise (KeyError k)
  end.

(** [v[k]] on a value *)
Definition subscript (v : value) (k : string) : result value :=
  match v with
  | Dict d => getitem d k
  | _ => raise TypeError
  end.

(** [{**d1, **d2}] *)
Definition update (d1 d2 : dict) : dict :=
  foldl (λ d kv, PyDict.set d kv.1 kv.2) d1 d2.

(** Validation of a value against [str], [int] (here: an offset) and
    [List[str]]. *)
Definition as_str (v : value) : result string :=
  match v with Str s => ok s | _ => raise ValidationError end.

Definition as_offset (v : value) : result nat :=
  match v with
  | Int z => if decide (0 ≤ z)%Z then ok (Z.to_nat z) else raise ValidationError
  | _ => raise ValidationError
  end.

Definition as_list (v : value) : result (list value) :=
  match v with List l => ok l | _ => raise ValidationError end.

(** [datetime.fromisoformat] *)
Definition fromisoformat (v : value) : result Z :=
  match v with Iso t => ok t | _ => raise TypeError end.

(** [json.loads] *)
Definition loads (v : value) : result value :=
  match v with JsonText j => ok j | _ => raise TypeError end.

(** [Message.model_validate] *)
Definition validate_message (v : value) : result Message.t :=
  match v with MessageObject m => ok m | _ => raise ValidationError end.

(** [TypeAdapter(List[Message]).validate_python]: the value has to be a
    list, a dictionary is not accepted. *)
Definition validate_message_list (v : value) : result (list Message.t) :=
  match v with
  | List l => traverse validate_message l
  | _ => raise ValidationError
  end.

(** [json.dumps(data, default=to_jsonable_python)]; a generator is not
    serialisable. *)
Definition dumps (d : Data.t) : result value :=
  match d with
  | Data.One m => ok (JsonText (MessageObject m))
  | Data.Many l => ok (JsonText (List (MessageObject <$> l)))
  | Data.Stream _ => raise TypeError
  end.
End Py.

(** Modelled from the spec: the envelope helpers of the base classes, which
    are not among the sources ([Event.event_dict], [Event.event_base],
    [ExecutionContext.model_dump], the key [EVENT_CONTEXT], and for the
    node events [node_event_dict] and [node_event_base]), following the
    envelope the spec lists and the dictionary the test of the sibling
    [ToolEvent] expects. *)
Module Envelope.
Import Py.

Definition EVENT_CONTEXT : string := "event_context".

Definition execution_context_dump (c : ExecutionContext.t) : value :=
  Dict [("conversation_id", Str (ExecutionContext.conversation_id c));
        ("execution_id", Str (ExecutionContext.execution_id c));
        ("assistant_request_id", Str (ExecutionContext.assistant_request_id c));
        ("user_id", Str (ExecutionContext.user_id c))].

Definition execution_context_validate (v : value) : result ExecutionContext.t :=
  c ← subscript v "conversation_id" ≫= as_str;
  e ← subscript v "execution_id" ≫= as_str;
  a ← subscript v "assistant_request_id" ≫= as_str;
  u ← subscript v "user_id" ≫= as_str;
  ok (ExecutionContext.mk c e a u).

Definition event_dict (event_id : string) (event_type : EventType.t)
    (timestamp : Z) (c : ExecutionContext.t) : dict :=
  [("event_id", Str event_id);
   ("event_type", Str (EventType.value event_type));
   ("assistant_request_id", Str (ExecutionContext.assistant_request_id c));
   ("timestamp", Iso timestamp)].

Definition event_base (data : dict) : result (string * EventType.t * Z) :=
  event_id ← getitem data "event_id" ≫= as_str;
  type_name ← getitem data "event_type" ≫= as_str;
  event_type ← match EventType.of_value type_name with
               | Some t => ok t
               | None => raise (ValueError type_name)
               end;
  timestamp ← getitem data "timestamp" ≫= fromisoformat;
  ok (event_id, event_type, timestamp).

Definition node_event_dict (e : NodeEvent.t) : dict :=
  update
    [(EVENT_CONTEXT,
      Dict [("node_id", Str (NodeEvent.node_id e));
            ("node_name", Str (NodeEvent.node_name e));
            ("node_type", Str (NodeEvent.node_type e));
            ("execution_context",
             execution_context_dump (NodeEvent.execution_context e))])]
    (event_dict (NodeEvent.event_id e) (NodeEvent.event_type e)
       (NodeEvent.timestamp e) (NodeEvent.execution_context e)).

Definition node_event_base (data : dict) : result NodeEvent.t :=
  '(event_id, event_type, timestamp) ← event_base data;
  context ← getitem data EVENT_CONTEXT;
  node_id ← subscript context "node_id" ≫= as_str;
  node_name ← subscript context "node_name" ≫= as_str;
  node_type ← subscript context "node_type" ≫= as_str;
  execution_context ←
    subscript context "execution_context" ≫= execution_context_validate;
  ok (NodeEvent.mk event_id event_type timestamp execution_context
        node_id node_name node_type).
End Envelope.

Module PublishToTopicEventDict.
Import Py Envelope PublishToTopicEvent.

Definition to_dict (self : PublishToTopicEvent.t) : result dict :=
  let event_context :=
    Dict [("consumed_event_ids", List (Str <$> consumed_event_ids self));
          ("publisher_name", Str (publisher_name self));
          ("publisher_type", Str (publisher_type self));
          ("topic_name", Str (topic_name self));
          ("offset", Int (Z.of_nat (offset self)));
          ("execution_context",
           execution_context_dump (execution_context self))] in
  payload ← dumps (data self);
  ok (PyDict.set
        (update [(EVENT_CONTEXT, event_context)]
           (event_dict (event_id self) (event_type self) (timestamp self)
              (execution_context self)))
        "data" payload).

Definition from_dict (data : dict) : result PublishToTopicEvent.t :=
  context ← getitem data EVENT_CONTEXT;
  execution_context ←
    subscript context "execution_context" ≫= execution_context_validate;
  data_dict ← getitem data "data" ≫= loads;
  data_obj ← match data_dict with
             | List _ => Data.Many <$> validate_message_list data_dict
             | _ => Data.One <$> validate_message data_dict
             end;
  '(event_id, event_type, timestamp) ← event_base data;
  ids ← subscript context "consumed_event_ids" ≫= as_list;
  consumed_event_ids ← traverse as_str ids;
  publisher_name ← subscript context "publisher_name" ≫= as_str;
  publisher_type ← subscript context "publisher_type" ≫= as_str;
  topic_name ← subscript context "topic_name" ≫= as_str;
  offset ← subscript context "offset" ≫= as_offset;
  ok (PublishToTopicEvent.mk event_id event_type timestamp execution_context
        topic_name offset publisher_name publisher_type consumed_event_ids
        data_obj).
End PublishToTopicEventDict.

(** Modelled from the spec: [ConsumeFromTopicEvent.to_dict] and [from_dict]
    ([consume_from_topic_event.py] is not among the sources), written like
    those of the publish event, as the consume event has the same envelope
    with [consumer_name] and [consumer_type] in the context block. *)
Module ConsumeFromTopicEventDict.
Import Py Envelope ConsumeFromTopicEvent.

Definition to_dict (self : ConsumeFromTopicEvent.t) : result dict :=
  let event_context :=
    Dict [("consumer_name", Str (consumer_name self));
          ("consumer_type", Str (consumer_type self));
          ("topic_name", Str (topic_name self));
          ("offset", Int (Z.of_nat (offset self)));
          ("execution_context",
           execution_context_dump (execution_context self))] in
  payload ← dumps (data self);
  ok (PyDict.set
        (update [(EVENT_CONTEXT, event_context)]
           (event_dict (event_id self) (event_type self) (timestamp self)
              (execution_context self)))
        "data" payload).

Definition from_dict (data : dict) : result ConsumeFromTopicEvent.t :=
  context ← getitem data EVENT_CONTEXT;
  execution_context ←
    subscript context "execution_context" ≫= execution_context_validate;
  data_dict ← getitem data "data" ≫= loads;
  data_obj ← match data_dict with
             | List _ => Data.Many <$> validate_message_list data_dict
             | _ => Data.One <$> validate_message data_dict
             end;
  '(event_id, event_type, timestamp) ← event_base data;
  consumer_name ← subscript context "consumer_name" ≫= as_str;
  consumer_type ← subscript context "consumer_type" ≫= as_str;
  topic_name ← subscript context "topic_name" ≫= as_str;
  offset ← subscript context "offset" ≫= as_offset;
  ok (ConsumeFromTopicEvent.mk event_id event_type timestamp
        execution_context topic_name offset consumer_name consumer_type
        data_obj).
End ConsumeFromTopicEventDict.

Module NodeRespondEventDict.
Import Py Envelope NodeRespondEvent.

Definition to_dict (self : NodeRespondEvent.t) : result dict :=
  inputs ← traverse ConsumeFromTopicEventDict.to_dict (input_data self);
  output ← dumps (output_data self);
  ok (PyDict.set (node_event_dict (base self)) "data"
        (Dict [("input_data", List (Dict <$> inputs));
               ("output_data", output)])).

Definition from_dict (data : dict) : result NodeRespondEvent.t :=
  base_event ← node_event_base data;
  payload ← getitem data "data";
  inputs ← subscript payload "input_data" ≫= as_list;
  input_data ←
    traverse (λ event, match event with
                       | Dict d => ConsumeFromTopicEventDict.from_dict d
                       | _ => raise TypeError
                       end) inputs;
  output ← subscript payload "output_data" ≫= loads;
  output_data ← validate_message_list output;
  ok (NodeRespondEvent.mk base_event input_data (Data.Many output_data)).
End NodeRespondEventDict.

(** ** The event graph *)

Module EventGraph.
(** Modelled from the spec: the [EventGraph] class
    ([grafi/common/events/event_graph.py] is not among the sources).  The
    graph is a mapping from event id to a node holding the event and its
    predecessor ids.  It is built from the node's directly consumed events
    and the pool of the request's publish/consume events, with
    [consumed_event_ids] as backward edges: a publish event points to the
    events it consumed, and a consume event, which has no backlinks of its
    own, takes those of the publish event it reads, the pool's publish event
    at its [(topic_name, offset)].  Only ids found in the pool become
    predecessors. *)
Record EventGraphNode := mk_node {
  event : Event.t;
  upstream_events : list string
}.

Definition event_id (n : EventGraphNode) : string := Event.event_id (event n).

(** The mapping, in insertion order. *)
Definition t := list EventGraphNode.

Definition pool := PyDict.t string Event.t.

(** The publish event of the pool at a given topic and offset (the latest
    one, should the pool hold several). *)
Definition publish_at (topic_events : pool) (topic : string) (off : nat)
    : option PublishToTopicEvent.t :=
  last (omap (λ kv, match Event.as_publish kv.2 with
                    | Some p =>
                        if decide (PublishToTopicEvent.topic_name p = topic
                                   ∧ PublishToTopicEvent.offset p = off)
                        then Some p else None
                    | None => None
                    end) topic_events).

Definition predecessor_ids (topic_events : pool) (e : Event.t) : list string :=
  match e with
  | Event.Publish p | Event.Output p =>
      PublishToTopicEvent.consumed_event_ids p
  | Event.Consume c =>
      match publish_at topic_events (ConsumeFromTopicEvent.topic_name c)
              (ConsumeFromTopicEvent.offset c) with
      | Some p => PublishToTopicEvent.consumed_event_ids p
      | None => []
      end
  | _ => []
  end.

Definition predecessors (topic_events : pool) (e : Event.t) : list Event.t :=
  omap (PyDict.get topic_events) (predecessor_ids topic_events e).

Definition contains (g : t) (id : string) : bool :=
  bool_decide (id ∈ event_id <$> g).

(** Adds [e] and, recursively, everything it consumed.  An event already in
    the graph is not visited again; [fuel] bounds the depth of the
    recursion. *)
Fixpoint visit (fuel : nat) (topic_events : pool) (g : t) (e : Event.t) : t :=
  match fuel with
  | 0 => g
  | S fuel' =>
      if contains g (Event.event_id e) then g
      else
        let ps := predecessors topic_events e in
        foldl (visit fuel' topic_events)
              (g ++ [mk_node e (Event.event_id <$> ps)]) ps
  end.

Definition build_graph (node_input : list ConsumeFromTopicEvent.t)
    (topic_events : pool) : t :=
  foldl (visit (S (length topic_events + length node_input)) topic_events) []
        (Event.Consume <$> node_input).

(** *** Topological order *)

Definition event_offset (e : Event.t) : nat := default 0 (Event.offset e).

Definition offset (n : EventGraphNode) : nat := event_offset (event n).

(** A node is ready once all its predecessors have been emitted. *)
Definition ready (emitted : list EventGraphNode) (n : EventGraphNode) : bool :=
  forallb (λ p, bool_decide (p ∈ event_id <$> emitted)) (upstream_events n).

(** The first node of least offset. *)
Fixpoint least_offset (l : list EventGraphNode) : option EventGraphNode :=
  match l with
  | [] => None
  | n :: l' =>
      match least_offset l' with
      | Some m => if (offset m <? offset n)%nat then Some m else Some n
      | None => Some n
      end
  end.

(** Emits, one at a time, the ready node of least publish offset. *)
Fixpoint emit (fuel : nat) (remaining emitted : list EventGraphNode)
    : list EventGraphNode :=
  match fuel with
  | 0 => emitted
  | S fuel' =>
      match least_offset (filter (λ n, ready emitted n = true) remaining) with
      | Some n =>
          emit fuel' (filter (λ m, event_id m ≠ event_id n) remaining)
               (emitted ++ [n])
      | None => emitted
      end
  end.

Definition get_topology_sorted_events (g : t) : list EventGraphNode :=
  emit (length g) g [].

(** *** Vocabulary for the ordering properties *)

(** [b] consumed [a]: [a] is one of the pool events that the backlinks of
    [b] name. *)
Definition consumed (topic_events : pool) (b a : Event.t) : Prop :=
  a ∈ predecessors topic_events b.

(** Every node stands behind all its predecessors. *)
Definition topological (ns : list EventGraphNode) : Prop :=
  ∀ j n a, ns !! j = Some n → a ∈ upstream_events n →
    ∃ i, i < j ∧ event_id <$> ns !! i = Some a.

(** The edges of the graph are the backlinks found in the pool. *)
Definition faithful (topic_events : pool) (g : t) : Prop :=
  ∀ n, n ∈ g →
    upstream_events n = Event.event_id <$> predecessors topic_events (event n).
End EventGraph.

(** ** The LLM node ([grafi/nodes/impl/llm_node.py]) *)

Module LLMNode.
Record t := mk {
  name : string;
  type : string;
  function_specs : list FunctionSpec.t
}.

(** The warning [get_command_input] logs for a tool call without result. *)
Definition warning (id : string) : string :=
  "Tool call message not found for id: " +:+ id +:+ ", add an empty message".

(** State of the re-interleaving pass: the message list, the number of
    messages constructed so far (the clock is read once per construction),
    and the warnings logged. *)
Definition pass_state : Type := list Message.t * nat * list string.

Section get_command_input.
Variable clock : nat → Z.

(** Step 1: [{msg.tool_call_id: msg for msg in messages if msg.tool_call_id
    is not None}] *)
Definition tool_call_messages (messages : list Message.t)
    : gmap string Message.t :=
  foldl (λ d msg, match Message.tool_call_id msg with
                  | Some i => <[i := msg]> d
                  | None => d
                  end) ∅ messages.

(** [[msg for msg in messages if msg.tool_call_id is None]] *)
Definition without_tool_call_id (messages : list Message.t) : list Message.t :=
  filter (λ msg, Message.tool_call_id msg = None) messages.

(** Body of [for tool_call in messages[i].tool_calls]. *)
Definition insert_result (d : gmap string Message.t) (i : nat)
    (st : pass_state) (tool_call : ToolCall.t) : pass_state :=
  let '(messages, n, log) := st in
  match d !! ToolCall.id tool_call with
  | Some m => (list_insert_at (i + 1) m messages, n, log)
  | None =>
      (list_insert_at (i + 1)
         (Message.make (clock n) "tool" None (Some (ToolCall.id tool_call)))
         messages,
       S n, log ++ [warning (ToolCall.id tool_call)])
  end.

(** Step 2: [while i < len(messages)]. *)
Fixpoint interleave (fuel : nat) (d : gmap string Message.t) (i : nat)
    (st : pass_state) : result pass_state :=
  if decide (i < length st.1.1) then
    match fuel with
    | 0 => raise OutOfFuel
    | S fuel' =>
        match st.1.1 !! i with
        | Some mi =>
            if Message.has_tool_calls mi then
              interleave fuel' d (i + length (Message.calls mi) + 1)
                (foldl (insert_result d i) st (Message.calls mi))
            else interleave fuel' d (i + 1) st
        | None => raise OutOfFuel
        end
    end
  else ok st.

(** [last_message.tools = [spec.to_openai_tool() for spec in
    self.function_specs]], when both lists are non-empty.  This is the
    list of message values the function returns, read position by
    position, with the assignment made at the last position.  Messages
    are values here: the assignment is made on the message object, so
    that where the same object stands at other positions of the list, or
    in the events the messages were read from, it shows its new [tools]
    there too.  What is proved of the messages returned is proved up to
    [tools] ([Message.same_but_tools]), or of the last message. *)
Definition attach_function_specs (specs : list FunctionSpec.t)
    (messages : list Message.t) : list Message.t :=
  match specs, messages with
  | _ :: _, _ :: _ =>
      alter (Message.set_tools (Some (FunctionSpec.to_openai_tool <$> specs)))
            (length messages - 1) messages
  | _, _ => messages
  end.

(** The messages of the ordered events, flattened. *)
Definition event_messages (e : Event.t) : result (list Message.t) :=
  match Event.data e ≫= Data.messages with
  | Some l => ok l
  | None => raise AttributeError
  end.

Definition topic_events (store : EventStoreInMemory.t)
    (execution_context : ExecutionContext.t) : EventGraph.pool :=
  PyDict.comprehension Event.event_id id
    (filter (λ e, Event.is_topic_event e = true)
       (EventStoreInMemory.get_agent_events store
          (ExecutionContext.assistant_request_id execution_context))).

Definition node_input_events (store : EventStoreInMemory.t)
    (execution_context : ExecutionContext.t)
    (node_input : list ConsumeFromTopicEvent.t) : list Event.t :=
  EventGraph.event <$>
    EventGraph.get_topology_sorted_events
      (EventGraph.build_graph node_input
         (topic_events store execution_context)).

Definition flattened_messages (store : EventStoreInMemory.t)
    (execution_context : ExecutionContext.t)
    (node_input : list ConsumeFromTopicEvent.t) : result (list Message.t) :=
  concat (A:=Message.t) <$> traverse event_messages
    (node_input_events store execution_context node_input).

(** Returns the messages handed to the command and the warnings logged. *)
Definition get_command_input (self : t) (store : EventStoreInMemory.t)
    (execution_context : ExecutionContext.t)
    (node_input : list ConsumeFromTopicEvent.t)
    : result (list Message.t * list string) :=
  messages ← flattened_messages store execution_context node_input;
  let d := tool_call_messages messages in
  let messages := without_tool_call_id messages in
  '(messages, _, log) ← interleave (length messages) d 0 (messages, 0, []);
  ok (attach_function_specs (function_specs self) messages, log).

End get_command_input.
End LLMNode.

(** *** What the re-interleaving pass computes

    A description of the pass by recursion on the message list, against
    which the loop is verified. *)

Module Interleaved.
Section described.
Variable clock : nat → Z.
Variable d : gmap string Message.t.

(** The results of the calls, in the order the calls are listed: the
    stored message of the call id, or a synthetic empty one together with a
    warning. *)
Fixpoint results (n : nat) (cs : list ToolCall.t)
    : list Message.t * nat * list string :=
  match cs with
  | [] => ([], n, [])
  | c :: cs' =>
      match d !! ToolCall.id c with
      | Some m =>
          let '(rs, n', ws) := results n cs' in (m :: rs, n', ws)
      | None =>
          let '(rs, n', ws) := results (S n) cs' in
          (Message.make (clock n) "tool" None (Some (ToolCall.id c)) :: rs,
           n', LLMNode.warning (ToolCall.id c) :: ws)
      end
  end.

(** [r] stands for the call [c]: it is the stored message of the call id,
    or a synthetic empty tool message for which a warning is in [ws]. *)
Definition is_result_of (ws : list string) (c : ToolCall.t) (r : Message.t)
    : Prop :=
  match d !! ToolCall.id c with
  | Some m => r = m
  | None =>
      (∃ n, r = Message.make (clock n) "tool" None (Some (ToolCall.id c)))
      ∧ LLMNode.warning (ToolCall.id c) ∈ ws
  end.

(** Every message is followed by the results of its calls, last call
    first. *)
Fixpoint expand (n : nat) (messages : list Message.t)
    : list Message.t * nat * list string :=
  match messages with
  | [] => ([], n, [])
  | m :: ms =>
      let '(rs, n', ws) := results n (Message.calls m) in
      let '(out, n'', ws') :=
        expand n' ms in
      (m :: reverse rs ++ out, n'', ws ++ ws')
  end.
End described.
End Interleaved.

(** ** Topics *)

Module Topic.
(** Modelled from the spec: the [Topic] class and its specialisations
    ([grafi/common/topics/] is not among the sources).  A topic has a name,
    the ordered sequence of its publish events, and for every consumer the
    offset of the last event it consumed.  [Input] is the entry topic, which
    accepts only the first publish of a run; [Output] is the terminal topic,
    whose events are [OutputTopicEvent]s; [HumanRequest] is the human-input
    topic.  [condition] is the publish policy: data it declines is not
    published. *)
Inductive kind := Plain | Input | Output | HumanRequest.

Global Instance kind_eq_dec : EqDecision kind.
Proof. solve_decision. Defined.

Record t := mk {
  name : string;
  kind_of : kind;
  condition : Data.t → bool;
  topic_events : list PublishToTopicEvent.t;
  consumption_offsets : gmap string nat
}.

Definition with_state (self : t) (events : list PublishToTopicEvent.t)
    (offsets : gmap string nat) : t :=
  mk (name self) (kind_of self) (condition self) events offsets.

(** [reset()]: clears published events and all cursors. *)
Definition reset (self : t) : t := with_state self [] ∅.

(** The events at an offset greater than the consumer's cursor; all of
    them for a consumer that has no cursor yet. *)
Definition unconsumed (self : t) (consumer_name : string)
    : list PublishToTopicEvent.t :=
  match consumption_offsets self !! consumer_name with
  | Some last =>
      filter (λ e, last < PublishToTopicEvent.offset e) (topic_events self)
  | None => topic_events self
  end.

Definition can_consume (self : t) (consumer_name : string) : bool :=
  match unconsumed self consumer_name with [] => false | _ :: _ => true end.

(** [consume(consumer_name)]: all unconsumed events; the cursor moves to the
    latest offset. *)
Definition consume (self : t) (consumer_name : string)
    : t * list PublishToTopicEvent.t :=
  (match last (topic_events self) with
   | Some e =>
       with_state self (topic_events self)
         (<[consumer_name := PublishToTopicEvent.offset e]>
            (consumption_offsets self))
   | None => self
   end,
   unconsumed self consumer_name).

Definition accepts (self : t) (data : Data.t) : bool :=
  condition self data
  && match kind_of self, topic_events self with
     | Input, _ :: _ => false
     | _, _ => true
     end.

Definition event_type (self : t) : EventType.t :=
  match kind_of self with
  | Output => EventType.OUTPUT_TOPIC
  | _ => EventType.PUBLISH_TO_TOPIC
  end.

(** The event as the store holds it: an output topic makes
    [OutputTopicEvent]s. *)
Definition as_event (self : t) (e : PublishToTopicEvent.t) : Event.t :=
  match kind_of self with
  | Output => Event.Output e
  | _ => Event.Publish e
  end.

(** [publish_data]: appends a new publish event at the next offset, with the
    ids of [consumed_events] as backlinks, or declines.  [event_id] and
    [now] are the fresh identifier and the clock reading the event is
    created with.  The publish handler is run by the caller
    ([EventDrivenWorkflow.publish_data]). *)
Definition publish_data (self : t) (event_id : string) (now : Z)
    (execution_context : ExecutionContext.t)
    (publisher_name publisher_type : string) (data : Data.t)
    (consumed_events : list ConsumeFromTopicEvent.t)
    : t * option PublishToTopicEvent.t :=
  if accepts self data then
    let event :=
      PublishToTopicEvent.mk event_id (event_type self) now execution_context
        (name self) (length (topic_events self)) publisher_name publisher_type
        (ConsumeFromTopicEvent.event_id <$> consumed_events) data in
    (with_state self (topic_events self ++ [event])
       (consumption_offsets self),
     Some event)
  else (self, None).

(** The offset of an event is its position in the sequence. *)
Definition well_formed (self : t) : Prop :=
  PublishToTopicEvent.offset <$> topic_events self
  = seq 0 (length (topic_events self)).

(** [p'] is [p] with possibly other data. *)
Definition event_same_but_data (p p' : PublishToTopicEvent.t) : Prop :=
  p' = PublishToTopicEvent.mk
         (PublishToTopicEvent.event_id p) (PublishToTopicEvent.event_type p)
         (PublishToTopicEvent.timestamp p)
         (PublishToTopicEvent.execution_context p)
         (PublishToTopicEvent.topic_name p) (PublishToTopicEvent.offset p)
         (PublishToTopicEvent.publisher_name p)
         (PublishToTopicEvent.publisher_type p)
         (PublishToTopicEvent.consumed_event_ids p)
         (PublishToTopicEvent.data p').

(** [self'] is [self] up to the data of its events, and is [self] unless it
    is a human-input topic. *)
Definition same_but_data (self self' : t) : Prop :=
  name self' = name self
  ∧ kind_of self' = kind_of self
  ∧ condition self' = condition self
  ∧ consumption_offsets self' = consumption_offsets self
  ∧ Forall2 event_same_but_data (topic_events self) (topic_events self')
  ∧ (kind_of self ≠ HumanRequest → self' = self).

Global Instance well_formed_dec (self : t) : Decision (well_formed self).
Proof. unfold well_formed. apply _. Defined.

(** [restore_topic(event)]: a stored publish event goes back into the
    sequence, a stored consume event sets the cursor of its consumer; no
    handler runs. *)
Definition restore_topic (self : t) (event : Event.t) : t :=
  match event with
  | Event.Publish p | Event.Output p =>
      with_state self (topic_events self ++ [p]) (consumption_offsets self)
  | Event.Consume c =>
      with_state self (topic_events self)
        (<[ConsumeFromTopicEvent.consumer_name c :=
             ConsumeFromTopicEvent.offset c]> (consumption_offsets self))
  | _ => self
  end.

(** [can_append_user_input]: the publish event is one of this human-input
    topic that the consumer has not consumed yet.  The event passed in is
    the object the topic holds; it is found again by its [event_id]. *)
Definition can_append_user_input (self : t) (consumer_name : string)
    (event : PublishToTopicEvent.t) : bool :=
  bool_decide (kind_of self = HumanRequest)
  && bool_decide (PublishToTopicEvent.event_id event
                  ∈ PublishToTopicEvent.event_id
                      <$> unconsumed self consumer_name).

Definition merge (d : Data.t) (input : list Message.t) : Data.t :=
  match d with
  | Data.One m => Data.Many (m :: input)
  | Data.Many l => Data.Many (l ++ input)
  | Data.Stream g => Data.Stream (g ++ [inr input])
  end.

Definition merged (e : PublishToTopicEvent.t) (input : list Message.t)
    : PublishToTopicEvent.t :=
  PublishToTopicEvent.mk
    (PublishToTopicEvent.event_id e) (PublishToTopicEvent.event_type e)
    (PublishToTopicEvent.timestamp e)
    (PublishToTopicEvent.execution_context e)
    (PublishToTopicEvent.topic_name e) (PublishToTopicEvent.offset e)
    (PublishToTopicEvent.publisher_name e)
    (PublishToTopicEvent.publisher_type e)
    (PublishToTopicEvent.consumed_event_ids e)
    (merge (PublishToTopicEvent.data e) input).

(** What the in-place update does to any holder of the event object. *)
Definition merge_into (event_id : string) (input : list Message.t)
    (e : PublishToTopicEvent.t) : PublishToTopicEvent.t :=
  if decide (PublishToTopicEvent.event_id e = event_id)
  then merged e input else e.

(** [append_user_input]: the new messages are merged into the existing
    publish event, which keeps its id and offset; no event is created.
    The event returned is the updated one. *)
Definition append_user_input (self : t)
    (user_input_event : PublishToTopicEvent.t) (data : list Message.t)
    : t * PublishToTopicEvent.t :=
  (with_state self
     (merge_into (PublishToTopicEvent.event_id user_input_event) data
        <$> topic_events self)
     (consumption_offsets self),
   merged (default user_input_event
             (snd <$> list_find
                (λ e, PublishToTopicEvent.event_id e
                      = PublishToTopicEvent.event_id user_input_event)
                (topic_events self)))
          data).
End Topic.

(** ** Nodes *)

Module Node.
(** Modelled from the spec: the [Node] contract ([grafi/nodes/node.py] and
    [grafi/common/topics/topic_expression.py] are not among the sources).
    A node names the topics it reads in subscription expressions, boolean
    AND/OR trees over topics, and the topics it writes to.  Its body is
    external: [execute] and [a_execute] are the functions it computes from
    the event store, the execution context and the consumed events; the
    body may raise.  The body is taken as a function: the events that the
    decorators of a node ([@record_node_execution] and its asynchronous
    form) record around it, and what a body assigns on the messages it is
    given, are outside of it.  [streams] tells whether the command is an
    [LLMStreamResponseCommand]. *)
Inductive expr :=
  | TopicExpr (topic : Topic.t)
  | And (left right : expr)
  | Or (left right : expr).

Inductive variant :=
  | LLMNode (function_specs : list FunctionSpec.t)
  | LLMFunctionCallNode (function_spec : FunctionSpec.t)
  | OtherNode.

Record t := mk {
  name : string;
  type : string;
  subscribed_expressions : list expr;
  publish_to : list Topic.t;
  streams : bool;
  node_variant : variant;
  execute : EventStoreInMemory.t → ExecutionContext.t →
            list ConsumeFromTopicEvent.t → result (list Message.t);
  a_execute : EventStoreInMemory.t → ExecutionContext.t →
              list ConsumeFromTopicEvent.t → result (list Data.item)
}.

(** [extract_topics(expr)] *)
Fixpoint extract_topics (e : expr) : list Topic.t :=
  match e with
  | TopicExpr topic => [topic]
  | And l r | Or l r => extract_topics l ++ extract_topics r
  end.

(** The keys of [node._subscribed_topics]. *)
Definition subscribed_topics (self : t) : list string :=
  remove_dups
    (Topic.name <$> (subscribed_expressions self ≫= extract_topics)).

Fixpoint evaluate (has_new : string → bool) (e : expr) : bool :=
  match e with
  | TopicExpr topic => has_new (Topic.name topic)
  | And l r => evaluate has_new l && evaluate has_new r
  | Or l r => evaluate has_new l || evaluate has_new r
  end.

(** [can_execute()]: every subscription expression holds of the topics that
    have unconsumed data for this node. *)
Definition can_execute (self : t) (topics : gmap string Topic.t) : bool :=
  forallb
    (evaluate (λ topic_name,
       match topics !! topic_name with
       | Some topic => Topic.can_consume topic (name self)
       | None => false
       end))
    (subscribed_expressions self).

(** [add_function_spec] *)
Definition add_function_spec (self : t) (spec : FunctionSpec.t) : t :=
  match node_variant self with
  | LLMNode specs =>
      mk (name self) (type self) (subscribed_expressions self)
         (publish_to self) (streams self) (LLMNode (specs ++ [spec]))
         (execute self) (a_execute self)
  | _ => self
  end.
End Node.

(** ** The event-driven workflow
    ([grafi/workflows/impl/event_driven_workflow.py]) *)

Module EventDrivenWorkflow.

Record t := mk {
  name : string;
  type : string;
  (** all nodes of the workflow, keyed by node name *)
  nodes : PyDict.t string Node.t;
  (** the topics, keyed by topic name; a topic object shared by several
      nodes is the one entry under its name *)
  topics : gmap string Topic.t;
  (** topic name to the names of the nodes that subscribe to it *)
  topic_nodes : gmap string (list string);
  execution_queue : list Node.t
}.

Definition with_topics (self : t) (ts : gmap string Topic.t) : t :=
  mk (name self) (type self) (nodes self) ts (topic_nodes self)
     (execution_queue self).

Definition with_queue (self : t) (q : list Node.t) : t :=
  mk (name self) (type self) (nodes self) (topics self) (topic_nodes self) q.

(** [EventDrivenWorkflow()] *)
Definition empty : t :=
  mk "EventDrivenWorkflow" "EventDrivenWorkflow" [] ∅ ∅ [].

(** *** The builder *)

Module Builder.
Section builder.
(** The names of the entry and of the terminal topic, constants of
    [topic.py] and [output_topic.py]. *)
Variables AGENT_INPUT_TOPIC AGENT_OUTPUT_TOPIC : string.

Definition node (self : t) (node : Node.t) : result t :=
  if PyDict.contains (nodes self) (Node.name node)
  then raise (DuplicateNodeError (Node.name node))
  else ok (mk (name self) (type self)
              (PyDict.set (nodes self) (Node.name node) node)
              (topics self) (topic_nodes self) (execution_queue self)).

(** Registers the topic if its name is not yet present (and then makes
    [on_event] its publish handler, which [publish_data] below runs). *)
Definition _add_topic (self : t) (topic : Topic.t) : t :=
  match topics self !! Topic.name topic with
  | Some _ => self
  | None => with_topics self (<[Topic.name topic := topic]> (topics self))
  end.

(** [topic_nodes.setdefault(t.name, []).append(node_name)] *)
Definition subscribe (self : t) (topic_name node_name : string) : t :=
  mk (name self) (type self) (nodes self) (topics self)
     (<[topic_name := default [] (topic_nodes self !! topic_name)
                      ++ [node_name]]> (topic_nodes self))
     (execution_queue self).

(** Step 1 of [build] for one node. *)
Definition gather (self : t) (entry : string * Node.t) : t :=
  let '(node_name, node) := entry in
  let self :=
    foldl (λ self expr,
             foldl (λ self t, subscribe (_add_topic self t) (Topic.name t)
                                node_name)
                   self (Node.extract_topics expr))
          self (Node.subscribed_expressions node) in
  foldl _add_topic self (Node.publish_to node).

(** [published_topics_to_nodes]: for every topic an LLM node publishes to,
    the name of the last such node. *)
Definition published_topics_to_nodes (self : t) : PyDict.t string string :=
  PyDict.comprehension (λ p : Topic.t * string, Topic.name p.1) snd
    (PyDict.values (nodes self) ≫= λ node,
       match Node.node_variant node with
       | Node.LLMNode _ => (λ topic, (topic, Node.name node))
                             <$> Node.publish_to node
       | _ => []
       end).

(** Step 3: an LLM node gets the function spec of every function-calling
    node that subscribes to a topic it publishes to. *)
Definition _handle_function_calling_nodes (self : t) : t :=
  let publishers := published_topics_to_nodes self in
  foldl (λ self function_node,
           match Node.node_variant function_node with
           | Node.LLMFunctionCallNode spec =>
               foldl (λ self topic_name,
                        match PyDict.get publishers topic_name with
                        | Some publisher =>
                            match PyDict.get (nodes self) publisher with
                            | Some node =>
                                mk (name self) (type self)
                                   (PyDict.set (nodes self) publisher
                                      (Node.add_function_spec node spec))
                                   (topics self) (topic_nodes self)
                                   (execution_queue self)
                            | None => self
                            end
                        | None => self
                        end)
                     self (Node.subscribed_topics function_node)
           | _ => self
           end)
        self (PyDict.values (nodes self)).

Definition build (self : t) : result t :=
  let self := foldl gather self (nodes self) in
  if bool_decide (topics self !! AGENT_INPUT_TOPIC = None)
     && bool_decide (topics self !! AGENT_OUTPUT_TOPIC = None)
  then raise (ValueError "Agent input output topic not found in workflow topics.")
  else ok (_handle_function_calling_nodes self).

(** [Builder().node(n1).node(n2)...] *)
Definition chain (ns : list Node.t) : result t :=
  foldl (λ self n, self ≫= λ self, node self n) (ok empty) ns.

(** The names of the topics a node names, in its subscriptions or as
    targets. *)
Definition referenced (n : Node.t) : list string :=
  Topic.name <$> ((Node.subscribed_expressions n ≫= Node.extract_topics)
                  ++ Node.publish_to n).

End builder.
End Builder.

(** The topics the LLM nodes publish to, each with the name of the node,
    in the order of the nodes and, for a node, of its targets. *)
Definition llm_publications (self : t) : list (Topic.t * string) :=
  PyDict.values (nodes self) ≫= λ node,
    match Node.node_variant node with
    | Node.LLMNode _ => (λ topic, (topic, Node.name node))
                          <$> Node.publish_to node
    | _ => []
    end.

(** The name of the LLM node that comes last among those publishing to a
    topic of that name. *)
Definition last_publisher (self : t) (topic_name : string) : option string :=
  snd <$> last (filter (λ p, Topic.name p.1 = topic_name)
                  (llm_publications self)).

(** The subscriber list of a topic after more names were appended to it;
    a topic nobody subscribed to has no entry. *)
Definition listed (o : option (list string)) (l : list string)
    : option (list string) :=
  match l with
  | [] => o
  | _ :: _ => Some (default [] o ++ l)
  end.

(** The names of the nodes that subscribe to a topic, in the order in
    which the nodes were registered, a node once for every time one of its
    subscription expressions names the topic. *)
Definition subscribers (ns : list Node.t) (t : string) : list string :=
  ns ≫= λ n,
    (λ _, Node.name n)
      <$> filter (λ T, Topic.name T = t)
            (Node.subscribed_expressions n ≫= Node.extract_topics).

(** Every topic stands under its own name, and every topic of the
    subscriber index is a topic of the workflow. *)
Definition indexed (self : t) : Prop :=
  (∀ t T, topics self !! t = Some T → Topic.name T = t)
  ∧ (∀ t, is_Some (topic_nodes self !! t) → is_Some (topics self !! t)).

(** Every name in the subscriber index is the name of a registered node. *)
Definition graph_closed (self : t) : Prop :=
  map_Forall (λ _ names, Forall (λ n, n ∈ PyDict.keys (nodes self)) names)
             (topic_nodes self).

Global Instance graph_closed_dec self : Decision (graph_closed self).
Proof. unfold graph_closed. apply _. Defined.

(** *** The engine state

    The workflow object, the event store of the container, the number of
    events created so far (identifiers and timestamps of new events are
    drawn from it) and, as a record of what happened, the node bodies run
    so far with the events they were given. *)
Record world := World {
  workflow : t;
  event_store : EventStoreInMemory.t;
  created : nat;
  invocations : list (string * list ConsumeFromTopicEvent.t)
}.

(** Computations that change the engine state and may raise; the state at
    the time of the exception is kept. *)
Definition M (A : Type) : Type := world → result A * world.

Global Instance M_ret : MRet M := λ A a w, (inr a, w).
Global Instance M_bind : MBind M :=
  λ A B f m w, match m w with
               | (inr a, w') => f a w'
               | (inl e, w') => (inl e, w')
               end.

Definition get : M world := λ w, (inr w, w).
Definition put (w : world) : M unit := λ _, (inr (), w).
Definition throw {A} (e : exn) : M A := λ w, (inl e, w).
Definition pass : M unit := mret ().

Fixpoint for_each {A} (l : list A) (body : A → M unit) : M unit :=
  match l with
  | [] => pass
  | a :: l' => body a;; for_each l' body
  end.

Definition set_workflow (f : t → t) : M unit :=
  λ w, (inr (), World (f (workflow w)) (event_store w) (created w)
                  (invocations w)).

Definition enqueue (node : Node.t) : M unit :=
  set_workflow (λ self, with_queue self (execution_queue self ++ [node])).

Definition set_topic (topic_name : string) (topic : Topic.t) : M unit :=
  set_workflow (λ self, with_topics self (<[topic_name := topic]> (topics self))).

(** [container.event_store.record_events(events)] *)
Definition record_events (events : list Event.t) : M unit :=
  λ w, (inr (), World (workflow w)
                  (EventStoreInMemory.record_events (event_store w) events)
                  (created w) (invocations w)).

Definition record_event (event : Event.t) : M unit :=
  λ w, (inr (), World (workflow w)
                  (EventStoreInMemory.record_event (event_store w) event)
                  (created w) (invocations w)).

(** The counter of created events; the caller draws identifier and
    timestamp from the value returned. *)
Definition next_created : M nat :=
  λ w, (inr (created w), World (workflow w) (event_store w) (S (created w))
                           (invocations w)).

Definition note_invocation (node : Node.t)
    (input : list ConsumeFromTopicEvent.t) : M unit :=
  λ w, (inr (), World (workflow w) (event_store w) (created w)
                  (invocations w ++ [(Node.name node, input)])).

(** The publish events a topic holds are the objects the store holds: an
    update in place of an event of the topic shows in the store. *)
Definition update_stored (event_id : string) (input : list Message.t)
    : M unit :=
  λ w, (inr (),
        World (workflow w)
          ((λ e, match e with
                 | Event.Publish p =>
                     Event.Publish (Topic.merge_into event_id input p)
                 | Event.Output p =>
                     Event.Output (Topic.merge_into event_id input p)
                 | _ => e
                 end) <$> event_store w)
          (created w) (invocations w)).

Fixpoint fold_m {A B} (f : B → A → M B) (b : B) (l : list A) : M B :=
  match l with
  | [] => mret b
  | a :: l' => b' ← f b a; fold_m f b' l'
  end.

Definition lift {A} (r : result A) : M A :=
  match r with inl e => throw e | inr a => mret a end.

(** *** Vocabulary for the effects of a computation *)

(** A computation keeps a preorder on engine states, whether it returns or
    raises. *)
Definition keeps {A} (R : world → world → Prop) (m : M A) : Prop :=
  ∀ w, R w (m w).2.

(** The store and the record of invocations stay as they are. *)
Definition same_store (w w' : world) : Prop :=
  event_store w' = event_store w ∧ invocations w' = invocations w.

(** Topics other than the listed ones stay as they are. *)
Definition same_topics_but (names : list string) (w w' : world) : Prop :=
  ∀ t, t ∉ names → topics (workflow w') !! t = topics (workflow w) !! t.

(** The state with nodes appended to the execution queue. *)
Definition requeue (w : world) (added : list Node.t) : world :=
  World (with_queue (workflow w) (execution_queue (workflow w) ++ added))
    (event_store w) (created w) (invocations w).

(** Of the named nodes, those that are ready: what [on_event] appends to
    the queue for the subscribers of a topic. *)
Definition ready_subscribers (w : world) (names : list string) : list Node.t :=
  omap (λ n, match PyDict.get (nodes (workflow w)) n with
             | Some node =>
                 if Node.can_execute node (topics (workflow w))
                 then Some node else None
             | None => None
             end) names.

(** The topics after every stored event has been restored into its
    topic. *)
Definition restore_all (ts : gmap string Topic.t) (events : list Event.t)
    : gmap string Topic.t :=
  foldl (λ ts event,
           match Event.topic_name event with
           | Some t =>
               match ts !! t with
               | Some topic => <[t := Topic.restore_topic topic event]> ts
               | None => ts
               end
           | None => ts
           end) ts events.

(** The state with other topics. *)
Definition with_world_topics (w : world) (ts : gmap string Topic.t) : world :=
  World (with_topics (workflow w) ts) (event_store w) (created w)
    (invocations w).

(** The node of that name, if it can still consume from the topic and is
    ready. *)
Definition resumable_node (w : world) (topic_name node_name : string)
    : option Node.t :=
  match PyDict.get (nodes (workflow w)) node_name,
        topics (workflow w) !! topic_name with
  | Some node, Some topic =>
      if Topic.can_consume topic node_name
         && Node.can_execute node (topics (workflow w))
      then Some node else None
  | _, _ => None
  end.

(** The subscribers that can still consume from the topic of a stored
    publish event and are ready, for every stored publish event in turn. *)
Definition resumable (w : world) (events : list Event.t) : list Node.t :=
  omap Event.as_publish events ≫= λ p,
    match topic_nodes (workflow w) !! PublishToTopicEvent.topic_name p with
    | Some names =>
        omap (resumable_node w (PublishToTopicEvent.topic_name p)) names
    | None => []
    end.

(** A stored event up to the data of a publish event. *)
Definition stored_same_but_data (e e' : Event.t) : Prop :=
  match e, e' with
  | Event.Publish p, Event.Publish p'
  | Event.Output p, Event.Output p' => Topic.event_same_but_data p p'
  | _, _ => e' = e
  end.

(** The topics of the second state are those of the first up to the data
    of the events of human-input topics. *)
Definition topics_same_but_data (w w' : world) : Prop :=
  ∀ t, option_Forall2 Topic.same_but_data
         (topics (workflow w) !! t) (topics (workflow w') !! t).

(** An event recorded by a human-input append: a publish event that has
    the id of one of the given stored publish events, whose topic is a
    human-input topic of the workflow. *)
Definition human_append (stored : list PublishToTopicEvent.t) (w : world)
    (e : Event.t) : Prop :=
  ∃ p p0 T,
    e = Event.Publish p
    ∧ p0 ∈ stored
    ∧ PublishToTopicEvent.event_id p = PublishToTopicEvent.event_id p0
    ∧ topics (workflow w) !! PublishToTopicEvent.topic_name p0 = Some T
    ∧ Topic.kind_of T = Topic.HumanRequest.

(** What resuming may change: the data of events of human-input topics, in
    the topics and in the store, the events recorded for the appends, and the
    queue. *)
Definition resumed (stored : list PublishToTopicEvent.t) (w w' : world)
    : Prop :=
  topics_same_but_data w w'
  ∧ nodes (workflow w') = nodes (workflow w)
  ∧ topic_nodes (workflow w') = topic_nodes (workflow w)
  ∧ created w' = created w
  ∧ invocations w' = invocations w
  ∧ ∃ updated appended,
      event_store w' = updated ++ appended
      ∧ Forall2 stored_same_but_data (event_store w) updated
      ∧ Forall (human_append stored w) appended.

(** The events the topics hold for a node: for every topic the node
    subscribes to, in the order of its subscriptions, the events of the
    topic the node has not consumed. *)
Definition pending_for (w : world) (node : Node.t)
    : list PublishToTopicEvent.t :=
  Node.subscribed_topics node ≫= λ t,
    match topics (workflow w) !! t with
    | Some T => Topic.unconsumed T (Node.name node)
    | None => []
    end.

(** An event made by publishing the result of a node. *)
Definition published_for (node : Node.t)
    (execution_context : ExecutionContext.t) (result : Data.t)
    (consumed_events : list ConsumeFromTopicEvent.t) (e : Event.t) : Prop :=
  ∃ p,
    Event.as_publish e = Some p
    ∧ PublishToTopicEvent.data p = result
    ∧ PublishToTopicEvent.publisher_name p = Node.name node
    ∧ PublishToTopicEvent.publisher_type p = Node.type node
    ∧ PublishToTopicEvent.execution_context p = execution_context
    ∧ PublishToTopicEvent.consumed_event_ids p
      = ConsumeFromTopicEvent.event_id <$> consumed_events.

(** Every target topic of the node that is registered and whose policy
    accepts the result has got an event with the result among the listed
    ones. *)
Definition reaches_targets (node : Node.t) (w : world) (result : Data.t)
    (published : list Event.t) : Prop :=
  ∀ T Tw,
    T ∈ Node.publish_to node →
    topics (workflow w) !! Topic.name T = Some Tw →
    Topic.accepts Tw result = true →
    ∃ p, Topic.as_event Tw p ∈ published
         ∧ PublishToTopicEvent.topic_name p = Topic.name Tw
         ∧ PublishToTopicEvent.data p = result.

(** *** Vocabulary for the store

    The publish events of a request on a topic, in the order in which the
    store holds them. *)
Definition published_on (store : EventStoreInMemory.t)
    (assistant_request_id topic_name : string) : list PublishToTopicEvent.t :=
  filter (λ p, PublishToTopicEvent.topic_name p = topic_name)
    (omap Event.as_publish
       (EventStoreInMemory.get_agent_events store assistant_request_id)).

(** The offsets of the publish events of a request on a topic count up
    from 0 in the order recorded: they increase strictly and none is used
    twice. *)
Definition offsets_in_order (store : EventStoreInMemory.t) : Prop :=
  ∀ r t,
    PublishToTopicEvent.offset <$> published_on store r t
    = seq 0 (length (published_on store r t)).

(** Within each topic, whatever the request, a publish event recorded
    later has a greater offset. *)
Definition offsets_increase_per_topic (store : list Event.t) : Prop :=
  ∀ i j p q,
    i < j →
    store !! i ≫= Event.as_publish = Some p →
    store !! j ≫= Event.as_publish = Some q →
    PublishToTopicEvent.topic_name p = PublishToTopicEvent.topic_name q →
    PublishToTopicEvent.offset p < PublishToTopicEvent.offset q.

(** A consume event and a publish event of the same request with the same
    topic name and offset. *)
Definition consumed_from (c : ConsumeFromTopicEvent.t)
    (p : PublishToTopicEvent.t) : Prop :=
  PublishToTopicEvent.topic_name p = ConsumeFromTopicEvent.topic_name c
  ∧ PublishToTopicEvent.offset p = ConsumeFromTopicEvent.offset c
  ∧ PublishToTopicEvent.execution_context p
    = ConsumeFromTopicEvent.execution_context c.

(** Every consume event stands behind a publish event it matches. *)
Definition consumes_published (store : list Event.t) : Prop :=
  ∀ i c,
    store !! i = Some (Event.Consume c) →
    ∃ j p, j < i ∧ store !! j ≫= Event.as_publish = Some p
           ∧ consumed_from c p.

Definition store_invariant (store : EventStoreInMemory.t) : Prop :=
  offsets_in_order store ∧ consumes_published store.

(** Every topic is registered under its name, and none is a human-input
    topic. *)
Definition plain_topics (self : t) : Prop :=
  map_Forall (λ t T, Topic.name T = t
                     ∧ Topic.kind_of T ≠ Topic.HumanRequest) (topics self).

Global Instance plain_topics_dec self : Decision (plain_topics self).
Proof. unfold plain_topics. apply _. Defined.

(** The events of every topic are the recorded publish events of the
    request on that topic. *)
Definition coupled (assistant_request_id : string) (w : world) : Prop :=
  ∀ t T,
    topics (workflow w) !! t = Some T →
    Topic.topic_events T
    = published_on (event_store w) assistant_request_id t.

(** Nodes and subscriber index stay as they are, and so do the names and
    kinds of the topics. *)
Definition same_shape (w w' : world) : Prop :=
  nodes (workflow w') = nodes (workflow w)
  ∧ topic_nodes (workflow w') = topic_nodes (workflow w)
  ∧ ∀ t, option_Forall2
           (λ T T', Topic.name T' = Topic.name T
                    ∧ Topic.kind_of T' = Topic.kind_of T)
           (topics (workflow w) !! t) (topics (workflow w') !! t).

(** A consume event made from an event that a topic of the workflow
    holds. *)
Definition consumed_in (w : world) (c : ConsumeFromTopicEvent.t) : Prop :=
  ∃ t T p,
    topics (workflow w) !! t = Some T
    ∧ p ∈ Topic.topic_events T
    ∧ consumed_from c p.

(** Only cursors of topics, the queue and the counter of created events
    may differ. *)
Definition cursors_moved (w w' : world) : Prop :=
  event_store w' = event_store w
  ∧ invocations w' = invocations w
  ∧ nodes (workflow w') = nodes (workflow w)
  ∧ topic_nodes (workflow w') = topic_nodes (workflow w)
  ∧ ∀ t, option_Forall2
           (λ T T', Topic.name T' = Topic.name T
                    ∧ Topic.kind_of T' = Topic.kind_of T
                    ∧ Topic.topic_events T' = Topic.topic_events T)
           (topics (workflow w) !! t) (topics (workflow w') !! t).

(** The state between two calls: what is kept of the workflow and of the
    store whether a call returns or raises. *)
Definition sound (w : world) : Prop :=
  graph_closed (workflow w) ∧ plain_topics (workflow w)
  ∧ store_invariant (event_store w).

(** While the results of a turn are published: the topics hold the
    recorded publish events of the request and the events published so
    far in the turn, which are not recorded yet. *)
Definition publishing (assistant_request_id : string)
    (pending : list Event.t) (w : world) : Prop :=
  graph_closed (workflow w) ∧ plain_topics (workflow w)
  ∧ offsets_in_order (event_store w ++ pending)
  ∧ ∀ t T,
      topics (workflow w) !! t = Some T →
      Topic.topic_events T
      = published_on (event_store w ++ pending) assistant_request_id t.

(** The state between two turns of the loop of a run for a request. *)
Definition running (assistant_request_id : string) (w : world) : Prop :=
  sound w ∧ coupled assistant_request_id w.

(** In a workflow without human-input topics, only the queue, the counter
    of created events and the record of invocations may differ. *)
Definition only_queue (w w' : world) : Prop :=
  plain_topics (workflow w) →
  topics (workflow w') = topics (workflow w)
  ∧ nodes (workflow w') = nodes (workflow w)
  ∧ topic_nodes (workflow w') = topic_nodes (workflow w)
  ∧ event_store w' = event_store w.

(** The store is only extended, and the workflow keeps its nodes, its
    subscriber index and the names and kinds of its topics. *)
Definition appends (w w' : world) : Prop :=
  same_shape w w' ∧ event_store w `prefix_of` event_store w'.

(** Nodes and subscriber index stay as they are. *)
Definition same_graph (w w' : world) : Prop :=
  nodes (workflow w') = nodes (workflow w)
  ∧ topic_nodes (workflow w') = topic_nodes (workflow w)
  ∧ name (workflow w') = name (workflow w)
  ∧ type (workflow w') = type (workflow w).

Section engine.
Variables AGENT_INPUT_TOPIC AGENT_OUTPUT_TOPIC : string.
(** The default factories of [event_id] and [timestamp]. *)
Variable new_id : nat → string.
Variable clock : nat → Z.

(** [self.nodes[node_name]] *)
Definition node_named (node_name : string) : M Node.t :=
  w ← get;
  match PyDict.get (nodes (workflow w)) node_name with
  | Some node => mret node
  | None => throw (KeyError node_name)
  end.

(** [self.topics[topic_name]] *)
Definition topic_named (topic_name : string) : M Topic.t :=
  w ← get;
  match topics (workflow w) !! topic_name with
  | Some topic => mret topic
  | None => throw (KeyError topic_name)
  end.

Definition on_event (event : Event.t) : M unit :=
  match event with
  | Event.Publish p =>
      w ← get;
      match topic_nodes (workflow w) !! PublishToTopicEvent.topic_name p with
      | None => pass
      | Some subscribed_nodes =>
          for_each subscribed_nodes (λ node_name,
            node ← node_named node_name;
            w ← get;
            if Node.can_execute node (topics (workflow w))
            then enqueue node else pass)
      end
  | _ => pass
  end.

(** [topic.publish_data(...)] on the topic object of that name, followed by
    the publish handler the builder gave it.  A name that is not
    registered, which a built workflow does not have, publishes nothing. *)
Definition publish_data (topic_name : string)
    (execution_context : ExecutionContext.t)
    (publisher_name publisher_type : string) (data : Data.t)
    (consumed_events : list ConsumeFromTopicEvent.t) : M (option Event.t) :=
  w ← get;
  match topics (workflow w) !! topic_name with
  | None => mret None
  | Some topic =>
      match Topic.publish_data topic (new_id (created w)) (clock (created w))
              execution_context publisher_name publisher_type data
              consumed_events with
      | (topic', Some event) =>
          next_created;;
          set_topic topic_name topic';;
          on_event (Topic.as_event topic event);;
          mret (Some (Topic.as_event topic event))
      | (_, None) => mret None
      end
  end.

Definition _publish_events (node : Node.t)
    (execution_context : ExecutionContext.t) (result : Data.t)
    (consumed_events : list ConsumeFromTopicEvent.t) : M unit :=
  published_events ←
    fold_m (λ published_events topic,
              event ← publish_data (Topic.name topic) execution_context
                        (Node.name node) (Node.type node) result
                        consumed_events;
              mret (match event with
                    | Some e => published_events ++ [e]
                    | None => published_events
                    end))
           [] (Node.publish_to node);
  record_events ((Event.Consume <$> consumed_events) ++ published_events).

(** [ConsumeFromTopicEvent(...)] for one consumed publish event. *)
Definition consume_event (node : Node.t) (n : nat)
    (event : PublishToTopicEvent.t) : ConsumeFromTopicEvent.t :=
  ConsumeFromTopicEvent.mk (new_id n) EventType.CONSUME_FROM_TOPIC (clock n)
    (PublishToTopicEvent.execution_context event)
    (PublishToTopicEvent.topic_name event)
    (PublishToTopicEvent.offset event)
    (Node.name node) (Node.type node)
    (PublishToTopicEvent.data event).

(** [for event in node_consumed_events: consumed_events.append(
    ConsumeFromTopicEvent(...))] *)
Definition wrap_consumed (node : Node.t)
    (consumed_events : list ConsumeFromTopicEvent.t)
    (node_consumed_events : list PublishToTopicEvent.t)
    : M (list ConsumeFromTopicEvent.t) :=
  fold_m (λ consumed_events event,
            n ← next_created;
            mret (consumed_events ++ [consume_event node n event]))
         consumed_events node_consumed_events.

(** Body of [for subscribed_topic in node_subscribed_topics]. *)
Definition consume_topic (node : Node.t)
    (consumed_events : list ConsumeFromTopicEvent.t) (topic_name : string)
    : M (list ConsumeFromTopicEvent.t) :=
  w ← get;
  match topics (workflow w) !! topic_name with
  | Some subscribed_topic =>
      if Topic.can_consume subscribed_topic (Node.name node) then
        let '(topic', node_consumed_events) :=
          Topic.consume subscribed_topic (Node.name node) in
        set_topic topic_name topic';;
        wrap_consumed node consumed_events node_consumed_events
      else mret consumed_events
  | None => mret consumed_events
  end.

Definition get_node_input (node : Node.t) : M (list ConsumeFromTopicEvent.t) :=
  fold_m (consume_topic node) [] (Node.subscribed_topics node).

(** [sorted(all_messages, key=lambda item: item.timestamp)]: a stable sort. *)
Fixpoint insert_by_timestamp (m : Message.t) (l : list Message.t)
    : list Message.t :=
  match l with
  | [] => [m]
  | x :: l' =>
      if (Message.timestamp m <=? Message.timestamp x)%Z then m :: x :: l'
      else x :: insert_by_timestamp m l'
  end.

Definition sorted_by_timestamp (l : list Message.t) : list Message.t :=
  foldr insert_by_timestamp [] l.

Definition earlier_or_same (a b : Message.t) : Prop :=
  (Message.timestamp a ≤ Message.timestamp b)%Z.

(** The messages of the earlier runs of the conversation. *)
Definition conversation_messages (store : EventStoreInMemory.t)
    (conversation_id : string) : list Message.t :=
  let conversation_events :=
    EventStoreInMemory.get_conversation_events store conversation_id in
  let assistant_respond_event_dict :=
    PyDict.comprehension AssistantRespondEvent.event_id id
      (omap Event.as_assistant_respond conversation_events) in
  PyDict.values assistant_respond_event_dict ≫= λ event,
    AssistantRespondEvent.input_data event
    ++ AssistantRespondEvent.output_data event.

(** The [AssistantRespondEvent]s of a conversation, and all their input
    and output messages. *)
Definition assistant_respond_events (store : EventStoreInMemory.t)
    (conversation_id : string) : list AssistantRespondEvent.t :=
  omap Event.as_assistant_respond
    (EventStoreInMemory.get_conversation_events store conversation_id).

Definition all_messages (events : list AssistantRespondEvent.t)
    : list Message.t :=
  events ≫= λ event, AssistantRespondEvent.input_data event
                     ++ AssistantRespondEvent.output_data event.

(** The stored publish and consume events of the request. *)
Definition stored_topic_events (store : EventStoreInMemory.t)
    (execution_context : ExecutionContext.t) : list Event.t :=
  filter (λ e, Event.is_topic_event e = true)
    (EventStoreInMemory.get_agent_events store
       (ExecutionContext.assistant_request_id execution_context)).

(** A fresh request and the earlier exchanges of its conversation, as the
    specification words them, read off the stored events themselves:
    no stored publish or consume event carries the request id, and the
    exchanges are the stored [AssistantRespondEvent]s that carry the
    conversation id, in the order recorded.  [initial_workflow] computes
    both through [get_agent_events] and [get_conversation_events]; the
    two readings are compared in the theorems. *)
Definition fresh_request (store : list Event.t)
    (assistant_request_id : string) : Prop :=
  Forall (λ e, Event.is_topic_event e = true →
               ExecutionContext.assistant_request_id
                 (Event.execution_context e) ≠ assistant_request_id) store.

Definition exchange_of (conversation_id : string) (e : Event.t)
    : option AssistantRespondEvent.t :=
  match e with
  | Event.AssistantRespond a =>
      if decide (ExecutionContext.conversation_id
                   (AssistantRespondEvent.execution_context a)
                 = conversation_id)
      then Some a else None
  | _ => None
  end.

Definition exchanges (store : list Event.t) (conversation_id : string)
    : list AssistantRespondEvent.t :=
  omap (exchange_of conversation_id) store.

Definition earlier_messages (store : list Event.t) (conversation_id : string)
    : list Message.t :=
  exchanges store conversation_id ≫= λ a,
    AssistantRespondEvent.input_data a ++ AssistantRespondEvent.output_data a.

(** The [else] branch of [initial_workflow], for one stored publish event
    and one subscriber of its topic. *)
Definition resume_node (topic_name : string)
    (publish_event : PublishToTopicEvent.t) (input : list Message.t)
    (node_name : string) : M unit :=
  node ← node_named node_name;
  topic ← topic_named topic_name;
  w ← get;
  if Topic.can_consume topic node_name
     && Node.can_execute node (topics (workflow w))
  then
    (if Topic.can_append_user_input topic node_name publish_event then
       let '(topic', event) :=
         Topic.append_user_input topic publish_event input in
       set_topic topic_name topic';;
       update_stored (PublishToTopicEvent.event_id publish_event) input;;
       record_event (Topic.as_event topic event)
     else pass);;
    enqueue node
  else pass.

Definition initial_workflow (execution_context : ExecutionContext.t)
    (input : list Message.t) : M unit :=
  set_workflow (λ self, with_topics self (Topic.reset <$> topics self));;
  w ← get;
  let events := stored_topic_events (event_store w) execution_context in
  match events with
  | [] =>
      let sorted_messages :=
        sorted_by_timestamp
          (conversation_messages (event_store w)
             (ExecutionContext.conversation_id execution_context))
        ++ input in
      match topics (workflow w) !! AGENT_INPUT_TOPIC with
      | None => throw AttributeError
      | Some _ =>
          event ← publish_data AGENT_INPUT_TOPIC execution_context
                    (name (workflow w)) (type (workflow w))
                    (Data.Many sorted_messages) [];
          match event with
          | Some e => record_event e
          | None =>
              (* The entry topic declines the data: the code goes on to
                 [record_event(None)], which appends [None] to the list of
                 the store and returns; every later query of the store
                 then fails with [AttributeError] on [None.event_id] or
                 [None.execution_context].  A store is a list of events
                 here, so the failure is placed at the call that makes
                 the entry. *)
              throw AttributeError
          end
      end
  | _ :: _ =>
      for_each events (λ event,
        match Event.topic_name event with
        | Some topic_name =>
            topic ← topic_named topic_name;
            set_topic topic_name (Topic.restore_topic topic event)
        | None => pass
        end);;
      for_each (omap Event.as_publish events) (λ publish_event,
        let topic_name := PublishToTopicEvent.topic_name publish_event in
        w ← get;
        match topic_nodes (workflow w) !! topic_name with
        | None => pass
        | Some subscribed_nodes =>
            topic_named topic_name;;
            for_each subscribed_nodes
              (resume_node topic_name publish_event input)
        end)
  end.

(** One turn of the loop of [execute]. *)
Definition execute_turn (execution_context : ExecutionContext.t)
    (node : Node.t) : M unit :=
  node_consumed_events ← get_node_input node;
  match node_consumed_events with
  | [] => pass
  | _ :: _ =>
      w ← get;
      note_invocation node node_consumed_events;;
      result ← lift (Node.execute node (event_store w) execution_context
                       node_consumed_events);
      _publish_events node execution_context (Data.Many result)
        node_consumed_events
  end.

(** The generator [node.a_execute(...)] returns, by the items it yields
    once it is run. *)
Definition generator (node : Node.t) (store : EventStoreInMemory.t)
    (execution_context : ExecutionContext.t)
    (input : list ConsumeFromTopicEvent.t) : list Data.item :=
  match Node.a_execute node store execution_context input with
  | inr items => items
  | inl _ => []
  end.

(** One turn of the loop of [a_execute]. *)
Definition a_execute_turn (execution_context : ExecutionContext.t)
    (node : Node.t) : M unit :=
  node_consumed_events ← get_node_input node;
  match node_consumed_events with
  | [] => pass
  | _ :: _ =>
      w ← get;
      result ←
        (if Node.streams node then
           mret (Data.Stream (generator node (event_store w)
                                execution_context node_consumed_events))
         else
           note_invocation node node_consumed_events;;
           items ← lift (Node.a_execute node (event_store w)
                           execution_context node_consumed_events);
           mret (Data.Many (items ≫= Data.item_messages)));
      _publish_events node execution_context result node_consumed_events
  end.

(** [while self.execution_queue: node = self.execution_queue.popleft();
    ...], with a bound on the number of turns. *)
Fixpoint loop (fuel : nat) (turn : Node.t → M unit) : M unit :=
  w ← get;
  match execution_queue (workflow w) with
  | [] => pass
  | node :: rest =>
      match fuel with
      | 0 => throw OutOfFuel
      | S fuel' =>
          set_workflow (λ self, with_queue self rest);;
          turn node;;
          loop fuel' turn
      end
  end.

(** The bodies of [execute] and [a_execute], as written under their
    decorators.  [@record_workflow_execution] and
    [@record_workflow_a_execution] are defined outside of the sources
    ([grafi/common/decorators]); the workflow-level events they record
    around the body, in the same store, are not part of these
    definitions.  Those events are neither publish nor consume events. *)
Definition execute (fuel : nat) (execution_context : ExecutionContext.t)
    (input : list Message.t) : M unit :=
  initial_workflow execution_context input;;
  loop fuel (execute_turn execution_context).

Definition a_execute (fuel : nat) (execution_context : ExecutionContext.t)
    (input : list Message.t) : M unit :=
  initial_workflow execution_context input;;
  loop fuel (a_execute_turn execution_context).

(** *** Runs

    A call of [execute] or [a_execute]; the state it leaves behind,
    whether it returns or raises, is the state the next call starts
    from. *)
Inductive mode := Sync | Async.

Record call := Call {
  call_mode : mode;
  call_fuel : nat;
  call_context : ExecutionContext.t;
  call_input : list Message.t
}.

Definition run_call (w : world) (c : call) : world :=
  match call_mode c with
  | Sync => (execute (call_fuel c) (call_context c) (call_input c) w).2
  | Async => (a_execute (call_fuel c) (call_context c) (call_input c) w).2
  end.

Definition run_calls (calls : list call) (w : world) : world :=
  foldl run_call w calls.

End engine.
End EventDrivenWorkflow.

(** ** Sample data *)

Module Sample.
Definition ctx : ExecutionContext.t := ExecutionContext.mk "conv" "exec" "req" "".

Definition clock (n : nat) : Z := 100 + Z.of_nat n.

Definition call_a : ToolCall.t := ToolCall.mk "a" "lookup" "{}".
Definition call_b : ToolCall.t := ToolCall.mk "b" "search" "{}".

Definition user : Message.t :=
  Message.mk "user" (Some "hi") None None None None 1.
Definition assistant : Message.t :=
  Message.mk "assistant" None None None (Some [call_a; call_b]) None 2.
Definition result_a : Message.t :=
  Message.mk "tool" (Some "A") None (Some "a") None None 3.
Definition result_b : Message.t :=
  Message.mk "tool" (Some "B") None (Some "b") None None 4.
Definition note : Message.t :=
  Message.mk "assistant" (Some "one moment") None None None None 5.

Definition consume (id topic : string) (off : nat) (d : Data.t)
    : ConsumeFromTopicEvent.t :=
  ConsumeFromTopicEvent.mk id EventType.CONSUME_FROM_TOPIC 0 ctx topic off
    "llm" "LLMNode" d.

Definition publish (id topic : string) (off : nat) (consumed : list string)
    (d : Data.t) : PublishToTopicEvent.t :=
  PublishToTopicEvent.mk id EventType.PUBLISH_TO_TOPIC 0 ctx topic off
    "node" "Node" consumed d.

Definition llm : LLMNode.t := LLMNode.mk "llm" "LLMNode" [].

(** One consumed event holding a tool-calling message and both results. *)
Definition both_results : list ConsumeFromTopicEvent.t :=
  [consume "c1" "t" 0 (Data.Many [user; assistant; result_a; result_b])].
End Sample.

(** A request in which the LLM node is handed a tool result: the event
    graph reaches, from the consumed event [cB], the earlier event [cA],
    whose messages are a tool-calling message and a remark. *)
Module CausalSample.
Import Sample.

Definition calling : Message.t :=
  Message.mk "assistant" None None None (Some [call_a]) None 2.

Definition pA : PublishToTopicEvent.t :=
  publish "pA" "calls" 0 [] (Data.Many [calling; note]).
Definition cA : ConsumeFromTopicEvent.t :=
  consume "cA" "calls" 0 (Data.Many [calling; note]).
Definition thanks : Message.t :=
  Message.mk "user" (Some "thanks") None None None None 6.

Definition pB : PublishToTopicEvent.t :=
  publish "pB" "results" 0 ["cA"] (Data.Many [result_a; thanks]).
Definition cB : ConsumeFromTopicEvent.t :=
  consume "cB" "results" 0 (Data.Many [result_a; thanks]).

Definition store : EventStoreInMemory.t :=
  [Event.Publish pA; Event.Consume cA; Event.Publish pB].

Definition node_input : list ConsumeFromTopicEvent.t := [cB].
End CausalSample.

(** A node respond event whose output is one message, not a list. *)
Module RespondSample.
Definition single_output : NodeRespondEvent.t :=
  NodeRespondEvent.mk
    (NodeEvent.mk "n1" EventType.NODE_RESPOND 7 Sample.ctx "id" "llm" "LLMNode")
    [Sample.consume "c1" "t" 0 (Data.Many [Sample.user])]
    (Data.One Sample.note).
End RespondSample.

(** A workflow of three nodes on the entry topic: [responder] answers on
    the terminal topic, [streamer] is a streaming node on the terminal
    topic, [reviewer] writes to a topic of its own. *)
Module WorkflowSample.
Import EventDrivenWorkflow.

Definition AGENT_INPUT_TOPIC : string := "agent_input_topic".
Definition AGENT_OUTPUT_TOPIC : string := "agent_output_topic".

Definition new_id (n : nat) : string := "event-" +:+ pretty n.
Definition now (n : nat) : Z := Z.of_nat n.

Definition always (d : Data.t) : bool := true.

Definition agent_input_topic : Topic.t :=
  Topic.mk AGENT_INPUT_TOPIC Topic.Input always [] ∅.
Definition agent_output_topic : Topic.t :=
  Topic.mk AGENT_OUTPUT_TOPIC Topic.Output always [] ∅.
Definition review_topic : Topic.t :=
  Topic.mk "review" Topic.Plain always [] ∅.

Definition reply : Message.t :=
  Message.mk "assistant" (Some "hello") None None None None 9.

Definition answers (store : EventStoreInMemory.t) (c : ExecutionContext.t)
    (input : list ConsumeFromTopicEvent.t) : result (list Message.t) :=
  ok [reply].
Definition yields (store : EventStoreInMemory.t) (c : ExecutionContext.t)
    (input : list ConsumeFromTopicEvent.t) : result (list Data.item) :=
  ok [inl reply].

Definition responder : Node.t :=
  Node.mk "responder" "LLMNode" [Node.TopicExpr agent_input_topic]
    [agent_output_topic] false Node.OtherNode answers yields.
Definition streamer : Node.t :=
  Node.mk "streamer" "LLMNode" [Node.TopicExpr agent_input_topic]
    [agent_output_topic] true Node.OtherNode answers yields.
Definition reviewer : Node.t :=
  Node.mk "reviewer" "LLMNode" [Node.TopicExpr agent_input_topic]
    [review_topic] false Node.OtherNode answers yields.

Definition build (ns : list Node.t) : result EventDrivenWorkflow.t :=
  Builder.chain ns ≫= Builder.build AGENT_INPUT_TOPIC AGENT_OUTPUT_TOPIC.

(** The workflow under construction after the nodes were registered. *)
Definition registered (ns : list Node.t) : EventDrivenWorkflow.t :=
  match Builder.chain ns with inr w => w | inl _ => empty end.

(** The engine state of a freshly built workflow, with an empty store. *)
Definition fresh (ns : list Node.t) : world :=
  World (match build ns with inr w => w | inl _ => empty end) [] 0 [].

Definition request_1 : ExecutionContext.t :=
  ExecutionContext.mk "conv" "exec-1" "req-1" "".
Definition request_2 : ExecutionContext.t :=
  ExecutionContext.mk "conv" "exec-2" "req-2" "".

(** A store that holds the exchange of an earlier request of the
    conversation. *)
Definition earlier : AssistantRespondEvent.t :=
  AssistantRespondEvent.mk "a-0" EventType.ASSISTANT_RESPOND 3
    (ExecutionContext.mk "conv" "exec-0" "req-0" "")
    [Message.mk "user" (Some "first") None None None None 5]
    [Message.mk "assistant" (Some "answer") None None None None 4].

Definition with_history (ns : list Node.t) : world :=
  World (workflow (fresh ns)) [Event.AssistantRespond earlier] 0 [].

(** The state right after [initial_workflow] for the first request, with
    the one node taken from the queue. *)
Definition started : world :=
  let w := (initial_workflow AGENT_INPUT_TOPIC new_id now request_1
              [Sample.user] (fresh [responder])).2 in
  World (with_queue (workflow w) []) (event_store w) (created w)
    (invocations w).

Definition run (fuel : nat) (c : ExecutionContext.t) (w : world) : world :=
  (execute AGENT_INPUT_TOPIC new_id now fuel c [Sample.user] w).2.
Definition a_run (fuel : nat) (c : ExecutionContext.t) (w : world) : world :=
  (a_execute AGENT_INPUT_TOPIC new_id now fuel c [Sample.user] w).2.

(** The state after a complete run, with the node put in the queue once
    more. *)
Definition requeued : world :=
  let w := run 5 request_1 (fresh [responder]) in
  World (with_queue (workflow w) [responder]) (event_store w) (created w)
    (invocations w).

(** The state right after [initial_workflow] for the first request of a
    workflow with a streaming node and another reader of the entry topic,
    the state with the streaming node taken from the queue, and the input
    the streaming node gets there. *)
Definition streaming : world :=
  (initial_workflow AGENT_INPUT_TOPIC new_id now request_1 [Sample.user]
     (fresh [streamer; reviewer])).2.

Definition streaming_popped : world :=
  World (with_queue (workflow streaming) [reviewer]) (event_store streaming)
    (created streaming) (invocations streaming).

Definition streamer_input : list ConsumeFromTopicEvent.t :=
  match (get_node_input new_id now streamer streaming_popped).1 with
  | inr consumed => consumed
  | inl _ => []
  end.

Definition streamer_consumed : world :=
  (get_node_input new_id now streamer streaming_popped).2.

(** A node that reads a topic no node writes to and writes to the terminal
    topic: a workflow of this node alone has no entry topic. *)
Definition closer : Node.t :=
  Node.mk "closer" "LLMNode" [Node.TopicExpr review_topic]
    [agent_output_topic] false Node.OtherNode answers yields.

(** A node whose body raises, and the state in which its turn begins: the
    state right after [initial_workflow] for the first request, with the
    node taken from the queue. *)
Definition fails (store : EventStoreInMemory.t) (c : ExecutionContext.t)
    (input : list ConsumeFromTopicEvent.t) : result (list Message.t) :=
  raise (NodeExecutionError "faulty").

Definition faulty : Node.t :=
  Node.mk "faulty" "LLMNode" [Node.TopicExpr agent_input_topic]
    [agent_output_topic] false Node.OtherNode fails yields.

Definition faulty_started : world :=
  let w := (initial_workflow AGENT_INPUT_TOPIC new_id now request_1
              [Sample.user] (fresh [faulty])).2 in
  World (with_queue (workflow w) []) (event_store w) (created w)
    (invocations w).

Definition faulty_input : list ConsumeFromTopicEvent.t :=
  match (get_node_input new_id now faulty faulty_started).1 with
  | inr consumed => consumed
  | inl _ => []
  end.

(** Two LLM nodes that publish to the same topic, and a function-calling
    node that reads it. *)
Definition lookup_spec : FunctionSpec.t := FunctionSpec.mk "lookup" "" "{}".

Definition llm_a : Node.t :=
  Node.mk "llm_a" "LLMNode" [Node.TopicExpr agent_input_topic] [review_topic]
    false (Node.LLMNode []) answers yields.
Definition llm_b : Node.t :=
  Node.mk "llm_b" "LLMNode" [Node.TopicExpr agent_input_topic] [review_topic]
    false (Node.LLMNode []) answers yields.
Definition function_caller : Node.t :=
  Node.mk "function_caller" "LLMFunctionCallNode"
    [Node.TopicExpr review_topic] [agent_output_topic] false
    (Node.LLMFunctionCallNode lookup_spec) answers yields.

(** Two requests of the conversation, one after the other, on the same
    workflow. *)
Definition two_requests : list call :=
  [Call Sync 5 request_1 [Sample.user]; Call Sync 5 request_2 [Sample.user]].
End WorkflowSample.

(** * Properties *)

Close Scope string_scope.

(** ** Python containers *)

Section containers.
Context {A : Type}.

Lemma list_insert_at_middle (pre post : list A) (x : A) :
  list_insert_at (length pre) x (pre ++ post) = pre ++ x :: post.
Proof.
  unfold list_insert_at.
  by rewrite take_app_length, drop_app_length.
Qed.

Lemma filter_none (P : A → Prop) `{∀ x, Decision (P x)} (l : list A) :
  Forall (λ x, ¬ P x) l → filter P l = [].
Proof.
  induction 1 as [|x l Hx _ IH]; [done|].
  by rewrite filter_cons_False.
Qed.

End containers.

(** ** The re-interleaving pass of [get_command_input] *)

Section interleave.
Variable clock : nat → Z.
Variable d : gmap string Message.t.

Lemma results_length n cs :
  length (Interleaved.results clock d n cs).1.1 = length cs.
Proof.
  revert n; induction cs as [|c cs IH]; intros n; simpl; [done|].
  destruct (d !! ToolCall.id c).
  - specialize (IH n). destruct (Interleaved.results clock d n cs) as [[? ?] ?].
    simpl in *. by rewrite IH.
  - specialize (IH (S n)).
    destruct (Interleaved.results clock d (S n) cs) as [[? ?] ?].
    simpl in *. by rewrite IH.
Qed.

Lemma has_tool_calls_false m :
  Message.has_tool_calls m = false → Message.calls m = [].
Proof.
  unfold Message.has_tool_calls, Message.calls.
  by destruct (Message.tool_calls m) as [[|]|].
Qed.

(** The [for] loop puts the results right behind the calling message, each
    new one in front of the earlier ones. *)
Lemma foldl_insert_result cs pre m blk post n log :
  foldl (LLMNode.insert_result clock d (length pre))
        (pre ++ m :: blk ++ post, n, log) cs
  = let '(rs, n', ws) := Interleaved.results clock d n cs in
    (pre ++ m :: reverse rs ++ blk ++ post, n', log ++ ws).
Proof.
  revert blk n log; induction cs as [|c cs IH]; intros blk n log; simpl.
  { by rewrite app_nil_r. }
  assert (Hins : ∀ x, list_insert_at (length pre + 1) x
                        (pre ++ m :: blk ++ post)
                      = pre ++ m :: (x :: blk) ++ post).
  { intros x.
    replace (length pre + 1) with (length (pre ++ [m]))
      by (rewrite length_app; simpl; lia).
    replace (pre ++ m :: blk ++ post) with ((pre ++ [m]) ++ blk ++ post)
      by (by rewrite <- app_assoc).
    rewrite list_insert_at_middle. by rewrite <- app_assoc. }
  destruct (d !! ToolCall.id c) as [r|] eqn:Hd.
  - rewrite Hins, IH.
    destruct (Interleaved.results clock d n cs) as [[rs n'] ws]; simpl.
    by rewrite reverse_cons, <- !app_assoc.
  - rewrite Hins, IH.
    destruct (Interleaved.results clock d (S n) cs) as [[rs n'] ws]; simpl.
    by rewrite reverse_cons, <- !app_assoc.
Qed.

(** The [while] loop computes [Interleaved.expand], and as many iterations
    as there are messages left suffice. *)
Lemma interleave_expand rest fuel done n log :
  length rest ≤ fuel →
  LLMNode.interleave clock fuel d (length done) (done ++ rest, n, log)
  = let '(out, n', ws) := Interleaved.expand clock d n rest in
    ok (done ++ out, n', log ++ ws).
Proof.
  revert fuel done n log.
  induction rest as [|m ms IH]; intros fuel done n log Hfuel.
  - destruct fuel; simpl; rewrite !app_nil_r;
      (destruct (decide (length done < length done)); [lia|done]).
  - destruct fuel as [|fuel]; [simpl in Hfuel; lia|].
    simpl in Hfuel. cbn [LLMNode.interleave fst].
    destruct (decide (length done < length (done ++ m :: ms))) as [_|Hn].
    2:{ rewrite length_app in Hn. simpl in Hn. lia. }
    rewrite lookup_app_r, Nat.sub_diag by lia. cbn [lookup list_lookup].
    destruct (Message.has_tool_calls m) eqn:Hcalls.
    + pose proof (foldl_insert_result (Message.calls m) done m [] ms n log)
        as Hfold.
      cbn [app] in Hfold. rewrite Hfold. cbn [Interleaved.expand].
      pose proof (results_length n (Message.calls m)) as Hlen.
      destruct (Interleaved.results clock d n (Message.calls m))
        as [[rs n'] ws].
      cbn [fst] in Hlen.
      specialize (IH fuel (done ++ m :: reverse rs) n' (log ++ ws)).
      rewrite length_app in IH. cbn [length] in IH.
      rewrite length_reverse, Hlen in IH.
      replace (length done + length (Message.calls m) + 1)
        with (length done + S (length (Message.calls m))) by lia.
      replace (done ++ m :: reverse rs ++ ms) with ((done ++ m :: reverse rs) ++ ms)
        by (rewrite <- app_assoc; done).
      rewrite IH by lia.
      destruct (Interleaved.expand clock d n' ms) as [[out n''] ws'].
      by rewrite <- !app_assoc.
    + cbn [Interleaved.expand].
      rewrite (has_tool_calls_false m Hcalls). cbn [Interleaved.results].
      specialize (IH fuel (done ++ [m]) n log).
      rewrite length_app in IH. cbn [length] in IH.
      replace (done ++ m :: ms) with ((done ++ [m]) ++ ms)
        by (rewrite <- app_assoc; done).
      rewrite IH by lia.
      destruct (Interleaved.expand clock d n ms) as [[out n''] ws'].
      rewrite reverse_nil; cbn [app]. by rewrite <- !app_assoc.
Qed.

End interleave.

Section interleaved.
Variable clock : nat → Z.
Variable d : gmap string Message.t.

(** The dictionary of step 1 files every message under its own id. *)
Hypothesis d_keys :
  ∀ t m, d !! t = Some m → Message.tool_call_id m = Some t.

Lemma is_result_of_mono ws ws' c r :
  ws ⊆ ws' →
  Interleaved.is_result_of clock d ws c r →
  Interleaved.is_result_of clock d ws' c r.
Proof.
  unfold Interleaved.is_result_of. intros Hsub.
  destruct (d !! ToolCall.id c); [done|].
  intros [Hn Hw]; split; [done|]. by apply Hsub.
Qed.

Lemma is_result_of_id ws c r :
  Interleaved.is_result_of clock d ws c r →
  Message.tool_call_id r = Some (ToolCall.id c).
Proof.
  unfold Interleaved.is_result_of.
  destruct (d !! ToolCall.id c) as [m|] eqn:Hd.
  - intros ->. by apply d_keys.
  - by intros [[n ->] _].
Qed.

Lemma results_spec n cs :
  Forall2 (Interleaved.is_result_of clock d
             (Interleaved.results clock d n cs).2)
          cs (Interleaved.results clock d n cs).1.1.
Proof.
  revert n; induction cs as [|c cs IH]; intros n; simpl; [constructor|].
  destruct (d !! ToolCall.id c) as [m|] eqn:Hd.
  - specialize (IH n).
    destruct (Interleaved.results clock d n cs) as [[rs n'] ws]. simpl in *.
    constructor; [|done]. unfold Interleaved.is_result_of. by rewrite Hd.
  - specialize (IH (S n)).
    destruct (Interleaved.results clock d (S n) cs) as [[rs n'] ws].
    simpl in *. constructor.
    + unfold Interleaved.is_result_of. rewrite Hd. split; [eauto|set_solver].
    + eapply Forall2_impl; [exact IH|]. intros c' r' Hr.
      eapply is_result_of_mono; [|exact Hr]. set_solver.
Qed.

(** A message without [tool_call_id] in the expanded list is one of the
    original messages, and the results of its calls follow it, last call
    first. *)
Lemma expand_lookup msgs n i m :
  Forall (λ m, Message.tool_call_id m = None) msgs →
  (Interleaved.expand clock d n msgs).1.1 !! i = Some m →
  Message.tool_call_id m = None →
  ∃ pre rs post,
    (Interleaved.expand clock d n msgs).1.1 = pre ++ m :: reverse rs ++ post
    ∧ length pre = i
    ∧ m ∈ msgs
    ∧ Forall2 (Interleaved.is_result_of clock d
                 (Interleaved.expand clock d n msgs).2)
              (Message.calls m) rs.
Proof.
  intros Hmsgs; revert n i.
  induction Hmsgs as [|m0 ms Hm0 Hms IH]; intros n i; simpl; [done|].
  pose proof (results_spec n (Message.calls m0)) as Hrs.
  destruct (Interleaved.results clock d n (Message.calls m0))
    as [[rs n'] ws] eqn:Hres.
  specialize (IH n').
  destruct (Interleaved.expand clock d n' ms) as [[out n''] ws'] eqn:Hexp.
  simpl in *. intros Hi Hm.
  destruct i as [|i]; simpl in Hi.
  { inversion Hi; subst m0. exists [], rs, out. repeat split; [set_solver|].
    eapply Forall2_impl; [exact Hrs|]. intros c r Hr.
    eapply is_result_of_mono; [|exact Hr]. set_solver. }
  destruct (decide (i < length (reverse rs))) as [Hlt|Hge].
  - rewrite lookup_app_l in Hi by done.
    apply list_elem_of_lookup_2 in Hi. rewrite elem_of_reverse in Hi.
    apply list_elem_of_lookup in Hi as [k Hk].
    destruct (Forall2_lookup_r _ _ _ _ _ Hrs Hk) as (c & _ & Hc).
    apply is_result_of_id in Hc. congruence.
  - rewrite lookup_app_r in Hi by lia.
    destruct (IH _ Hi Hm) as (pre & rs' & post & -> & Hpre & Hin & Hall).
    exists (m0 :: reverse rs ++ pre), rs', post. repeat split.
    + simpl. by rewrite app_assoc.
    + simpl. rewrite length_app. lia.
    + set_solver.
    + eapply Forall2_impl; [exact Hall|]. intros c r Hr.
      eapply is_result_of_mono; [|exact Hr]. set_solver.
Qed.

(** A message with a [tool_call_id] in the expanded list is the result of a
    call of one of the original messages. *)
Lemma expand_result msgs n r :
  Forall (λ m, Message.tool_call_id m = None) msgs →
  r ∈ (Interleaved.expand clock d n msgs).1.1 →
  is_Some (Message.tool_call_id r) →
  ∃ m c, m ∈ msgs ∧ c ∈ Message.calls m
         ∧ Interleaved.is_result_of clock d
             (Interleaved.expand clock d n msgs).2 c r.
Proof.
  intros Hmsgs; revert n.
  induction Hmsgs as [|m0 ms Hm0 Hms IH]; intros n; simpl.
  { intros Hin. by apply elem_of_nil in Hin. }
  pose proof (results_spec n (Message.calls m0)) as Hrs.
  destruct (Interleaved.results clock d n (Message.calls m0))
    as [[rs n'] ws] eqn:Hres.
  specialize (IH n').
  destruct (Interleaved.expand clock d n' ms) as [[out n''] ws'] eqn:Hexp.
  simpl in *. intros Hin Hid.
  apply elem_of_cons in Hin as [->|Hin].
  { rewrite Hm0 in Hid. by destruct Hid. }
  apply elem_of_app in Hin as [Hin|Hin].
  - rewrite elem_of_reverse in Hin. apply list_elem_of_lookup in Hin as [k Hk].
    destruct (Forall2_lookup_r _ _ _ _ _ Hrs Hk) as (c & Hc & Hr).
    exists m0, c. repeat split; [set_solver|by eapply list_elem_of_lookup_2|].
    eapply is_result_of_mono; [|exact Hr]. set_solver.
  - destruct (IH Hin Hid) as (m & c & ? & ? & Hr).
    exists m, c. repeat split; [set_solver|done|].
    eapply is_result_of_mono; [|exact Hr]. set_solver.
Qed.

(** Dropping the results again gives back the original messages. *)
Lemma expand_without_results msgs n :
  Forall (λ m, Message.tool_call_id m = None) msgs →
  LLMNode.without_tool_call_id (Interleaved.expand clock d n msgs).1.1 = msgs.
Proof.
  intros Hmsgs; revert n.
  induction Hmsgs as [|m0 ms Hm0 Hms IH]; intros n; simpl; [done|].
  pose proof (results_spec n (Message.calls m0)) as Hrs.
  destruct (Interleaved.results clock d n (Message.calls m0))
    as [[rs n'] ws] eqn:Hres.
  specialize (IH n').
  destruct (Interleaved.expand clock d n' ms) as [[out n''] ws'] eqn:Hexp.
  simpl in *. unfold LLMNode.without_tool_call_id in *.
  rewrite filter_cons_True by done. f_equal.
  rewrite filter_app, IH.
  replace (filter _ (reverse rs)) with (@nil Message.t); [done|].
  symmetry. apply filter_none, Forall_forall. intros r Hr.
  rewrite elem_of_reverse in Hr. apply list_elem_of_lookup in Hr as [k Hk].
  destruct (Forall2_lookup_r _ _ _ _ _ Hrs Hk) as (c & _ & Hc).
  apply is_result_of_id in Hc. congruence.
Qed.

End interleaved.

(** ** [get_command_input] *)

Section get_command_input.
Variable clock : nat → Z.

Lemma same_but_tools_refl m : Message.same_but_tools m m.
Proof. by destruct m. Qed.

Lemma same_but_tools_set ts m : Message.same_but_tools m (Message.set_tools ts m).
Proof. by destruct m. Qed.

Lemma same_but_tools_tool_call_id m m' :
  Message.same_but_tools m m' →
  Message.tool_call_id m' = Message.tool_call_id m.
Proof. by intros ->. Qed.

Lemma same_but_tools_calls m m' :
  Message.same_but_tools m m' → Message.calls m' = Message.calls m.
Proof. by intros ->. Qed.

(** Step 1 keeps, for every id, the last message that carries it. *)
Lemma tool_call_messages_lookup msgs t :
  LLMNode.tool_call_messages msgs !! t
  = last (filter (λ m, Message.tool_call_id m = Some t) msgs).
Proof.
  unfold LLMNode.tool_call_messages.
  assert (Hgen : ∀ d0 : gmap string Message.t,
    foldl (λ d msg, match Message.tool_call_id msg with
                    | Some i => <[i:=msg]> d
                    | None => d
                    end) d0 msgs !! t
    = match last (filter (λ m, Message.tool_call_id m = Some t) msgs) with
      | Some m => Some m
      | None => d0 !! t
      end).
  { induction msgs as [|m msgs IH]; intros d0; simpl; [done|].
    rewrite IH. destruct (decide (Message.tool_call_id m = Some t)) as [Ht|Ht].
    - rewrite filter_cons_True by done. rewrite Ht, last_cons.
      destruct (last _); [done|]. by rewrite lookup_insert_eq.
    - rewrite filter_cons_False by done.
      destruct (last _); [done|].
      destruct (Message.tool_call_id m) as [i|]; [|done].
      rewrite lookup_insert_ne; [done|congruence]. }
  rewrite Hgen. by destruct (last _).
Qed.

Lemma tool_call_messages_keys msgs t m :
  LLMNode.tool_call_messages msgs !! t = Some m →
  Message.tool_call_id m = Some t.
Proof.
  rewrite tool_call_messages_lookup. intros Hlast.
  assert (Hin : m ∈ filter (λ m, Message.tool_call_id m = Some t) msgs).
  { rewrite last_lookup in Hlast. by eapply list_elem_of_lookup_2. }
  by apply list_elem_of_filter in Hin as [? _].
Qed.

Lemma without_tool_call_id_Forall msgs :
  Forall (λ m, Message.tool_call_id m = None)
         (LLMNode.without_tool_call_id msgs).
Proof.
  apply Forall_forall. intros m Hm.
  by apply list_elem_of_filter in Hm as [? _].
Qed.

(** Attaching the function specs touches the [tools] of the last message
    only. *)
Lemma attach_function_specs_same specs msgs :
  Forall2 Message.same_but_tools msgs
          (LLMNode.attach_function_specs specs msgs).
Proof.
  assert (Hrefl : Forall2 Message.same_but_tools msgs msgs).
  { apply Forall2_same_length_lookup; split; [done|].
    intros i m m' H1 H2. rewrite H1 in H2. inversion H2.
    apply same_but_tools_refl. }
  unfold LLMNode.attach_function_specs.
  destruct specs as [|s specs]; [done|]. destruct msgs as [|m msgs]; [done|].
  apply Forall2_same_length_lookup; split; [by rewrite length_alter|].
  intros i x y Hx Hy.
  destruct (decide (i = length (m :: msgs) - 1)) as [->|Hne].
  - rewrite list_lookup_alter_eq, Hx in Hy. inversion Hy.
    apply same_but_tools_set.
  - rewrite list_lookup_alter_ne, Hx in Hy by done. inversion Hy.
    apply same_but_tools_refl.
Qed.

(** [get_command_input] returns whenever the events carry messages; its
    result is the expansion of the messages without [tool_call_id], with
    the function specs attached. *)
Lemma get_command_input_expand self store ctx node_input msgs :
  LLMNode.flattened_messages store ctx node_input = inr msgs →
  LLMNode.get_command_input clock self store ctx node_input
  = let e := Interleaved.expand clock (LLMNode.tool_call_messages msgs) 0
               (LLMNode.without_tool_call_id msgs) in
    inr (LLMNode.attach_function_specs (LLMNode.function_specs self) e.1.1,
         e.2).
Proof.
  intros Hflat. unfold LLMNode.get_command_input. rewrite Hflat.
  cbn [mbind result_bind].
  pose proof (interleave_expand clock (LLMNode.tool_call_messages msgs)
                (LLMNode.without_tool_call_id msgs)
                (length (LLMNode.without_tool_call_id msgs)) [] 0 [])
    as Hloop.
  cbn [app length] in Hloop. rewrite Hloop by done.
  by destruct (Interleaved.expand _ _ _ _) as [[out n] ws].
Qed.

End get_command_input.

Section tool_results.
Variable clock : nat → Z.

Lemma Forall2_filter {A} (R : A → A → Prop) (P : A → Prop)
    `{∀ x, Decision (P x)} (l k : list A) :
  (∀ x y, R x y → P x ↔ P y) →
  Forall2 R l k → Forall2 R (filter P l) (filter P k).
Proof.
  intros HP. induction 1 as [|x y l k Hxy _ IH]; [constructor|].
  destruct (decide (P x)) as [Hx|Hx].
  - rewrite !filter_cons_True by (done || by apply (HP x y)).
    by constructor.
  - rewrite !filter_cons_False; [done| |done].
    intros Hy. by apply Hx, (HP x y).
Qed.


End tool_results.



Section tool_result_fate.
Variable clock : nat → Z.

(** The messages without a [tool_call_id] come back as they went in, in
    the same order, up to the tools attached to the last message. *)
Lemma get_command_input_keeps_other_messages self store ctx node_input msgs
    out log :
  LLMNode.flattened_messages store ctx node_input = inr msgs →
  LLMNode.get_command_input clock self store ctx node_input = inr (out, log) →
  Forall2 Message.same_but_tools
    (LLMNode.without_tool_call_id msgs) (LLMNode.without_tool_call_id out).
Proof.
  intros Hflat. rewrite (get_command_input_expand clock _ _ _ _ _ Hflat).
  set (d := LLMNode.tool_call_messages msgs).
  set (e := Interleaved.expand clock d 0 (LLMNode.without_tool_call_id msgs)).
  cbn zeta. intros [= <- <-].
  pose proof (attach_function_specs_same (LLMNode.function_specs self) e.1.1)
    as Hsame.
  rewrite <- (expand_without_results clock d (tool_call_messages_keys msgs)
                (LLMNode.without_tool_call_id msgs) 0
                (without_tool_call_id_Forall msgs)) at 1.
  fold e. apply Forall2_filter; [|done].
  intros x y Hxy. by rewrite (same_but_tools_tool_call_id _ _ Hxy).
Qed.

(** C9.  [get_command_input] takes every message with a [tool_call_id] out
    of the flattened input: without such messages, what it returns is the
    flattened input without them, in the same order.  A message with
    [tool_call_id = t] is in the returned list only if some message without
    [tool_call_id] lists a call with id [t]; so when no such message
    references [t], no message with that id is returned.  And whenever
    the input has messages with id [t], a returned message with id [t] is
    the last of them. *)
Theorem get_command_input_tool_results self store ctx node_input msgs out log :
  LLMNode.flattened_messages store ctx node_input = inr msgs →
  LLMNode.get_command_input clock self store ctx node_input = inr (out, log) →
  Forall2 Message.same_but_tools
    (LLMNode.without_tool_call_id msgs) (LLMNode.without_tool_call_id out)
  ∧ (∀ r t, r ∈ out → Message.tool_call_id r = Some t →
       ∃ m c, m ∈ msgs ∧ Message.tool_call_id m = None
              ∧ c ∈ Message.calls m ∧ ToolCall.id c = t)
  ∧ (∀ t, (∀ m c, m ∈ msgs → Message.tool_call_id m = None →
                  c ∈ Message.calls m → ToolCall.id c ≠ t) →
          ∀ r, r ∈ out → Message.tool_call_id r ≠ Some t)
  ∧ (∀ r t stored, r ∈ out → Message.tool_call_id r = Some t →
       last (filter (λ m, Message.tool_call_id m = Some t) msgs) = Some stored →
       Message.same_but_tools stored r).
Proof.
  intros Hflat. rewrite (get_command_input_expand clock _ _ _ _ _ Hflat).
  set (d := LLMNode.tool_call_messages msgs).
  set (e := Interleaved.expand clock d 0 (LLMNode.without_tool_call_id msgs)).
  cbn zeta. intros [= <- <-].
  pose proof (attach_function_specs_same (LLMNode.function_specs self) e.1.1)
    as Hsame.
  assert (Hres : ∀ r t,
    r ∈ LLMNode.attach_function_specs (LLMNode.function_specs self) e.1.1 →
    Message.tool_call_id r = Some t →
    ∃ r0 m c, Message.same_but_tools r0 r ∧ m ∈ msgs
              ∧ Message.tool_call_id m = None ∧ c ∈ Message.calls m
              ∧ ToolCall.id c = t ∧ Interleaved.is_result_of clock d e.2 c r0).
  { intros r t Hr Ht. apply list_elem_of_lookup in Hr as [i Hi].
    destruct (Forall2_lookup_r _ _ _ _ _ Hsame Hi) as (r0 & Hi0 & Hr0).
    rewrite (same_but_tools_tool_call_id _ _ Hr0) in Ht.
    destruct (expand_result clock d (tool_call_messages_keys msgs) _ 0 r0
                (without_tool_call_id_Forall msgs))
      as (m & c & Hm & Hc & Hof);
      [by eapply list_elem_of_lookup_2|by rewrite Ht|].
    apply list_elem_of_filter in Hm as [Hmid Hm].
    exists r0, m, c. repeat split; try done.
    apply (is_result_of_id clock d (tool_call_messages_keys msgs)) in Hof.
    congruence. }
  split; [|split; [|split]].
  - rewrite <- (expand_without_results clock d (tool_call_messages_keys msgs)
                  (LLMNode.without_tool_call_id msgs) 0
                  (without_tool_call_id_Forall msgs)) at 1.
    fold e. apply Forall2_filter; [|done].
    intros x y Hxy. by rewrite (same_but_tools_tool_call_id _ _ Hxy).
  - intros r t Hr Ht.
    destruct (Hres r t Hr Ht) as (r0 & m & c & _ & ? & ? & ? & ? & _).
    by exists m, c.
  - intros t Hnone r Hr Ht.
    destruct (Hres r t Hr Ht) as (r0 & m & c & _ & ? & ? & ? & ? & _).
    by apply (Hnone m c).
  - intros r t stored Hr Ht Hlast.
    destruct (Hres r t Hr Ht) as (r0 & m & c & Hr0 & _ & _ & _ & Hc & Hof).
    unfold Interleaved.is_result_of in Hof. unfold d in Hof.
    rewrite Hc, tool_call_messages_lookup, Hlast in Hof. by subst r0.
Qed.

End tool_result_fate.

(** One consumed event in which [result_b] is referenced by no call, and
    [result_a] comes twice. *)
Lemma get_command_input_tool_results_witness :
  let msgs := [Sample.result_b; Sample.result_a; Sample.user;
               Message.mk "assistant" None None None (Some [Sample.call_a])
                 None 2;
               Message.mk "tool" (Some "A again") None (Some "a") None None 6]
  in
  let node_input := [Sample.consume "c1" "t" 0 (Data.Many msgs)] in
  let out := [Sample.user;
              Message.mk "assistant" None None None (Some [Sample.call_a])
                None 2;
              Message.mk "tool" (Some "A again") None (Some "a") None None 6]
  in
  LLMNode.flattened_messages [] Sample.ctx node_input = inr msgs
  ∧ LLMNode.get_command_input Sample.clock Sample.llm [] Sample.ctx node_input
    = inr (out, [])
  ∧ (∀ r, r ∈ out → Message.tool_call_id r ≠ Some "b"%string).
Proof.
  intros msgs node_input out.
  assert (H1 : LLMNode.flattened_messages [] Sample.ctx node_input = inr msgs)
    by (vm_compute; reflexivity).
  assert (H2 : LLMNode.get_command_input Sample.clock Sample.llm [] Sample.ctx
                 node_input = inr (out, []))
    by (vm_compute; reflexivity).
  split; [exact H1|]. split; [exact H2|].
  destruct (get_command_input_tool_results Sample.clock Sample.llm []
              Sample.ctx node_input msgs out [] H1 H2) as (_ & _ & Hdrop & _).
  apply (Hdrop "b"%string).
  intros m c Hm Hid Hc.
  assert (Hcase : m = Sample.user ∨ m = Message.mk "assistant" None None None
                                          (Some [Sample.call_a]) None 2).
  { unfold msgs in Hm. set_solver. }
  destruct Hcase as [-> | ->].
  - by apply elem_of_nil in Hc.
  - apply list_elem_of_singleton in Hc. by subst c.
Defined.

(** ** The event graph *)

Section event_graph.
Import EventGraph.

Lemma least_offset_elem l n : least_offset l = Some n → n ∈ l.
Proof.
  revert n; induction l as [|x l IH]; intros n; simpl; [done|].
  destruct (least_offset l) as [m|].
  - destruct (offset m <? offset x)%nat; intros [= <-].
    + right. by apply IH.
    + left.
  - intros [= <-]. left.
Qed.

Lemma least_offset_le l n m :
  least_offset l = Some n → m ∈ l → offset n ≤ offset m.
Proof.
  revert n; induction l as [|x l IH]; intros n; simpl; [done|].
  intros Hn Hm. destruct (least_offset l) as [k|] eqn:Hk.
  - destruct (offset k <? offset x)%nat eqn:Hlt; inversion Hn; subst n.
    + apply Nat.ltb_lt in Hlt.
      apply elem_of_cons in Hm as [->|Hm]; [lia|by apply IH].
    + apply Nat.ltb_ge in Hlt.
      apply elem_of_cons in Hm as [->|Hm]; [lia|].
      specialize (IH k eq_refl Hm). lia.
  - inversion Hn; subst n. destruct l as [|y l]; [|simpl in Hk].
    + apply list_elem_of_singleton in Hm. subst m. lia.
    + by destruct (least_offset l) as [?|];
        [destruct (offset _ <? offset y)%nat|].
Qed.

Lemma ready_elem em n a :
  ready em n = true → a ∈ upstream_events n → a ∈ event_id <$> em.
Proof.
  unfold ready. rewrite forallb_forall. intros Hall Ha.
  apply list_elem_of_In in Ha. apply Hall in Ha. by apply bool_decide_eq_true in Ha.
Qed.

Lemma ready_same_upstream em n n' :
  upstream_events n = upstream_events n' → ready em n = ready em n'.
Proof. unfold ready. by intros ->. Qed.

(** What [emit] adds comes from the remaining nodes. *)
Lemma emit_prefix fuel rem em :
  ∃ tl, emit fuel rem em = em ++ tl ∧ tl ⊆ rem.
Proof.
  revert rem em; induction fuel as [|fuel IH]; intros rem em; simpl.
  { exists []. split; [by rewrite app_nil_r|apply list_subseteq_nil]. }
  destruct (least_offset _) as [n|] eqn:Hn.
  2:{ exists []. split; [by rewrite app_nil_r|apply list_subseteq_nil]. }
  destruct (IH (filter (λ m, event_id m ≠ event_id n) rem) (em ++ [n]))
    as (tl & -> & Htl).
  exists (n :: tl). split; [by rewrite <- app_assoc|].
  apply least_offset_elem, list_elem_of_filter in Hn as [_ Hn].
  intros x Hx. apply elem_of_cons in Hx as [->|Hx]; [done|].
  apply Htl, list_elem_of_filter in Hx as [_ Hx]. done.
Qed.

Lemma emit_topological fuel rem em :
  topological em → topological (emit fuel rem em).
Proof.
  revert rem em; induction fuel as [|fuel IH]; intros rem em Hem; simpl;
    [done|].
  destruct (least_offset _) as [n|] eqn:Hn; [|done].
  apply IH. intros j x a Hj Ha.
  apply least_offset_elem, list_elem_of_filter in Hn as [Hready _].
  destruct (decide (j < length em)) as [Hlt|Hge].
  - rewrite lookup_app_l in Hj by done.
    destruct (Hem j x a Hj Ha) as (i & Hi & Hia).
    exists i. split; [done|]. by rewrite lookup_app_l by lia.
  - rewrite lookup_app_r in Hj by lia.
    destruct (j - length em) as [|k] eqn:Hk; [|by destruct k].
    inversion Hj; subst x.
    pose proof (ready_elem _ _ _ Hready Ha) as Hin.
    apply list_elem_of_lookup in Hin as [i Hi].
    pose proof (lookup_lt_Some _ _ _ Hi) as Hlen.
    rewrite length_fmap in Hlen. rewrite list_lookup_fmap in Hi.
    exists i. split; [lia|]. by rewrite lookup_app_l by lia.
Qed.

Lemma emit_NoDup fuel rem em :
  NoDup (event_id <$> em) →
  (∀ x y, x ∈ em → y ∈ rem → event_id x ≠ event_id y) →
  NoDup (event_id <$> emit fuel rem em).
Proof.
  revert rem em; induction fuel as [|fuel IH]; intros rem em Hnd Hdisj; simpl;
    [done|].
  destruct (least_offset _) as [n|] eqn:Hn; [|done].
  apply least_offset_elem, list_elem_of_filter in Hn as [_ Hn].
  apply IH.
  - rewrite fmap_app. apply NoDup_app. split; [done|]. split.
    + intros a Ha Hn'. apply list_elem_of_singleton in Hn'. subst a.
      apply list_elem_of_fmap in Ha as (x & Hx & Hin).
      by apply (Hdisj x n Hin Hn).
    + apply NoDup_singleton.
  - intros x y Hx Hy. apply list_elem_of_filter in Hy as [Hne Hy].
    apply elem_of_app in Hx as [Hx|Hx]; [by apply Hdisj|].
    apply list_elem_of_singleton in Hx. subst x. congruence.
Qed.

(** Among the nodes that are ready, the one of least offset goes first. *)
Lemma emit_least fuel rem em j i nB nA :
  length em ≤ j → j < i →
  emit fuel rem em !! j = Some nB →
  emit fuel rem em !! i = Some nA →
  ready (take j (emit fuel rem em)) nA = true →
  offset nB ≤ offset nA.
Proof.
  revert rem em; induction fuel as [|fuel IH]; intros rem em Hj Hji; simpl.
  { intros Hnone. apply lookup_lt_Some in Hnone. lia. }
  destruct (least_offset _) as [n|] eqn:Hn.
  2:{ intros Hnone. apply lookup_lt_Some in Hnone. lia. }
  destruct (decide (j = length em)) as [->|Hne].
  - destruct (emit_prefix fuel (filter (λ m, event_id m ≠ event_id n) rem)
                (em ++ [n])) as (tl & -> & Htl).
    rewrite <- !app_assoc. cbn [app].
    rewrite take_app_length.
    rewrite lookup_app_r, Nat.sub_diag by lia. intros [= <-].
    rewrite lookup_app_r by lia.
    destruct (i - length em) as [|k] eqn:Hk; [lia|]. cbn [lookup list_lookup].
    intros Hk' Hready. apply list_elem_of_lookup_2, Htl in Hk'.
    apply list_elem_of_filter in Hk' as [_ HnA].
    eapply least_offset_le; [exact Hn|].
    apply list_elem_of_filter. by split.
  - apply IH; [rewrite length_app; simpl; lia|done].
Qed.

Lemma visit_faithful pool fuel g e :
  faithful pool g → faithful pool (visit fuel pool g e).
Proof.
  revert g e; induction fuel as [|fuel IH]; intros g e Hg; simpl; [done|].
  destruct (contains g (Event.event_id e)); [done|].
  assert (Hfold : ∀ ps g', faithful pool g' →
                    faithful pool (foldl (visit fuel pool) g' ps)).
  { induction ps as [|p ps IHps]; intros g' Hg'; simpl; [done|].
    by apply IHps, IH. }
  apply Hfold. intros n Hn.
  apply elem_of_app in Hn as [Hn|Hn]; [by apply Hg|].
  apply list_elem_of_singleton in Hn. by subst n.
Qed.

Lemma build_graph_faithful node_input pool :
  faithful pool (build_graph node_input pool).
Proof.
  unfold build_graph.
  assert (Hfold : ∀ es g, faithful pool g →
    faithful pool
      (foldl (visit (S (length pool + length node_input)) pool) g es)).
  { induction es as [|e es IH]; intros g Hg; [done|].
    by apply IH, visit_faithful. }
  apply Hfold. intros n Hn. by apply elem_of_nil in Hn.
Qed.

Lemma sorted_subseteq g : get_topology_sorted_events g ⊆ g.
Proof.
  unfold get_topology_sorted_events.
  by destruct (emit_prefix (length g) g []) as (tl & -> & Htl).
Qed.

Lemma sorted_topological g : topological (get_topology_sorted_events g).
Proof. apply emit_topological. by intros j n a Hj. Qed.

Lemma sorted_NoDup g : NoDup (event_id <$> get_topology_sorted_events g).
Proof.
  apply emit_NoDup; [constructor|].
  intros x y Hx. by apply elem_of_nil in Hx.
Qed.

(** In the ordered list an event stands behind the events it consumed,
    directly or through other events of the list. *)
Lemma sorted_events_causal pool node_input i j A B :
  let evs := event <$> get_topology_sorted_events
                         (build_graph node_input pool) in
  evs !! i = Some A → evs !! j = Some B →
  tc (λ a b, a ∈ evs ∧ b ∈ evs ∧ consumed pool b a) A B →
  i < j.
Proof.
  intros evs HA HB Htc. revert i j HA HB.
  set (ns := get_topology_sorted_events (build_graph node_input pool)) in *.
  assert (Hbase : ∀ a b i j, evs !! i = Some a → evs !! j = Some b →
                    consumed pool b a → i < j).
  { intros a b i j Hi Hj Hcons. unfold evs in Hi, Hj.
    rewrite list_lookup_fmap in Hi, Hj.
    destruct (ns !! i) as [nA|] eqn:HnA; [|done].
    destruct (ns !! j) as [nB|] eqn:HnB; [|done].
    simpl in Hi, Hj. inversion Hi; inversion Hj; subst a b.
    assert (Hup : event_id nA ∈ upstream_events nB).
    { rewrite (build_graph_faithful node_input pool nB).
      - apply list_elem_of_fmap. by exists (event nA).
      - eapply sorted_subseteq, list_elem_of_lookup_2, HnB. }
    destruct (sorted_topological _ j nB _ HnB Hup) as (i' & Hlt & Hi').
    fold ns in Hi'.
    assert (Hi'' : (event_id <$> ns) !! i = Some (event_id nA))
      by (by rewrite list_lookup_fmap, HnA).
    rewrite <- list_lookup_fmap in Hi'.
    by rewrite (NoDup_lookup _ _ _ _ (sorted_NoDup _) Hi'' Hi'). }
  induction Htc as [a b (_ & _ & Hcons)|a x b (_ & Hx & Hcons) _ IH];
    intros i j HA HB.
  - by eapply Hbase.
  - apply list_elem_of_lookup in Hx as [k Hk].
    specialize (Hbase _ _ _ _ HA Hk Hcons). specialize (IH _ _ Hk HB). lia.
Qed.

(** The tie-break among ready events: when an event stands later in the
    ordered list although all the events it consumed stand before the
    earlier one, its offset is not smaller than that of the earlier one. *)
Lemma sorted_events_least pool node_input i j A B :
  let evs := event <$> get_topology_sorted_events
                         (build_graph node_input pool) in
  j < i → evs !! j = Some B → evs !! i = Some A →
  (∀ P, consumed pool A P → P ∈ take j evs) →
  event_offset B ≤ event_offset A.
Proof.
  intros evs Hji HB HA Hready. unfold evs in HA, HB.
  set (g := build_graph node_input pool) in *.
  rewrite list_lookup_fmap in HA, HB.
  destruct (get_topology_sorted_events g !! i) as [nA|] eqn:HnA; [|done].
  destruct (get_topology_sorted_events g !! j) as [nB|] eqn:HnB; [|done].
  simpl in HA, HB. inversion HA; inversion HB; subst A B.
  apply (emit_least (length g) g [] j i nB nA); [simpl; lia|done..|].
  fold (get_topology_sorted_events g).
  unfold ready. apply forallb_forall. intros a Ha.
  apply bool_decide_eq_true. apply list_elem_of_In in Ha.
  rewrite (build_graph_faithful node_input pool nA) in Ha
    by (eapply sorted_subseteq, list_elem_of_lookup_2, HnA).
  apply list_elem_of_fmap in Ha as (P & -> & HP).
  specialize (Hready P HP). unfold evs in Hready. rewrite <- fmap_take in Hready.
  apply list_elem_of_fmap in Hready as (nP & -> & HnP).
  apply list_elem_of_fmap. by exists nP.
Qed.

End event_graph.

(** ** Causal order of the command input *)

Section causal_order.

Lemma traverse_inr {A B} (f : A → result B) l r :
  traverse f l = inr r → Forall2 (λ a b, f a = inr b) l r.
Proof.
  revert r; induction l as [|a l IH]; intros r; simpl.
  { intros [= <-]. constructor. }
  destruct (f a) as [e|b] eqn:Hfa; [done|]. simpl.
  destruct (traverse f l) as [e|bs]; [done|]. simpl.
  intros [= <-]. constructor; [done|by apply IH].
Qed.

Lemma flattened_messages_inr store ctx node_input msgs :
  LLMNode.flattened_messages store ctx node_input = inr msgs →
  ∃ mss, Forall2 (λ e l, LLMNode.event_messages e = inr l)
           (LLMNode.node_input_events store ctx node_input) mss
         ∧ msgs = concat mss.
Proof.
  unfold LLMNode.flattened_messages.
  destruct (traverse _ _) as [e|mss] eqn:Htr; [done|].
  intros [= <-]. exists mss. split; [by apply traverse_inr|done].
Qed.

Lemma get_command_input_inr clock self store ctx node_input out log :
  LLMNode.get_command_input clock self store ctx node_input = inr (out, log) →
  ∃ msgs, LLMNode.flattened_messages store ctx node_input = inr msgs.
Proof.
  unfold LLMNode.get_command_input.
  destruct (LLMNode.flattened_messages _ _ _) as [e|msgs]; [done|].
  by exists msgs.
Qed.

(** Messages of an earlier list come first in the concatenation. *)
Lemma concat_sublist_pair {A} (ls : list (list A)) i j la lb a b :
  i < j → ls !! i = Some la → ls !! j = Some lb → a ∈ la → b ∈ lb →
  [a; b] `sublist_of` concat ls.
Proof.
  intros Hij Hi Hj Ha Hb.
  rewrite <- (take_drop_middle ls i la Hi), concat_app. cbn [concat].
  apply sublist_inserts_l.
  apply (sublist_app [a] la [b]); [by apply singleton_sublist_l|].
  assert (Hj' : drop (S i) ls !! (j - S i) = Some lb).
  { rewrite lookup_drop. by replace (S i + (j - S i)) with j by lia. }
  apply list_elem_of_lookup_2 in Hj'.
  apply list_elem_of_split in Hj' as (l1 & l2 & ->).
  rewrite concat_app. cbn [concat].
  apply sublist_inserts_l, sublist_inserts_r. by apply singleton_sublist_l.
Qed.

Lemma sublist_Forall2 {A} (R : A → A → Prop) (l1 l k : list A) :
  l1 `sublist_of` l → Forall2 R l k →
  ∃ k1, k1 `sublist_of` k ∧ Forall2 R l1 k1.
Proof.
  intros Hsub; revert k.
  induction Hsub as [|x l1 l Hsub IH|x l1 l Hsub IH]; intros k Hk.
  - exists []. split; [apply sublist_nil_l|constructor].
  - inversion Hk as [|? y ? k' Hxy Hk']; subst.
    destruct (IH _ Hk') as (k1 & ? & ?).
    exists (y :: k1). split; by constructor.
  - inversion Hk as [|? y ? k' Hxy Hk']; subst.
    destruct (IH _ Hk') as (k1 & ? & ?).
    exists k1. split; [by constructor|done].
Qed.

Lemma sublist_filter_mono {A} (P : A → Prop) `{∀ x, Decision (P x)}
    (l1 l2 : list A) :
  l1 `sublist_of` l2 → filter P l1 `sublist_of` filter P l2.
Proof.
  induction 1 as [|x l1 l2 _ IH|x l1 l2 _ IH]; [constructor|..].
  - destruct (decide (P x)).
    + rewrite !filter_cons_True by done. by constructor.
    + by rewrite !filter_cons_False by done.
  - destruct (decide (P x)).
    + rewrite filter_cons_True by done. by constructor.
    + by rewrite filter_cons_False by done.
Qed.

(** C1 (amended).  Spec-modelled event graph.  In the event list that
    [get_command_input] flattens, an event stands behind every event it
    consumed, directly or through other events of the list; the messages of
    the two events that carry no [tool_call_id] keep that order in the
    list handed to the command (messages with a [tool_call_id] are re-homed
    by the tool-call pass and are not covered).  Among the events whose
    consumed events have all been placed, the one of least publish offset
    is placed next: an event placed later whose consumed events all stand
    before position [j] has an offset that is not smaller than that of the
    event at position [j]. *)
Theorem get_command_input_causal_order clock self store ctx node_input out log :
  LLMNode.get_command_input clock self store ctx node_input = inr (out, log) →
  let pool := LLMNode.topic_events store ctx in
  let evs := LLMNode.node_input_events store ctx node_input in
  (∀ i j A B,
     evs !! i = Some A → evs !! j = Some B →
     tc (λ a b, a ∈ evs ∧ b ∈ evs ∧ EventGraph.consumed pool b a) A B →
     i < j
     ∧ ∀ la lb ma mb,
         LLMNode.event_messages A = inr la →
         LLMNode.event_messages B = inr lb →
         ma ∈ la → mb ∈ lb →
         Message.tool_call_id ma = None → Message.tool_call_id mb = None →
         ∃ ma' mb', Message.same_but_tools ma ma'
                    ∧ Message.same_but_tools mb mb'
                    ∧ [ma'; mb'] `sublist_of` out)
  ∧ (∀ i j A B,
       j < i → evs !! j = Some B → evs !! i = Some A →
       (∀ P, EventGraph.consumed pool A P → P ∈ take j evs) →
       EventGraph.event_offset B ≤ EventGraph.event_offset A).
Proof.
  intros Hout pool evs. split.
  - intros i j A B HA HB Htc.
    pose proof (sorted_events_causal pool node_input i j A B HA HB Htc) as Hij.
    split; [done|].
    intros la lb ma mb Hla Hlb Hma Hmb Hida Hidb.
    destruct (get_command_input_inr _ _ _ _ _ _ _ Hout) as [msgs Hflat].
    pose proof (get_command_input_keeps_other_messages clock self store ctx
                  node_input msgs out log Hflat Hout) as Hkeep.
    destruct (flattened_messages_inr _ _ _ _ Hflat) as (mss & Hmss & ->).
    fold evs in Hmss.
    destruct (Forall2_lookup_l _ _ _ _ _ Hmss HA) as (la' & Hi & Hla').
    destruct (Forall2_lookup_l _ _ _ _ _ Hmss HB) as (lb' & Hj & Hlb').
    assert (la' = la) as -> by congruence.
    assert (lb' = lb) as -> by congruence.
    pose proof (concat_sublist_pair mss i j la lb ma mb Hij Hi Hj Hma Hmb)
      as Hsub.
    apply (sublist_filter_mono (λ m, Message.tool_call_id m = None)) in Hsub.
    rewrite !filter_cons_True, filter_nil in Hsub by done.
    destruct (sublist_Forall2 _ _ _ _ Hsub Hkeep) as (k1 & Hk1 & Hrel).
    inversion Hrel as [|? ma' ? k2 Hma' Hrel']; subst.
    inversion Hrel' as [|? mb' ? k3 Hmb' Hrel'']; subst.
    inversion Hrel''; subst.
    exists ma', mb'. repeat split; [done..|].
    etrans; [exact Hk1|]. apply sublist_filter.
  - intros i j A B. apply sorted_events_least.
Qed.

End causal_order.

Lemma get_command_input_causal_order_witness :
  let out := [CausalSample.calling; Sample.result_a; Sample.note;
              CausalSample.thanks] in
  LLMNode.get_command_input Sample.clock Sample.llm CausalSample.store
    Sample.ctx CausalSample.node_input = inr (out, [])
  ∧ ∃ ma' mb', Message.same_but_tools Sample.note ma'
               ∧ Message.same_but_tools CausalSample.thanks mb'
               ∧ [ma'; mb'] `sublist_of` out.
Proof.
  intros out.
  assert (Hout : LLMNode.get_command_input Sample.clock Sample.llm
                   CausalSample.store Sample.ctx CausalSample.node_input
                 = inr (out, [])) by (vm_compute; reflexivity).
  split; [exact Hout|].
  destruct (get_command_input_causal_order _ _ _ _ _ _ _ Hout) as [Horder _].
  destruct (Horder 0 1 (Event.Consume CausalSample.cA)
              (Event.Consume CausalSample.cB)) as [_ Hmsgs].
  - vm_compute; reflexivity.
  - vm_compute; reflexivity.
  - apply tc_once. split; [|split].
    + apply (list_elem_of_lookup_2 _ 0). vm_compute; reflexivity.
    + apply (list_elem_of_lookup_2 _ 1). vm_compute; reflexivity.
    + apply (list_elem_of_lookup_2 _ 0). vm_compute; reflexivity.
  - apply (Hmsgs [CausalSample.calling; Sample.note]
             [Sample.result_a; CausalSample.thanks]);
      [reflexivity|reflexivity| | |reflexivity|reflexivity].
    + apply (list_elem_of_lookup_2 _ 1). reflexivity.
    + apply (list_elem_of_lookup_2 _ 1). reflexivity.
Defined.

(** C1, as stated, fails: [cB] consumed [cA], yet the tool result of [cB]
    is handed to the command before the remark of [cA], because the
    tool-call pass moves it behind the calling message. *)
Lemma get_command_input_causal_order_broken :
  let pool := LLMNode.topic_events CausalSample.store Sample.ctx in
  let evs := LLMNode.node_input_events CausalSample.store Sample.ctx
               CausalSample.node_input in
  ∃ out log,
    LLMNode.get_command_input Sample.clock Sample.llm CausalSample.store
      Sample.ctx CausalSample.node_input = inr (out, log)
    ∧ ¬ (∀ A B la lb ma mb p q,
           A ∈ evs → B ∈ evs → EventGraph.consumed pool B A →
           LLMNode.event_messages A = inr la →
           LLMNode.event_messages B = inr lb →
           ma ∈ la → mb ∈ lb →
           out !! p = Some ma → out !! q = Some mb → p < q).
Proof.
  intros pool evs. eexists _, _; split; [vm_compute; reflexivity|].
  intros Hall.
  assert (Hlt : 2 < 1); [|lia].
  apply (Hall (Event.Consume CausalSample.cA) (Event.Consume CausalSample.cB)
           [CausalSample.calling; Sample.note]
           [Sample.result_a; CausalSample.thanks]
           Sample.note Sample.result_a).
  - apply (list_elem_of_lookup_2 _ 0). vm_compute; reflexivity.
  - apply (list_elem_of_lookup_2 _ 1). vm_compute; reflexivity.
  - apply (list_elem_of_lookup_2 _ 0). vm_compute; reflexivity.
  - reflexivity.
  - reflexivity.
  - apply (list_elem_of_lookup_2 _ 1). reflexivity.
  - apply (list_elem_of_lookup_2 _ 0). reflexivity.
  - reflexivity.
  - reflexivity.
Qed.

(** ** Serialization round trips *)

Section round_trip.
Import Py Envelope.

Lemma EventType_of_value_value t : EventType.of_value (EventType.value t) = Some t.
Proof. by destruct t. Qed.

Lemma traverse_as_str ids : traverse as_str (Str <$> ids) = ok ids.
Proof.
  induction ids as [|i ids IH]; [done|].
  cbn [fmap list_fmap traverse as_str mbind result_bind]. rewrite IH. done.
Qed.

Lemma validate_message_list_objects l :
  validate_message_list (List (MessageObject <$> l)) = ok l.
Proof.
  unfold validate_message_list.
  induction l as [|m l IH]; [done|].
  cbn [fmap list_fmap traverse validate_message mbind result_bind].
  rewrite IH. done.
Qed.

Lemma as_offset_of_nat n : as_offset (Int (Z.of_nat n)) = ok n.
Proof.
  unfold as_offset. destruct (decide (0 ≤ Z.of_nat n)%Z); [|lia].
  by rewrite Nat2Z.id.
Qed.

Lemma execution_context_round_trip c :
  execution_context_validate (execution_context_dump c) = ok c.
Proof. by destruct c. Qed.

(** Evaluates the dictionary accesses of a [from_dict], leaving the
    conversions of symbolic values in place. *)
Ltac eval_dict :=
  cbv -[traverse as_str as_offset fmap list_fmap Z.of_nat
        execution_context_validate execution_context_dump
        EventType.of_value EventType.value validate_message_list];
  repeat (progress
    (rewrite ?execution_context_round_trip, ?validate_message_list_objects,
             ?EventType_of_value_value, ?traverse_as_str, ?as_offset_of_nat;
     cbn [as_str fmap result_fmap mbind result_bind ok raise])).

(** A publish event carrying one message or a list of messages is read
    back from its dictionary unchanged. *)
Lemma PublishToTopicEvent_round_trip e :
  Data.is_stream (PublishToTopicEvent.data e) = false →
  ∃ d, PublishToTopicEventDict.to_dict e = inr d
       ∧ PublishToTopicEventDict.from_dict d = inr e.
Proof.
  destruct e as [id ty ts ctx topic off pname ptype ids data].
  cbn [PublishToTopicEvent.data]. intros Hdata.
  destruct data as [m|l|g]; [| |done];
    (eexists; split; [reflexivity|]); eval_dict; reflexivity.
Qed.

Lemma ConsumeFromTopicEvent_round_trip e :
  Data.is_stream (ConsumeFromTopicEvent.data e) = false →
  ∃ d, ConsumeFromTopicEventDict.to_dict e = inr d
       ∧ ConsumeFromTopicEventDict.from_dict d = inr e.
Proof.
  destruct e as [id ty ts ctx topic off cname ctype data].
  cbn [ConsumeFromTopicEvent.data]. intros Hdata.
  destruct data as [m|l|g]; [| |done];
    (eexists; split; [reflexivity|]); eval_dict; reflexivity.
Qed.

Lemma traverse_round_trip {A B C} (f : A → result B) (g : C → result A)
    (h : B → C) l r :
  (∀ a b, f a = inr b → g (h b) = inr a) →
  traverse f l = inr r → traverse g (h <$> r) = inr l.
Proof.
  intros Hfg. revert r; induction l as [|a l IH]; intros r; simpl.
  { by intros [= <-]. }
  destruct (f a) as [e|b] eqn:Hfa; [done|]. simpl.
  destruct (traverse f l) as [e|bs]; [done|]. simpl.
  intros [= <-]. rewrite fmap_cons. cbn [traverse].
  rewrite (Hfg a b Hfa). cbn [mbind result_bind].
  by rewrite (IH bs eq_refl).
Qed.

Lemma ConsumeFromTopicEvent_from_to_dict e d :
  ConsumeFromTopicEventDict.to_dict e = inr d →
  ConsumeFromTopicEventDict.from_dict d = inr e.
Proof.
  intros Hd.
  destruct (Data.is_stream (ConsumeFromTopicEvent.data e)) eqn:Hs.
  - unfold ConsumeFromTopicEventDict.to_dict in Hd.
    by destruct (ConsumeFromTopicEvent.data e).
  - destruct (ConsumeFromTopicEvent_round_trip e Hs) as (d' & Hd' & Hback).
    congruence.
Qed.

Lemma node_event_base_dict b v :
  node_event_base (PyDict.set (node_event_dict b) "data" v) = ok b.
Proof. destruct b. eval_dict. reflexivity. Qed.

(** Evaluates [NodeRespondEvent.from_dict] on a dictionary, given what the
    reading of the input events yields. *)
Ltac eval_node_dict Hinputs :=
  cbv -[traverse fmap list_fmap validate_message_list
        ConsumeFromTopicEventDict.from_dict] in Hinputs;
  repeat (progress
    (cbv -[traverse fmap list_fmap validate_message_list
           ConsumeFromTopicEventDict.from_dict execution_context_validate
           execution_context_dump EventType.of_value EventType.value];
     rewrite ?execution_context_round_trip, ?validate_message_list_objects,
             ?EventType_of_value_value, ?Hinputs)).

(** A node respond event whose output is a list of messages is read back
    unchanged. *)
Lemma NodeRespondEvent_round_trip_list e l d :
  NodeRespondEvent.output_data e = Data.Many l →
  NodeRespondEventDict.to_dict e = inr d →
  NodeRespondEventDict.from_dict d = inr e.
Proof.
  destruct e as [b inputs output]. cbn [NodeRespondEvent.output_data].
  intros ->. unfold NodeRespondEventDict.to_dict.
  cbn [NodeRespondEvent.input_data NodeRespondEvent.base
       NodeRespondEvent.output_data].
  destruct (traverse ConsumeFromTopicEventDict.to_dict inputs)
    as [err|ds] eqn:Htr; [done|].
  cbn [mbind result_bind dumps ok]. intros [= <-].
  unfold NodeRespondEventDict.from_dict.
  pose proof (traverse_round_trip _
                (λ event, match event with
                          | Dict d => ConsumeFromTopicEventDict.from_dict d
                          | _ => raise TypeError
                          end) Dict inputs ds
                ConsumeFromTopicEvent_from_to_dict Htr) as Hinputs.
  destruct b. eval_node_dict Hinputs. reflexivity.
Qed.

(** C8.  The round trip holds for every publish event (see
    [PublishToTopicEvent_round_trip]) and for a node respond event whose
    output is a list, but not for a node respond event whose [output_data]
    is a single message, which the claim includes: [to_dict] dumps it as one
    JSON object, and [from_dict] validates the loaded value against
    [List[Message]] without the [isinstance] test that
    [PublishToTopicEvent.from_dict] makes, so it raises a validation error
    instead of returning the event. *)
Theorem NodeRespondEvent_single_message_not_read_back e m d :
  NodeRespondEvent.output_data e = Data.One m →
  NodeRespondEventDict.to_dict e = inr d →
  NodeRespondEventDict.from_dict d = inl ValidationError.
Proof.
  destruct e as [b inputs output]. cbn [NodeRespondEvent.output_data].
  intros ->. unfold NodeRespondEventDict.to_dict.
  cbn [NodeRespondEvent.input_data NodeRespondEvent.base
       NodeRespondEvent.output_data].
  destruct (traverse ConsumeFromTopicEventDict.to_dict inputs)
    as [err|ds] eqn:Htr; [done|].
  cbn [mbind result_bind dumps ok]. intros [= <-].
  unfold NodeRespondEventDict.from_dict.
  pose proof (traverse_round_trip _
                (λ event, match event with
                          | Dict d => ConsumeFromTopicEventDict.from_dict d
                          | _ => raise TypeError
                          end) Dict inputs ds
                ConsumeFromTopicEvent_from_to_dict Htr) as Hinputs.
  destruct b. eval_node_dict Hinputs. reflexivity.
Qed.

End round_trip.

Lemma NodeRespondEvent_single_message_not_read_back_witness :
  ∃ d, NodeRespondEventDict.to_dict RespondSample.single_output = inr d
       ∧ NodeRespondEventDict.from_dict d = inl ValidationError.
Proof.
  eexists. split; [vm_compute; reflexivity|].
  apply (NodeRespondEvent_single_message_not_read_back
           RespondSample.single_output Sample.note);
    [reflexivity|vm_compute; reflexivity].
Defined.

(** ** Insertion-ordered dictionaries *)

Section pydict.
Context {K V : Type} `{EqDecision K}.
Implicit Types (d : PyDict.t K V) (k : K) (v : V).

Lemma pydict_get_set_eq d k v : PyDict.get (PyDict.set d k v) k = Some v.
Proof.
  induction d as [|[k' v'] d IH]; simpl.
  - by rewrite decide_True.
  - destruct (decide (k' = k)) as [->|Hne]; simpl.
    + by rewrite decide_True.
    + by rewrite decide_False.
Qed.

Lemma pydict_get_set_ne d k k' v :
  k ≠ k' → PyDict.get (PyDict.set d k v) k' = PyDict.get d k'.
Proof.
  intros Hne. induction d as [|[k0 v0] d IH]; simpl.
  - by rewrite decide_False.
  - destruct (decide (k0 = k)) as [->|Hne0]; simpl.
    + by rewrite !decide_False.
    + destruct (decide (k0 = k')); [done|apply IH].
Qed.

Lemma pydict_get_Some d k : is_Some (PyDict.get d k) ↔ k ∈ PyDict.keys d.
Proof.
  unfold PyDict.keys. induction d as [|[k' v'] d IH]; simpl.
  - split; [by intros [? ?]|by intros ?%elem_of_nil].
  - rewrite elem_of_cons. destruct (decide (k' = k)) as [->|Hne].
    + split; [by left|by eexists].
    + rewrite IH. naive_solver.
Qed.

Lemma pydict_contains d k : PyDict.contains d k = true ↔ k ∈ PyDict.keys d.
Proof.
  unfold PyDict.contains. by rewrite bool_decide_eq_true, pydict_get_Some.
Qed.

(** Assigning to a new key appends it; assigning to a present key keeps
    the keys. *)
Lemma pydict_keys_set_new d k v :
  k ∉ PyDict.keys d → PyDict.keys (PyDict.set d k v) = PyDict.keys d ++ [k].
Proof.
  unfold PyDict.keys. induction d as [|[k' v'] d IH]; [done|].
  rewrite fmap_cons, not_elem_of_cons. cbn [fst PyDict.set].
  intros [Hne Hnotin].
  rewrite decide_False by done. by rewrite !fmap_cons, IH.
Qed.

Lemma pydict_keys_set_old d k v :
  k ∈ PyDict.keys d → PyDict.keys (PyDict.set d k v) = PyDict.keys d.
Proof.
  unfold PyDict.keys. induction d as [|[k' v'] d IH].
  { by intros ?%elem_of_nil. }
  rewrite fmap_cons. cbn [fst PyDict.set].
  destruct (decide (k' = k)) as [->|Hne]; [done|].
  rewrite elem_of_cons. intros [?|Hin]; [congruence|].
  by rewrite !fmap_cons, IH.
Qed.

(** A comprehension over items with distinct keys keeps them all, in
    order. *)
Lemma pydict_comprehension_NoDup {A} (key : A → K) (val : A → V) (l : list A) :
  NoDup (key <$> l) →
  PyDict.comprehension key val l = (λ x, (key x, val x)) <$> l.
Proof.
  unfold PyDict.comprehension, PyDict.empty.
  assert (Hgen : ∀ d0 : PyDict.t K V,
    NoDup (PyDict.keys d0 ++ (key <$> l)) →
    foldl (λ d x, PyDict.set d (key x) (val x)) d0 l
    = d0 ++ ((λ x, (key x, val x)) <$> l)).
  { induction l as [|x l IH]; intros d0 Hnd; simpl.
    { by rewrite app_nil_r. }
    simpl in Hnd.
    assert (Hset : PyDict.set d0 (key x) (val x) = d0 ++ [(key x, val x)]).
    { apply NoDup_app in Hnd as (_ & Hdisj & _).
      assert (Hnotin : key x ∉ PyDict.keys d0).
      { intros Hin. apply (Hdisj _ Hin). left. }
      clear -Hnotin. unfold PyDict.keys in Hnotin.
      induction d0 as [|[k' v'] d0 IH]; [done|].
      rewrite fmap_cons, not_elem_of_cons in Hnotin.
      destruct Hnotin as [Hne Hnotin]. cbn [fst PyDict.set] in *.
      rewrite decide_False by done. by rewrite IH. }
    rewrite Hset, IH.
    - by rewrite <- app_assoc.
    - unfold PyDict.keys in *. rewrite fmap_app. simpl.
      by rewrite <- app_assoc. }
  intros Hnd. by rewrite Hgen.
Qed.

End pydict.

(** ** Building a workflow *)

Section builder.
Import EventDrivenWorkflow.
Variables AGENT_INPUT_TOPIC AGENT_OUTPUT_TOPIC : string.

Lemma chain_snoc ns n :
  Builder.chain (ns ++ [n]) = Builder.chain ns ≫= λ self, Builder.node self n.
Proof. unfold Builder.chain. by rewrite foldl_app. Qed.

Lemma node_duplicate self n :
  PyDict.contains (nodes self) (Node.name n) = true →
  Builder.node self n = inl (DuplicateNodeError (Node.name n)).
Proof. unfold Builder.node. by intros ->. Qed.

(** Registration keeps the nodes in order under their (distinct) names and
    declares no topic. *)
Lemma chain_inr ns self :
  Builder.chain ns = inr self →
  nodes self = (λ n, (Node.name n, n)) <$> ns
  ∧ NoDup (Node.name <$> ns)
  ∧ topics self = ∅.
Proof.
  revert self. induction ns as [|n ns IH] using rev_ind; intros self.
  { intros [= <-]. repeat split; constructor. }
  rewrite chain_snoc. destruct (Builder.chain ns) as [e|self0]; [done|].
  destruct (IH self0 eq_refl) as (Hnodes & Hnd & Htopics).
  cbn [mbind result_bind]. unfold Builder.node.
  destruct (PyDict.contains (nodes self0) (Node.name n)) eqn:Hc; [done|].
  intros [= <-]. cbn [nodes topics].
  assert (Hnotin : Node.name n ∉ PyDict.keys (nodes self0)).
  { rewrite <- pydict_contains. by rewrite Hc. }
  assert (Hkeys : PyDict.keys (nodes self0) = Node.name <$> ns).
  { unfold PyDict.keys. rewrite Hnodes, <- list_fmap_compose. done. }
  repeat split; [| |done].
  2:{ rewrite fmap_app. apply NoDup_app. split; [done|].
      split; [|apply NoDup_singleton].
      intros x Hx Hx'. apply list_elem_of_singleton in Hx'. subst x.
      by rewrite <- Hkeys in Hx. }
  rewrite fmap_app. cbn [fmap list_fmap]. rewrite <- Hnodes.
  clear -Hnotin. unfold PyDict.keys in Hnotin.
  induction (nodes self0) as [|[k v] d IHd]; [done|].
  rewrite fmap_cons, not_elem_of_cons in Hnotin. destruct Hnotin as [Hne ?].
  cbn [PyDict.set fst] in *. rewrite decide_False by done. by rewrite IHd.
Qed.

Lemma chain_duplicate ns self n :
  Builder.chain ns = inr self →
  Node.name n ∈ Node.name <$> ns →
  Builder.chain (ns ++ [n]) = inl (DuplicateNodeError (Node.name n)).
Proof.
  intros Hchain Hin. rewrite chain_snoc, Hchain. cbn [mbind result_bind].
  apply node_duplicate, pydict_contains.
  destruct (chain_inr _ _ Hchain) as (-> & _ & _).
  unfold PyDict.keys. by rewrite <- list_fmap_compose.
Qed.

Lemma add_topic_dom self topic :
  dom (topics (Builder._add_topic self topic))
  = dom (topics self) ∪ {[Topic.name topic]}
  ∧ nodes (Builder._add_topic self topic) = nodes self.
Proof.
  unfold Builder._add_topic.
  destruct (topics self !! Topic.name topic) as [T|] eqn:Hlook.
  - split; [|done]. apply elem_of_dom_2 in Hlook. set_solver.
  - cbn [with_topics topics nodes]. rewrite dom_insert_L. set_solver.
Qed.

Lemma gather_dom self entry :
  dom (topics (Builder.gather self entry))
  = dom (topics self) ∪ list_to_set (Builder.referenced entry.2)
  ∧ nodes (Builder.gather self entry) = nodes self.
Proof.
  destruct entry as [node_name node]. cbn [snd]. unfold Builder.gather.
  unfold Builder.referenced. rewrite fmap_app, list_to_set_app_L.
  assert (Hinner : ∀ ts self0,
    dom (topics (foldl (λ self t, Builder.subscribe
                                    (Builder._add_topic self t)
                                    (Topic.name t) node_name) self0 ts))
    = dom (topics self0) ∪ list_to_set (Topic.name <$> ts)
    ∧ nodes (foldl (λ self t, Builder.subscribe
                                (Builder._add_topic self t)
                                (Topic.name t) node_name) self0 ts)
      = nodes self0).
  { induction ts as [|t ts IH]; intros self0; simpl.
    { split; [set_solver|done]. }
    destruct (IH (Builder.subscribe (Builder._add_topic self0 t)
                    (Topic.name t) node_name)) as [-> ->].
    cbn [Builder.subscribe topics nodes].
    destruct (add_topic_dom self0 t) as [-> ->]. split; [set_solver|done]. }
  assert (Hexprs : ∀ es self0,
    dom (topics (foldl (λ self expr,
             foldl (λ self t, Builder.subscribe (Builder._add_topic self t)
                                (Topic.name t) node_name)
                   self (Node.extract_topics expr)) self0 es))
    = dom (topics self0)
      ∪ list_to_set (Topic.name <$> (es ≫= Node.extract_topics))
    ∧ nodes (foldl (λ self expr,
             foldl (λ self t, Builder.subscribe (Builder._add_topic self t)
                                (Topic.name t) node_name)
                   self (Node.extract_topics expr)) self0 es)
      = nodes self0).
  { induction es as [|e es IH]; intros self0; simpl.
    { split; [set_solver|done]. }
    destruct (IH (foldl (λ self t, Builder.subscribe
                                     (Builder._add_topic self t)
                                     (Topic.name t) node_name)
                        self0 (Node.extract_topics e))) as [-> ->].
    destruct (Hinner (Node.extract_topics e) self0) as [-> ->].
    rewrite fmap_app, list_to_set_app_L. split; [set_solver|done]. }
  assert (Hpub : ∀ ts self0,
    dom (topics (foldl Builder._add_topic self0 ts))
    = dom (topics self0) ∪ list_to_set (Topic.name <$> ts)
    ∧ nodes (foldl Builder._add_topic self0 ts) = nodes self0).
  { induction ts as [|t ts IH]; intros self0; simpl.
    { split; [set_solver|done]. }
    destruct (IH (Builder._add_topic self0 t)) as [-> ->].
    destruct (add_topic_dom self0 t) as [-> ->]. split; [set_solver|done]. }
  destruct (Hpub (Node.publish_to node)
              (foldl (λ self expr,
                 foldl (λ self t, Builder.subscribe
                                    (Builder._add_topic self t)
                                    (Topic.name t) node_name)
                       self (Node.extract_topics expr))
                 self (Node.subscribed_expressions node))) as [-> ->].
  destruct (Hexprs (Node.subscribed_expressions node) self) as [-> ->].
  split; [set_solver|done].
Qed.

Lemma gather_all_dom entries self :
  dom (topics (foldl Builder.gather self entries))
  = dom (topics self)
    ∪ list_to_set (entries ≫= λ entry, Builder.referenced entry.2)
  ∧ nodes (foldl Builder.gather self entries) = nodes self.
Proof.
  revert self. induction entries as [|entry entries IH]; intros self; simpl.
  { split; [set_solver|done]. }
  destruct (IH (Builder.gather self entry)) as [-> ->].
  destruct (gather_dom self entry) as [-> ->].
  rewrite list_to_set_app_L. split; [set_solver|done].
Qed.

Lemma foldl_related {A B} (R : A → A → Prop) (f : A → B → A) l a :
  (∀ a, R a a) → (∀ a b c, R a b → R b c → R a c) →
  (∀ a b, R a (f a b)) → R a (foldl f a l).
Proof.
  intros Hrefl Htrans Hstep. revert a.
  induction l as [|b l IH]; intros a; simpl; [done|].
  eapply Htrans; [apply Hstep|apply IH].
Qed.

Lemma handle_function_calling_nodes_keeps self :
  topics (Builder._handle_function_calling_nodes self) = topics self
  ∧ PyDict.keys (nodes (Builder._handle_function_calling_nodes self))
    = PyDict.keys (nodes self).
Proof.
  unfold Builder._handle_function_calling_nodes.
  set (R := λ a b : t, topics b = topics a
                       ∧ PyDict.keys (nodes b) = PyDict.keys (nodes a)).
  assert (Hrefl : ∀ a, R a a) by done.
  assert (Htrans : ∀ a b c, R a b → R b c → R a c).
  { intros a b c [H1 H2] [H3 H4]. split; congruence. }
  apply (foldl_related R); [done..|].
  intros a fn. destruct (Node.node_variant fn) as [|spec|]; [done| |done].
  apply (foldl_related R); [done..|].
  intros a' tn.
  destruct (PyDict.get _ tn) as [publisher|]; [|done].
  destruct (PyDict.get (nodes a') publisher) as [node|] eqn:Hget; [|done].
  split; [done|]. cbn [nodes].
  apply pydict_keys_set_old, pydict_get_Some. by eexists.
Qed.

(** C7.  A configuration error makes construction fail, so that there is
    no workflow to run: registering a node under a name that is already
    registered raises [DuplicateNodeError] (for one call of [node], and so
    for a chain of calls that repeats a name), and [build] raises when
    neither the entry nor the terminal topic is among the topics the nodes
    name in their subscriptions or as targets.  A workflow that is built
    has its nodes under distinct names, one per registered node, and
    has the entry topic or the terminal topic. *)
Theorem build_configuration_errors ns :
  (∀ self n,
     PyDict.contains (nodes self) (Node.name n) = true →
     Builder.node self n = inl (DuplicateNodeError (Node.name n)))
  ∧ (∀ self n,
       Builder.chain ns = inr self → Node.name n ∈ Node.name <$> ns →
       Builder.chain (ns ++ [n]) = inl (DuplicateNodeError (Node.name n)))
  ∧ (∀ self,
       Builder.chain ns = inr self →
       AGENT_INPUT_TOPIC ∉ ns ≫= Builder.referenced →
       AGENT_OUTPUT_TOPIC ∉ ns ≫= Builder.referenced →
       ∃ msg, Builder.build AGENT_INPUT_TOPIC AGENT_OUTPUT_TOPIC self
              = inl (ValueError msg))
  ∧ (∀ self w,
       Builder.chain ns = inr self →
       Builder.build AGENT_INPUT_TOPIC AGENT_OUTPUT_TOPIC self = inr w →
       NoDup (PyDict.keys (nodes w))
       ∧ PyDict.keys (nodes w) = Node.name <$> ns
       ∧ (is_Some (topics w !! AGENT_INPUT_TOPIC)
          ∨ is_Some (topics w !! AGENT_OUTPUT_TOPIC))).
Proof.
  assert (Hdom : ∀ self, Builder.chain ns = inr self →
    dom (topics (foldl Builder.gather self (nodes self)))
    = list_to_set (ns ≫= Builder.referenced)
    ∧ PyDict.keys (nodes (foldl Builder.gather self (nodes self)))
      = Node.name <$> ns).
  { intros self Hchain.
    destruct (chain_inr _ _ Hchain) as (Hnodes & _ & Htopics).
    destruct (gather_all_dom (nodes self) self) as [-> ->].
    rewrite Htopics, dom_empty_L, Hnodes. split.
    - rewrite (left_id_L ∅ (∪)). f_equal.
      clear. induction ns as [|n l IH]; [done|].
      rewrite fmap_cons, !bind_cons. by rewrite IH.
    - unfold PyDict.keys. by rewrite <- list_fmap_compose. }
  split; [apply node_duplicate|]. split; [apply chain_duplicate|]. split.
  - intros self Hchain Hin Hout. destruct (Hdom self Hchain) as [Hd _].
    unfold Builder.build. eexists.
    rewrite !bool_decide_eq_true_2; [done| |].
    + apply not_elem_of_dom. rewrite Hd. by rewrite elem_of_list_to_set.
    + apply not_elem_of_dom. rewrite Hd. by rewrite elem_of_list_to_set.
  - intros self w Hchain. destruct (Hdom self Hchain) as [_ Hkeys].
    destruct (chain_inr _ _ Hchain) as (_ & Hnd & _).
    unfold Builder.build.
    destruct (bool_decide (topics _ !! AGENT_INPUT_TOPIC = None)) eqn:Hin;
      [destruct (bool_decide (topics _ !! AGENT_OUTPUT_TOPIC = None)) eqn:Hout|];
      cbn [andb]; [done| |]; intros [= <-];
      destruct (handle_function_calling_nodes_keeps
                  (foldl Builder.gather self (nodes self))) as [-> ->];
      rewrite Hkeys; (split; [done|split; [done|]]).
    + right. apply bool_decide_eq_false in Hout.
      by apply not_eq_None_Some.
    + left. apply bool_decide_eq_false in Hin.
      by apply not_eq_None_Some.
Qed.

End builder.

Lemma build_configuration_errors_witness :
  ∃ self w,
    EventDrivenWorkflow.Builder.chain [WorkflowSample.responder] = inr self
    ∧ EventDrivenWorkflow.Builder.build WorkflowSample.AGENT_INPUT_TOPIC
        WorkflowSample.AGENT_OUTPUT_TOPIC self = inr w
    ∧ NoDup (PyDict.keys (EventDrivenWorkflow.nodes w))
    ∧ PyDict.keys (EventDrivenWorkflow.nodes w)
      = Node.name <$> [WorkflowSample.responder]
    ∧ (is_Some (EventDrivenWorkflow.topics w
                  !! WorkflowSample.AGENT_INPUT_TOPIC)
       ∨ is_Some (EventDrivenWorkflow.topics w
                    !! WorkflowSample.AGENT_OUTPUT_TOPIC)).
Proof.
  eexists _, _. split; [vm_compute; reflexivity|].
  split; [vm_compute; reflexivity|].
  destruct (build_configuration_errors WorkflowSample.AGENT_INPUT_TOPIC
              WorkflowSample.AGENT_OUTPUT_TOPIC [WorkflowSample.responder])
    as (_ & _ & _ & Hbuilt).
  eapply Hbuilt; vm_compute; reflexivity.
Defined.

(** ** The engine: effects of its computations *)

Section effects.
Import EventDrivenWorkflow.

Context (R : world → world → Prop) `{!PreOrder R}.

Lemma keeps_ret {A} (a : A) : keeps R (mret a).
Proof. by intros w. Qed.

Lemma keeps_throw {A} e : keeps R (@throw A e).
Proof. by intros w. Qed.

Lemma keeps_get : keeps R get.
Proof. by intros w. Qed.

Lemma keeps_bind {A B} (m : M A) (f : A → M B) :
  keeps R m → (∀ a, keeps R (f a)) → keeps R (m ≫= f).
Proof.
  intros Hm Hf w. unfold mbind, M_bind. specialize (Hm w).
  destruct (m w) as [[e|a] w']; [done|].
  etrans; [exact Hm|apply Hf].
Qed.

Lemma keeps_for_each {A} (l : list A) (body : A → M unit) :
  (∀ a, keeps R (body a)) → keeps R (for_each l body).
Proof.
  intros Hbody. induction l as [|a l IH]; simpl; [apply keeps_ret|].
  by apply keeps_bind.
Qed.

Lemma keeps_fold_m {A B} (f : B → A → M B) (b : B) (l : list A) :
  (∀ b a, keeps R (f b a)) → keeps R (fold_m f b l).
Proof.
  intros Hf. revert b. induction l as [|a l IH]; intros b; simpl;
    [apply keeps_ret|].
  by apply keeps_bind.
Qed.

Lemma keeps_lift {A} (r : result A) : keeps R (lift r).
Proof. destruct r; [apply keeps_throw|apply keeps_ret]. Qed.

End effects.

(** Solves [keeps] goals by following the structure of the computation. *)
Ltac keeps_step :=
  first
    [ apply keeps_ret; apply _
    | apply keeps_throw; apply _
    | apply keeps_get; apply _
    | apply keeps_lift; apply _
    | apply keeps_bind; [apply _| |intros ?]
    | apply keeps_for_each; [apply _|intros ?]
    | apply keeps_fold_m; [apply _|intros ? ?] ].

Section engine_frames.
Import EventDrivenWorkflow.
Variable AGENT_INPUT_TOPIC : string.
Variable new_id : nat → string.
Variable clock : nat → Z.

Global Instance same_store_preorder : PreOrder same_store.
Proof.
  split; [done|]. intros a b c [H1 H2] [H3 H4]. split; congruence.
Qed.

Global Instance same_topics_but_preorder names :
  PreOrder (same_topics_but names).
Proof.
  split; [done|]. intros a b c H1 H2 t Ht. by rewrite H2, H1.
Qed.

Global Instance same_graph_preorder : PreOrder same_graph.
Proof.
  split; [done|].
  intros a b c (?&?&?&?) (?&?&?&?). repeat split; congruence.
Qed.

Lemma enqueue_same_store node : keeps same_store (enqueue node).
Proof. by intros w. Qed.

Lemma set_topic_same_store t T : keeps same_store (set_topic t T).
Proof. by intros w. Qed.

Lemma next_created_same_store : keeps same_store next_created.
Proof. by intros w. Qed.

Lemma node_named_keeps R `{!PreOrder R} n : keeps R (node_named n).
Proof.
  unfold node_named. keeps_step; [keeps_step|].
  destruct (PyDict.get _ _); keeps_step.
Qed.

Lemma topic_named_keeps R `{!PreOrder R} n : keeps R (topic_named n).
Proof.
  unfold topic_named. keeps_step; [keeps_step|].
  destruct (_ !! _); keeps_step.
Qed.

Lemma on_event_same_store event : keeps same_store (on_event event).
Proof.
  unfold on_event. destruct event as [p|p|c|a|n|o]; [|keeps_step..].
  keeps_step; [keeps_step|]. destruct (_ !! _); [|keeps_step].
  keeps_step. keeps_step; [apply node_named_keeps; apply _|].
  keeps_step; [keeps_step|].
  destruct (Node.can_execute _ _); [apply enqueue_same_store|keeps_step].
Qed.

Lemma get_node_input_same_store node :
  keeps same_store (get_node_input new_id clock node).
Proof.
  unfold get_node_input. keeps_step. unfold consume_topic.
  keeps_step; [keeps_step|].
  destruct (_ !! _); [|keeps_step].
  destruct (Topic.can_consume _ _); [|keeps_step].
  destruct (Topic.consume _ _) as [T evs].
  keeps_step; [apply set_topic_same_store|]. unfold wrap_consumed.
  keeps_step. keeps_step; [apply next_created_same_store|keeps_step].
Qed.

(** *** Gathering the input of a node *)

Lemma wrap_consumed_spec node acc evs w :
  wrap_consumed new_id clock node acc evs w
  = (inr (acc ++ imap (λ i e, consume_event new_id clock node (created w + i) e)
                   evs),
     World (workflow w) (event_store w) (created w + length evs)
       (invocations w)).
Proof.
  unfold wrap_consumed. revert acc w.
  induction evs as [|e evs IH]; intros acc w; simpl.
  { rewrite app_nil_r, Nat.add_0_r. by destruct w. }
  unfold mbind at 1, M_bind at 1. unfold mbind at 1, M_bind at 1.
  cbn [next_created mret M_ret]. rewrite IH. cbn [created workflow
    event_store invocations].
  rewrite <- app_assoc, Nat.add_0_r. cbn [app]. f_equal.
  - do 3 f_equal. apply imap_ext. intros i x _. simpl. f_equal. lia.
  - f_equal. lia.
Qed.

Lemma can_consume_unconsumed T c :
  Topic.can_consume T c = true → Topic.unconsumed T c ≠ [].
Proof. unfold Topic.can_consume. by destruct (Topic.unconsumed T c). Qed.

(** The body of the loop never raises; its result extends the events
    gathered so far, and when it adds none the state is untouched and the
    topic has nothing for the node. *)
Lemma consume_topic_spec node acc t w :
  ∃ more w',
    consume_topic new_id clock node acc t w = (inr (acc ++ more), w')
    ∧ (more = [] →
       w' = w
       ∧ ∀ T, topics (workflow w) !! t = Some T →
              Topic.can_consume T (Node.name node) = false).
Proof.
  unfold consume_topic, mbind, M_bind, get.
  destruct (topics (workflow w) !! t) as [T|] eqn:HT.
  2:{ exists [], w. rewrite app_nil_r. by split. }
  destruct (Topic.can_consume T (Node.name node)) eqn:Hcan.
  2:{ exists [], w. rewrite app_nil_r. split; [done|].
      intros _. split; [done|]. by intros T' [= <-]. }
  destruct (Topic.consume T (Node.name node)) as [T' evs] eqn:Hcons.
  cbn [set_topic set_workflow]. rewrite wrap_consumed_spec.
  eexists _, _. split; [done|]. intros Hnil.
  apply can_consume_unconsumed in Hcan.
  unfold Topic.consume in Hcons. inversion Hcons; subst evs.
  by destruct (Topic.unconsumed T (Node.name node)).
Qed.

Lemma gather_spec node l acc w :
  ∃ more w',
    fold_m (consume_topic new_id clock node) acc l w = (inr (acc ++ more), w')
    ∧ (more = [] →
       w' = w
       ∧ ∀ t T, t ∈ l → topics (workflow w) !! t = Some T →
                Topic.can_consume T (Node.name node) = false).
Proof.
  revert acc w. induction l as [|t l IH]; intros acc w; simpl.
  { exists [], w. rewrite app_nil_r. split; [done|]. intros _.
    split; [done|]. by intros t T ?%elem_of_nil. }
  destruct (consume_topic_spec node acc t w) as (more1 & w1 & Hstep & Hnil1).
  destruct (IH (acc ++ more1) w1) as (more2 & w2 & Hrest & Hnil2).
  exists (more1 ++ more2), w2. split.
  { unfold mbind, M_bind. rewrite Hstep, Hrest. by rewrite app_assoc. }
  intros Hnil. apply app_eq_nil in Hnil as [-> ->].
  destruct (Hnil1 eq_refl) as [-> Hcan1].
  destruct (Hnil2 eq_refl) as [-> Hcan2].
  split; [done|]. intros t' T Hin HT.
  apply elem_of_cons in Hin as [->|Hin]; [by apply Hcan1|by eapply Hcan2].
Qed.

(** When no subscribed topic has anything for the node, gathering returns
    nothing and leaves the state as it is. *)
Lemma gather_nothing node l acc w :
  (∀ t T, t ∈ l → topics (workflow w) !! t = Some T →
          Topic.can_consume T (Node.name node) = false) →
  fold_m (consume_topic new_id clock node) acc l w = (inr acc, w).
Proof.
  revert acc. induction l as [|t l IH]; intros acc Hcan; simpl; [done|].
  unfold mbind, M_bind.
  assert (Hstep : consume_topic new_id clock node acc t w = (inr acc, w)).
  { unfold consume_topic, mbind, M_bind, get.
    destruct (topics (workflow w) !! t) as [T|] eqn:HT; [|done].
    by rewrite (Hcan t T (list_elem_of_here _ _) HT). }
  rewrite Hstep. apply IH. intros t' T Hin. apply Hcan. by right.
Qed.

Lemma consume_topic_frame node acc t :
  keeps (same_topics_but [t]) (consume_topic new_id clock node acc t).
Proof.
  intros w t' Ht'. unfold consume_topic, mbind, M_bind, get.
  destruct (topics (workflow w) !! t) as [T|] eqn:HT; [|done].
  destruct (Topic.can_consume T (Node.name node)); [|done].
  destruct (Topic.consume T (Node.name node)) as [T' evs].
  cbn [set_topic set_workflow]. rewrite wrap_consumed_spec.
  cbn [snd workflow topics with_topics].
  apply lookup_insert_ne. set_solver.
Qed.

Lemma same_topics_but_mono names names' w w' :
  names ⊆ names' → same_topics_but names w w' → same_topics_but names' w w'.
Proof. intros Hsub H t Ht. apply H. set_solver. Qed.

Lemma gather_frame node l acc w :
  same_topics_but l w (fold_m (consume_topic new_id clock node) acc l w).2.
Proof.
  revert acc w. induction l as [|t l IH]; intros acc w; simpl; [done|].
  unfold mbind, M_bind.
  pose proof (consume_topic_frame node acc t w) as Hstep.
  destruct (consume_topic_spec node acc t w) as (more & w1 & Heq & _).
  rewrite Heq in Hstep |- *. cbn [snd] in Hstep.
  etrans.
  - eapply same_topics_but_mono; [|exact Hstep]. set_solver.
  - eapply same_topics_but_mono; [|apply IH]. set_solver.
Qed.

(** Once consumed, a well-formed topic has nothing left for the consumer. *)
Lemma consume_drained T c :
  Topic.well_formed T → Topic.can_consume (Topic.consume T c).1 c = false.
Proof.
  intros Hwf. unfold Topic.consume. cbn [fst].
  destruct (last (Topic.topic_events T)) as [e|] eqn:Hlast.
  - unfold Topic.can_consume, Topic.unconsumed.
    cbn [Topic.with_state Topic.consumption_offsets Topic.topic_events].
    rewrite lookup_insert_eq.
    rewrite (filter_none (λ x, PublishToTopicEvent.offset e
                                < PublishToTopicEvent.offset x)); [done|].
    apply Forall_forall. intros x Hx.
    assert (He : PublishToTopicEvent.offset e
                 = length (Topic.topic_events T) - 1).
    { rewrite last_lookup in Hlast.
      assert (Hl : (PublishToTopicEvent.offset <$> Topic.topic_events T)
                   !! pred (length (Topic.topic_events T))
                   = Some (PublishToTopicEvent.offset e))
        by (by rewrite list_lookup_fmap, Hlast).
      rewrite Hwf in Hl. apply lookup_seq in Hl as [-> _]. lia. }
    apply list_elem_of_lookup in Hx as [i Hi].
    assert (Hl : (PublishToTopicEvent.offset <$> Topic.topic_events T) !! i
                 = Some (PublishToTopicEvent.offset x))
      by (by rewrite list_lookup_fmap, Hi).
    rewrite Hwf in Hl. apply lookup_seq in Hl as [-> Hlt]. lia.
  - apply last_None in Hlast. unfold Topic.can_consume, Topic.unconsumed.
    rewrite Hlast. by destruct (_ !! c).
Qed.

Lemma consume_topic_drained node acc t w :
  (∀ T, topics (workflow w) !! t = Some T → Topic.well_formed T) →
  ∀ T1,
    topics (workflow (consume_topic new_id clock node acc t w).2) !! t
    = Some T1 →
    Topic.can_consume T1 (Node.name node) = false.
Proof.
  intros Hwf T1. unfold consume_topic, mbind, M_bind, get.
  destruct (topics (workflow w) !! t) as [T|] eqn:HT.
  2:{ cbn [mret M_ret snd]. by rewrite HT. }
  destruct (Topic.can_consume T (Node.name node)) eqn:Hcan.
  2:{ cbn [mret M_ret snd]. rewrite HT. by intros [= <-]. }
  pose proof (consume_drained T (Node.name node) (Hwf T eq_refl)) as Hdr.
  destruct (Topic.consume T (Node.name node)) as [T' evs].
  cbn [set_topic set_workflow]. rewrite wrap_consumed_spec.
  cbn [snd workflow topics with_topics]. rewrite lookup_insert_eq.
  by intros [= <-].
Qed.

(** After the input of a node has been gathered, none of its topics has
    anything left for it. *)
Lemma gather_drains node l acc w :
  NoDup l →
  (∀ t T, t ∈ l → topics (workflow w) !! t = Some T → Topic.well_formed T) →
  ∀ t T,
    t ∈ l →
    topics (workflow (fold_m (consume_topic new_id clock node) acc l w).2)
      !! t = Some T →
    Topic.can_consume T (Node.name node) = false.
Proof.
  revert acc w. induction l as [|t0 l IH]; intros acc w Hnd Hwf t T Hin.
  { by apply elem_of_nil in Hin. }
  apply NoDup_cons in Hnd as [Hnotin Hnd]. simpl. unfold mbind, M_bind.
  pose proof (consume_topic_frame node acc t0 w) as Hframe.
  pose proof (consume_topic_drained node acc t0 w
                (λ T, Hwf t0 T (list_elem_of_here _ _))) as Hdr.
  destruct (consume_topic_spec node acc t0 w) as (more & w1 & Heq & _).
  rewrite Heq in Hframe, Hdr |- *. cbn [snd] in Hframe, Hdr.
  apply elem_of_cons in Hin as [->|Hin].
  - rewrite (gather_frame node l (acc ++ more) w1 t0 Hnotin). apply Hdr.
  - apply IH; [done| |done].
    intros t' T' Hin' HT'. apply (Hwf t' T'); [by right|].
    rewrite <- HT'. symmetry. apply Hframe. set_solver.
Qed.

(** *** Publishing the result of a node *)

Lemma on_event_same_topics event : keeps (same_topics_but []) (on_event event).
Proof.
  unfold on_event. destruct event as [p|p|c|a|n|o]; [|keeps_step..].
  keeps_step; [keeps_step|]. destruct (_ !! _); [|keeps_step].
  keeps_step. keeps_step; [apply node_named_keeps; apply _|].
  keeps_step; [keeps_step|].
  destruct (Node.can_execute _ _); [|keeps_step]. by intros w.
Qed.

Lemma publish_data_frame t ctx pname ptype data consumed :
  keeps (same_topics_but [t])
        (publish_data new_id clock t ctx pname ptype data consumed).
Proof.
  unfold publish_data. keeps_step; [keeps_step|].
  destruct (_ !! _) as [T|]; [|keeps_step].
  destruct (Topic.publish_data _ _ _ _ _ _ _ _) as [T' [e|]]; [|keeps_step].
  keeps_step; [by intros w|]. keeps_step.
  { intros w t' Ht'. cbn [set_topic set_workflow snd workflow topics
      with_topics]. apply lookup_insert_ne. set_solver. }
  keeps_step; [|keeps_step].
  intros w. eapply same_topics_but_mono; [|apply on_event_same_topics].
  set_solver.
Qed.

Lemma publish_events_frame node ctx data consumed :
  keeps (same_topics_but (Topic.name <$> Node.publish_to node))
        (_publish_events new_id clock node ctx data consumed).
Proof.
  unfold _publish_events.
  assert (Hgen : ∀ l acc,
    l ⊆ Node.publish_to node →
    keeps (same_topics_but (Topic.name <$> Node.publish_to node))
      (fold_m (λ published_events topic,
                 event ← publish_data new_id clock (Topic.name topic) ctx
                           (Node.name node) (Node.type node) data consumed;
                 mret (match event with
                       | Some e => published_events ++ [e]
                       | None => published_events
                       end)) acc l)).
  { induction l as [|T l IH]; intros acc Hsub; simpl; [keeps_step|].
    keeps_step; [|apply IH; set_solver].
    keeps_step; [|keeps_step].
    intros w. eapply same_topics_but_mono; [|apply publish_data_frame].
    intros t Ht. apply list_elem_of_singleton in Ht. subst t.
    apply list_elem_of_fmap. exists T. split; [done|]. apply Hsub. left. }
  keeps_step; [by apply Hgen|by intros w'].
Qed.

End engine_frames.

(** ** A node without input *)

Section node_without_input.
Import EventDrivenWorkflow.
Variable new_id : nat → string.
Variable clock : nat → Z.

Lemma get_node_input_returns node w :
  ∃ consumed w', get_node_input new_id clock node w = (inr consumed, w').
Proof.
  destruct (gather_spec new_id clock node (Node.subscribed_topics node) [] w)
    as (more & w' & Heq & _).
  by exists more, w'.
Qed.

Lemma get_node_input_nil node w w' :
  get_node_input new_id clock node w = (inr [], w') → w' = w.
Proof.
  destruct (gather_spec new_id clock node (Node.subscribed_topics node) [] w)
    as (more & w1 & Heq & Hnil).
  unfold get_node_input. rewrite Heq. intros [= -> ->].
  by destruct (Hnil eq_refl).
Qed.

(** C10.  When [get_node_input] returns the empty list for the node taken
    from the queue, the turn of the loop does nothing but take the node
    from the queue: the engine state after the turn is the state with the
    node popped, so the node body has not been run, no topic has changed
    and the store holds the same events; the loop goes on with the rest of
    the queue.  And a turn of a node leaves nothing behind for a second
    turn: when the topics are well formed and the node does not publish
    to a topic it reads, running the turn of that node again right after
    its turn changes nothing, so a node that stands in the queue more than
    once for the same data is run once. *)
Theorem execute_skips_node_without_input fuel ctx node rest w :
  execution_queue (workflow w) = node :: rest →
  let popped := World (with_queue (workflow w) rest) (event_store w)
                  (created w) (invocations w) in
  (get_node_input new_id clock node popped).1 = inr [] →
  execute_turn new_id clock ctx node popped = (inr (), popped)
  ∧ loop (S fuel) (execute_turn new_id clock ctx) w
    = loop fuel (execute_turn new_id clock ctx) popped
  ∧ ∀ w0 w1,
      (∀ t T, topics (workflow w0) !! t = Some T → Topic.well_formed T) →
      (∀ t, t ∈ Node.subscribed_topics node →
            t ∉ Topic.name <$> Node.publish_to node) →
      execute_turn new_id clock ctx node w0 = (inr (), w1) →
      execute_turn new_id clock ctx node w1 = (inr (), w1).
Proof.
  intros Hqueue popped Hinput.
  assert (Hturn : execute_turn new_id clock ctx node popped
                  = (inr (), popped)).
  { unfold execute_turn, mbind, M_bind.
    destruct (get_node_input new_id clock node popped) as [r w'] eqn:Hget.
    cbn [fst] in Hinput. subst r.
    by rewrite (get_node_input_nil _ _ _ Hget). }
  split; [exact Hturn|]. split.
  { cbn [loop]. unfold mbind at 1, M_bind at 1, get at 1. rewrite Hqueue.
    unfold mbind at 1, M_bind at 1. cbn [set_workflow].
    unfold mbind at 1, M_bind at 1. fold popped. by rewrite Hturn. }
  intros w0 w1 Hwf Hdisj Hfirst.
  unfold execute_turn, mbind at 1, M_bind at 1 in Hfirst.
  pose proof (gather_drains new_id clock node (Node.subscribed_topics node)
                [] w0 (NoDup_remove_dups _)
                (λ t T _ HT, Hwf t T HT)) as Hdrained.
  fold (get_node_input new_id clock node w0) in Hdrained.
  destruct (get_node_input new_id clock node w0) as [r wa] eqn:Hget.
  destruct (get_node_input_returns node w0) as (consumed & wa' & Hret).
  rewrite Hget in Hret. inversion Hret; subst r wa'. cbn [snd] in Hdrained.
  assert (Hsame : same_topics_but (Topic.name <$> Node.publish_to node) wa w1).
  { destruct consumed as [|c consumed].
    - inversion Hfirst; subst w1. done.
    - unfold mbind, M_bind, get, note_invocation in Hfirst.
      destruct (Node.execute node (event_store wa) ctx (c :: consumed))
        as [e|result]; [done|].
      cbn [lift mret M_ret] in Hfirst.
      match type of Hfirst with
      | _publish_events _ _ _ _ ?d ?cs ?wb = _ =>
          pose proof (publish_events_frame new_id clock node ctx d cs wb)
            as Hframe
      end.
      rewrite Hfirst in Hframe. exact Hframe. }
  assert (Hnone : get_node_input new_id clock node w1 = (inr [], w1)).
  { apply gather_nothing. intros t T Hin HT.
    apply (Hdrained t T Hin). rewrite <- HT. symmetry.
    apply Hsame. by apply Hdisj. }
  unfold execute_turn, mbind, M_bind. by rewrite Hnone.
Qed.

End node_without_input.

Lemma execute_skips_node_without_input_witness :
  let popped :=
    EventDrivenWorkflow.World (EventDrivenWorkflow.with_queue
             (EventDrivenWorkflow.workflow WorkflowSample.requeued) [])
      (EventDrivenWorkflow.event_store WorkflowSample.requeued)
      (EventDrivenWorkflow.created WorkflowSample.requeued)
      (EventDrivenWorkflow.invocations WorkflowSample.requeued) in
  EventDrivenWorkflow.execution_queue
    (EventDrivenWorkflow.workflow WorkflowSample.requeued)
  = [WorkflowSample.responder]
  ∧ (EventDrivenWorkflow.get_node_input WorkflowSample.new_id
       WorkflowSample.now WorkflowSample.responder popped).1 = inr []
  ∧ EventDrivenWorkflow.execute_turn WorkflowSample.new_id WorkflowSample.now
      WorkflowSample.request_1 WorkflowSample.responder popped
    = (inr (), popped)
  ∧ ∃ w1,
      EventDrivenWorkflow.execute_turn WorkflowSample.new_id
        WorkflowSample.now WorkflowSample.request_1 WorkflowSample.responder
        WorkflowSample.started = (inr (), w1)
      ∧ EventDrivenWorkflow.execute_turn WorkflowSample.new_id
          WorkflowSample.now WorkflowSample.request_1
          WorkflowSample.responder w1 = (inr (), w1).
Proof.
  intros popped.
  assert (Hq : EventDrivenWorkflow.execution_queue
                 (EventDrivenWorkflow.workflow WorkflowSample.requeued)
               = [WorkflowSample.responder]) by reflexivity.
  assert (Hin : (EventDrivenWorkflow.get_node_input WorkflowSample.new_id
                   WorkflowSample.now WorkflowSample.responder popped).1
                = inr []) by (vm_compute; reflexivity).
  destruct (execute_skips_node_without_input WorkflowSample.new_id
              WorkflowSample.now 0 WorkflowSample.request_1
              WorkflowSample.responder [] WorkflowSample.requeued Hq Hin)
    as (Hturn & _ & Hagain).
  split; [exact Hq|]. split; [exact Hin|]. split; [exact Hturn|].
  eexists. split; [vm_compute; reflexivity|].
  apply (Hagain WorkflowSample.started).
  - intros t T HT.
    assert (Hall : map_Forall (λ _ T, Topic.well_formed T)
                     (EventDrivenWorkflow.topics
                        (EventDrivenWorkflow.workflow WorkflowSample.started)))
      by (apply (bool_decide_unpack _); vm_compute; exact I).
    exact (Hall t T HT).
  - intros t Ht. vm_compute in Ht.
    apply list_elem_of_singleton in Ht. subst t.
    intros Hin'. vm_compute in Hin'.
    apply list_elem_of_singleton in Hin'. discriminate Hin'.
  - vm_compute; reflexivity.
Defined.

(** ** Sorting by timestamp *)

Section sorting.
Import EventDrivenWorkflow.

Lemma insert_by_timestamp_perm m l : insert_by_timestamp m l ≡ₚ m :: l.
Proof.
  induction l as [|x l IH]; simpl; [done|].
  destruct (_ <=? _)%Z; [done|]. rewrite IH. apply Permutation_swap.
Qed.

Lemma insert_by_timestamp_sorted m l :
  StronglySorted earlier_or_same l →
  StronglySorted earlier_or_same (insert_by_timestamp m l).
Proof.
  induction 1 as [|x l Hl IH Hx]; simpl.
  { repeat constructor. }
  destruct (Message.timestamp m <=? Message.timestamp x)%Z eqn:Hle.
  - apply Z.leb_le in Hle. constructor; [by constructor|].
    constructor; [done|].
    eapply Forall_impl; [exact Hx|]. unfold earlier_or_same. intros; lia.
  - apply Z.leb_gt in Hle. constructor; [done|].
    rewrite insert_by_timestamp_perm. constructor; [|done].
    unfold earlier_or_same. lia.
Qed.

Lemma sorted_by_timestamp_perm l : sorted_by_timestamp l ≡ₚ l.
Proof.
  induction l as [|m l IH]; simpl; [done|].
  by rewrite insert_by_timestamp_perm, IH.
Qed.

Lemma sorted_by_timestamp_sorted l :
  StronglySorted earlier_or_same (sorted_by_timestamp l).
Proof.
  induction l as [|m l IH]; simpl; [constructor|].
  by apply insert_by_timestamp_sorted.
Qed.

End sorting.

(** ** Starting a run: [initial_workflow] *)

Lemma as_publish_as_event T p :
  Event.as_publish (Topic.as_event T p) = Some p.
Proof. unfold Topic.as_event. by destruct (Topic.kind_of T). Qed.

Section initial_workflow.
Import EventDrivenWorkflow.
Variable AGENT_INPUT_TOPIC : string.
Variable new_id : nat → string.
Variable clock : nat → Z.

Lemma requeue_nil w : requeue w [] = w.
Proof. destruct w as [[] ? ? ?]. unfold requeue. simpl. by rewrite app_nil_r. Qed.

Lemma requeue_requeue w a b : requeue (requeue w a) b = requeue w (a ++ b).
Proof. unfold requeue. simpl. by rewrite app_assoc. Qed.

Lemma node_named_registered w n :
  n ∈ PyDict.keys (nodes (workflow w)) →
  ∃ node, PyDict.get (nodes (workflow w)) n = Some node
          ∧ node_named n w = (inr node, w).
Proof.
  intros Hin. apply pydict_get_Some in Hin as [node Hnode].
  exists node. split; [done|].
  unfold node_named, mbind, M_bind, get. by rewrite Hnode.
Qed.

Lemma enqueue_requeue w added node :
  enqueue node (requeue w added) = (inr (), requeue w (added ++ [node])).
Proof. unfold enqueue, set_workflow, requeue. simpl. by rewrite app_assoc. Qed.

Lemma enqueue_ready w names :
  Forall (λ n, n ∈ PyDict.keys (nodes (workflow w))) names →
  for_each names (λ node_name,
    node ← node_named node_name;
    w ← get;
    if Node.can_execute node (topics (workflow w))
    then enqueue node else pass) w
  = (inr (), requeue w (ready_subscribers w names)).
Proof.
  intros Hall.
  assert (Hgen : ∀ added,
    for_each names (λ node_name,
      node ← node_named node_name;
      w ← get;
      if Node.can_execute node (topics (workflow w))
      then enqueue node else pass) (requeue w added)
    = (inr (), requeue w (added ++ ready_subscribers w names))).
  { induction Hall as [|n names Hn _ IH]; intros added; simpl.
    { by rewrite app_nil_r. }
    destruct (node_named_registered (requeue w added) n Hn)
      as (node & Hget & Hnamed).
    unfold mbind at 1, M_bind at 1. unfold mbind at 1, M_bind at 1.
    rewrite Hnamed. unfold mbind at 1, M_bind at 1, get at 1.
    cbn [requeue workflow with_queue topics nodes] in Hget |- *.
    unfold ready_subscribers. cbn [omap list_omap]. rewrite Hget.
    destruct (Node.can_execute node (topics (workflow w))).
    - rewrite enqueue_requeue, IH. by rewrite <- app_assoc.
    - cbn [pass mret M_ret]. apply IH. }
  specialize (Hgen []). by rewrite requeue_nil in Hgen.
Qed.

(** In a workflow whose subscriber index names registered nodes only,
    [on_event] returns, and all it does is append the ready subscribers of
    the topic to the queue. *)
Lemma on_event_spec event w :
  graph_closed (workflow w) →
  ∃ added, on_event event w = (inr (), requeue w added).
Proof.
  intros Hclosed. unfold on_event.
  destruct event as [p|p|c|a|n|o];
    try (exists []; by rewrite requeue_nil).
  unfold mbind, M_bind, get.
  destruct (topic_nodes (workflow w) !! PublishToTopicEvent.topic_name p)
    as [names|] eqn:Hnames.
  2:{ exists []. by rewrite requeue_nil. }
  eexists. apply enqueue_ready. exact (Hclosed _ _ Hnames).
Qed.

Lemma bind_run {A B} (m : M A) (f : A → M B) w a w' :
  m w = (inr a, w') → (m ≫= f) w = f a w'.
Proof. intros Hm. unfold mbind, M_bind. by rewrite Hm. Qed.

Lemma assistant_events_values store conversation_id :
  NoDup (AssistantRespondEvent.event_id
           <$> assistant_respond_events store conversation_id) →
  conversation_messages store conversation_id
  = all_messages (assistant_respond_events store conversation_id).
Proof.
  intros Hnd. unfold conversation_messages, all_messages.
  fold (assistant_respond_events store conversation_id).
  rewrite (pydict_comprehension_NoDup _ _ _ Hnd).
  unfold PyDict.values. rewrite <- list_fmap_compose.
  by rewrite list_fmap_id.
Qed.

(** The fresh branch of [initial_workflow], in terms of the queries the
    code makes. *)
Lemma initial_workflow_publishes_history ctx input w T :
  stored_topic_events (event_store w) ctx = [] →
  topics (workflow w) !! AGENT_INPUT_TOPIC = Some T →
  graph_closed (workflow w) →
  let responds :=
    assistant_respond_events (event_store w)
      (ExecutionContext.conversation_id ctx) in
  NoDup (AssistantRespondEvent.event_id <$> responds) →
  Topic.condition T
    (Data.Many (sorted_by_timestamp (all_messages responds) ++ input))
  = true →
  ∃ e sorted w',
    initial_workflow AGENT_INPUT_TOPIC new_id clock ctx input w = (inr (), w')
    ∧ event_store w' = event_store w ++ [Topic.as_event T e]
    ∧ PublishToTopicEvent.topic_name e = Topic.name T
    ∧ PublishToTopicEvent.execution_context e = ctx
    ∧ PublishToTopicEvent.data e = Data.Many (sorted ++ input)
    ∧ sorted ≡ₚ all_messages responds
    ∧ StronglySorted earlier_or_same sorted.
Proof.
  intros Hfresh HT Hclosed responds Hnd Haccept.
  set (sorted := sorted_by_timestamp (all_messages responds)).
  set (data := Data.Many (sorted ++ input)).
  change (Topic.condition T data = true) in Haccept.
  set (e := PublishToTopicEvent.mk (new_id (created w)) (Topic.event_type T)
              (clock (created w)) ctx (Topic.name T) 0
              (name (workflow w)) (type (workflow w)) [] data).
  set (w1 := World (with_topics (workflow w) (Topic.reset <$> topics (workflow w)))
               (event_store w) (created w) (invocations w)).
  set (w3 := World (with_topics (workflow w)
                      (<[AGENT_INPUT_TOPIC :=
                           Topic.with_state T [e] ∅]>
                         (Topic.reset <$> topics (workflow w))))
               (event_store w) (S (created w)) (invocations w)).
  destruct (on_event_spec (Topic.as_event (Topic.reset T) e) w3 Hclosed)
    as (added & Hon).
  exists e, sorted,
    (World (workflow (requeue w3 added))
       (event_store w ++ [Topic.as_event T e]) (S (created w))
       (invocations w)).
  split; [|repeat split;
            [apply sorted_by_timestamp_perm|apply sorted_by_timestamp_sorted]].
  unfold initial_workflow.
  unfold mbind at 1, M_bind at 1. cbn [set_workflow]. fold w1.
  unfold mbind at 1, M_bind at 1, get at 1.
  cbn [event_store w1]. rewrite Hfresh.
  cbn [workflow w1 with_topics topics]. rewrite lookup_fmap, HT.
  cbn [fmap option_fmap option_map].
  rewrite (assistant_events_values _ _ Hnd). fold responds sorted data.
  assert (Hpub : publish_data new_id clock AGENT_INPUT_TOPIC ctx
                   (name (workflow w)) (type (workflow w)) data [] w1
                 = (inr (Some (Topic.as_event T e)), requeue w3 added)).
  { unfold publish_data. unfold mbind at 1, M_bind at 1, get at 1.
    cbn [workflow w1 with_topics topics]. rewrite lookup_fmap, HT.
    cbn [fmap option_fmap option_map].
    unfold Topic.publish_data, Topic.accepts.
    cbn [Topic.reset Topic.with_state Topic.condition Topic.kind_of
         Topic.topic_events Topic.name Topic.consumption_offsets].
    rewrite Haccept.
    replace (match Topic.kind_of T with
             | Topic.Input | _ => true
             end) with true by (by destruct (Topic.kind_of T)).
    cbn [andb length app fmap list_fmap created w1].
    change (Topic.event_type _) with (Topic.event_type T). fold e.
    unfold mbind at 1, M_bind at 1. cbn [next_created].
    unfold mbind at 1, M_bind at 1.
    cbn [set_topic set_workflow workflow with_topics topics event_store
         created invocations name type nodes topic_nodes execution_queue].
    unfold mbind at 1, M_bind at 1.
    match goal with |- context [on_event ?ev ?st] => change st with w3 end.
    by rewrite Hon. }
  unfold mbind at 1, M_bind at 1.
  match goal with
  | |- context [publish_data _ _ _ _ ?n ?ty _ _ _] =>
      change n with (name (workflow w)); change ty with (type (workflow w))
  end.
  rewrite Hpub. reflexivity.
Qed.

Lemma fresh_request_stored_topic_events (store : list Event.t) ctx :
  fresh_request store (ExecutionContext.assistant_request_id ctx) →
  stored_topic_events store ctx = [].
Proof.
  unfold stored_topic_events, EventStoreInMemory.get_agent_events.
  induction 1 as [|e store He _ IH]; [done|].
  cbn [filter list_filter]. destruct (decide _) as [Hid|Hid]; [|exact IH].
  cbn [filter list_filter]. destruct (decide _) as [Htopic|Htopic]; [|exact IH].
  by destruct (He Htopic).
Qed.

Lemma assistant_respond_events_exchanges (store : list Event.t) conv :
  assistant_respond_events store conv = exchanges store conv.
Proof.
  unfold assistant_respond_events, exchanges,
    EventStoreInMemory.get_conversation_events.
  induction store as [|e store IH]; [done|].
  cbn [filter list_filter omap list_omap].
  destruct e as [p|p|c|a|n|o];
    cbn [exchange_of Event.execution_context];
    destruct (decide _);
    cbn [omap list_omap Event.as_assistant_respond];
    first [exact IH | exact (f_equal (cons a) IH)].
Qed.

(** C4.  When no stored publish or consume event carries the id of the
    request, [initial_workflow] does one of two things.  On a workflow
    without entry topic (no topic is registered under
    [AGENT_INPUT_TOPIC]) it raises [AttributeError] and the store is left
    as it was.  On a workflow with an entry topic whose publish policy
    accepts the data, whose subscriber index names registered nodes, and
    with a store in which the [AssistantRespondEvent]s of the
    conversation have distinct ids, it returns and records exactly one
    event, a publish event on the entry topic made for this request,
    whose data is the input and output messages of all stored
    [AssistantRespondEvent]s of the conversation, sorted by timestamp,
    followed by the new input. *)
Theorem initial_workflow_fresh ctx input w :
  fresh_request (event_store w) (ExecutionContext.assistant_request_id ctx) →
  let conversation_id := ExecutionContext.conversation_id ctx in
  (topics (workflow w) !! AGENT_INPUT_TOPIC = None →
   ∃ w',
     initial_workflow AGENT_INPUT_TOPIC new_id clock ctx input w
     = (inl AttributeError, w')
     ∧ event_store w' = event_store w)
  ∧ (∀ T,
       topics (workflow w) !! AGENT_INPUT_TOPIC = Some T →
       graph_closed (workflow w) →
       NoDup (AssistantRespondEvent.event_id
                <$> exchanges (event_store w) conversation_id) →
       (∀ sorted,
          sorted ≡ₚ earlier_messages (event_store w) conversation_id →
          StronglySorted earlier_or_same sorted →
          Topic.condition T (Data.Many (sorted ++ input)) = true) →
       ∃ e sorted w',
         initial_workflow AGENT_INPUT_TOPIC new_id clock ctx input w
         = (inr (), w')
         ∧ event_store w' = event_store w ++ [Topic.as_event T e]
         ∧ Event.as_publish (Topic.as_event T e) = Some e
         ∧ PublishToTopicEvent.topic_name e = Topic.name T
         ∧ PublishToTopicEvent.execution_context e = ctx
         ∧ PublishToTopicEvent.data e = Data.Many (sorted ++ input)
         ∧ sorted ≡ₚ earlier_messages (event_store w) conversation_id
         ∧ StronglySorted earlier_or_same sorted).
Proof.
  intros Hfresh conversation_id.
  apply fresh_request_stored_topic_events in Hfresh. split.
  { intros Hnone.
    set (w1 := with_world_topics w (Topic.reset <$> topics (workflow w))).
    exists w1. split; [|done]. unfold initial_workflow.
    rewrite (bind_run (set_workflow _) _ w () w1 eq_refl).
    rewrite (bind_run get _ w1 w1 w1 eq_refl). cbv zeta.
    change (event_store w1) with (event_store w). rewrite Hfresh.
    cbn [w1 with_world_topics workflow with_topics topics].
    by rewrite lookup_fmap, Hnone. }
  intros T HT Hclosed Hnd Haccept.
  assert (Hmessages :
    all_messages (assistant_respond_events (event_store w) conversation_id)
    = earlier_messages (event_store w) conversation_id).
  { unfold all_messages, earlier_messages.
    by rewrite assistant_respond_events_exchanges. }
  destruct (initial_workflow_publishes_history ctx input w T)
    as (e & sorted & w' & Hrun & Hstore & Hname & Hctx & Hdata & Hperm & Hsorted).
  - exact Hfresh.
  - exact HT.
  - exact Hclosed.
  - fold conversation_id. by rewrite assistant_respond_events_exchanges.
  - fold conversation_id. rewrite Hmessages.
    apply Haccept; [|apply sorted_by_timestamp_sorted].
    apply sorted_by_timestamp_perm.
  - fold conversation_id in Hperm. rewrite Hmessages in Hperm.
    exists e, sorted, w'. repeat split; try done.
    apply as_publish_as_event.
Qed.

End initial_workflow.

Lemma initial_workflow_fresh_witness :
  let w := WorkflowSample.with_history [WorkflowSample.responder] in
  let T := WorkflowSample.agent_input_topic in
  EventDrivenWorkflow.fresh_request (EventDrivenWorkflow.event_store w) "req-1"
  ∧ EventDrivenWorkflow.earlier_messages
      (EventDrivenWorkflow.event_store w) "conv" ≠ []
  ∧ ∃ e sorted w',
      EventDrivenWorkflow.initial_workflow WorkflowSample.AGENT_INPUT_TOPIC
        WorkflowSample.new_id WorkflowSample.now WorkflowSample.request_1
        [Sample.user] w = (inr (), w')
      ∧ EventDrivenWorkflow.event_store w'
        = EventDrivenWorkflow.event_store w ++ [Topic.as_event T e]
      ∧ Event.as_publish (Topic.as_event T e) = Some e
      ∧ PublishToTopicEvent.topic_name e = Topic.name T
      ∧ PublishToTopicEvent.execution_context e = WorkflowSample.request_1
      ∧ PublishToTopicEvent.data e = Data.Many (sorted ++ [Sample.user])
      ∧ sorted ≡ₚ EventDrivenWorkflow.earlier_messages
                    (EventDrivenWorkflow.event_store w) "conv"
      ∧ StronglySorted EventDrivenWorkflow.earlier_or_same sorted.
Proof.
  intros w T. split; [|split].
  - apply (bool_decide_unpack _). vm_compute; exact I.
  - vm_compute; discriminate.
  - refine (proj2 (initial_workflow_fresh WorkflowSample.AGENT_INPUT_TOPIC
                     WorkflowSample.new_id WorkflowSample.now
                     WorkflowSample.request_1 [Sample.user] w _) T _ _ _ _).
    + apply (bool_decide_unpack _). vm_compute; exact I.
    + vm_compute; reflexivity.
    + apply (bool_decide_unpack _). vm_compute; exact I.
    + apply (bool_decide_unpack _). vm_compute; exact I.
    + intros sorted _ _. reflexivity.
Defined.

(** C4, counterexample.  [build] accepts the workflow of one node that
    reads a topic nobody writes to and writes to the terminal topic; it
    has no entry topic.  For a request the empty store holds nothing of,
    [initial_workflow] raises [AttributeError] and no event is
    recorded. *)
Lemma initial_workflow_without_entry_topic :
  let w := WorkflowSample.fresh [WorkflowSample.closer] in
  let run :=
    EventDrivenWorkflow.initial_workflow WorkflowSample.AGENT_INPUT_TOPIC
      WorkflowSample.new_id WorkflowSample.now WorkflowSample.request_1
      [Sample.user] w in
  (∃ built, WorkflowSample.build [WorkflowSample.closer] = inr built
            ∧ EventDrivenWorkflow.workflow w = built)
  ∧ EventDrivenWorkflow.fresh_request (EventDrivenWorkflow.event_store w)
      (ExecutionContext.assistant_request_id WorkflowSample.request_1)
  ∧ run.1 = inl AttributeError
  ∧ EventDrivenWorkflow.event_store run.2 = [].
Proof.
  intros w run. split; [|split; [|split]].
  - eexists. split; vm_compute; reflexivity.
  - apply (bool_decide_unpack _). vm_compute; exact I.
  - vm_compute; reflexivity.
  - vm_compute; reflexivity.
Qed.

(** ** Resuming a run *)

Section resume.
Import EventDrivenWorkflow.
Variable AGENT_INPUT_TOPIC : string.
Variable new_id : nat → string.
Variable clock : nat → Z.

Lemma event_same_but_data_refl p : Topic.event_same_but_data p p.
Proof. by destruct p. Qed.

Lemma event_same_but_data_trans p1 p2 p3 :
  Topic.event_same_but_data p1 p2 → Topic.event_same_but_data p2 p3 →
  Topic.event_same_but_data p1 p3.
Proof. unfold Topic.event_same_but_data. intros -> ->. done. Qed.

Lemma event_same_but_data_offset p p' :
  Topic.event_same_but_data p p' →
  PublishToTopicEvent.offset p' = PublishToTopicEvent.offset p
  ∧ PublishToTopicEvent.event_id p' = PublishToTopicEvent.event_id p.
Proof. by intros ->. Qed.

Lemma Forall2_refl_all {A} (R : A → A → Prop) (l : list A) :
  (∀ x, R x x) → Forall2 R l l.
Proof. intros HR. induction l; by constructor. Qed.

Lemma Forall2_trans_all {A} (R : A → A → Prop) (l1 l2 l3 : list A) :
  (∀ x y z, R x y → R y z → R x z) →
  Forall2 R l1 l2 → Forall2 R l2 l3 → Forall2 R l1 l3.
Proof.
  intros HR H12. revert l3. induction H12; intros l3 H23;
    inversion H23; subst; constructor; eauto.
Qed.

Lemma topic_same_but_data_refl T : Topic.same_but_data T T.
Proof.
  repeat split. apply Forall2_refl_all, event_same_but_data_refl.
Qed.

Lemma topic_same_but_data_trans T1 T2 T3 :
  Topic.same_but_data T1 T2 → Topic.same_but_data T2 T3 →
  Topic.same_but_data T1 T3.
Proof.
  intros (Hn & Hk & Hc & Ho & He & Hid) (Hn' & Hk' & Hc' & Ho' & He' & Hid').
  repeat split; try congruence.
  - eapply Forall2_trans_all; [apply event_same_but_data_trans|done..].
  - intros Hne. rewrite Hid' by congruence. by apply Hid.
Qed.

Lemma stored_same_but_data_refl e : stored_same_but_data e e.
Proof. destruct e; try done; apply event_same_but_data_refl. Qed.

Lemma stored_same_but_data_trans e1 e2 e3 :
  stored_same_but_data e1 e2 → stored_same_but_data e2 e3 →
  stored_same_but_data e1 e3.
Proof.
  destruct e1, e2; simpl; try (by intros ? ?; simplify_eq);
    destruct e3; simpl; try (by intros ? ?; simplify_eq);
    apply event_same_but_data_trans.
Qed.

(** The consumer has something to consume in one topic iff it has in the
    other. *)
Lemma same_but_data_can_consume T T' c :
  Topic.same_but_data T T' → Topic.can_consume T' c = Topic.can_consume T c.
Proof.
  intros (_ & _ & _ & Ho & He & _).
  unfold Topic.can_consume, Topic.unconsumed. rewrite Ho.
  destruct (Topic.consumption_offsets T !! c) as [last|].
  - pose proof (Forall2_filter Topic.event_same_but_data
                  (λ e, last < PublishToTopicEvent.offset e)
                  (Topic.topic_events T) (Topic.topic_events T')) as Hf.
    destruct Hf as [|x y l k _ _]; [|done|done..].
    intros x y Hxy. by destruct (event_same_but_data_offset _ _ Hxy) as [-> _].
  - by destruct He.
Qed.

Lemma same_but_data_can_execute node w w' :
  topics_same_but_data w w' →
  Node.can_execute node (topics (workflow w'))
  = Node.can_execute node (topics (workflow w)).
Proof.
  intros Hsame. unfold Node.can_execute.
  assert (Hfun : ∀ t,
    match topics (workflow w') !! t with
    | Some topic => Topic.can_consume topic (Node.name node)
    | None => false
    end
    = match topics (workflow w) !! t with
      | Some topic => Topic.can_consume topic (Node.name node)
      | None => false
      end).
  { intros t. destruct (Hsame t) as [T T' HT|]; [|done].
    by apply same_but_data_can_consume. }
  induction (Node.subscribed_expressions node) as [|e es IH]; [done|].
  simpl. rewrite IH. f_equal.
  induction e as [T|l IHl r IHr|l IHl r IHr]; simpl;
    [apply Hfun|by rewrite IHl, IHr..].
Qed.

Lemma human_append_mono stored w w' e :
  topics_same_but_data w w' → human_append stored w' e →
  human_append stored w e.
Proof.
  intros Hsame (p & p0 & T' & -> & Hin & Hid & HT' & Hkind).
  specialize (Hsame (PublishToTopicEvent.topic_name p0)).
  rewrite HT' in Hsame. inversion Hsame as [T ? HT Heq|]; subst.
  exists p, p0, T. repeat split; try done.
  destruct HT as (_ & Hk & _). congruence.
Qed.

Lemma human_append_update stored w e e' :
  human_append stored w e → stored_same_but_data e e' →
  human_append stored w e'.
Proof.
  intros (p & p0 & T & -> & Hin & Hid & HT & Hkind) Hsame.
  destruct e' as [p'| | | | |]; try done. simpl in Hsame.
  exists p', p0, T. repeat split; try done.
  destruct (event_same_but_data_offset _ _ Hsame) as [_ ->]. done.
Qed.

Global Instance resumed_preorder stored : PreOrder (resumed stored).
Proof.
  split.
  - intros w. repeat split; try done.
    + intros t. destruct (topics (workflow w) !! t); constructor.
      apply topic_same_but_data_refl.
    + exists (event_store w), []. rewrite app_nil_r. repeat split.
      * apply Forall2_refl_all, stored_same_but_data_refl.
      * constructor.
  - intros w1 w2 w3 (Ht & Hn & Htn & Hc & Hi & u & a & Hs & Hu & Ha)
                    (Ht' & Hn' & Htn' & Hc' & Hi' & u' & a' & Hs' & Hu' & Ha').
    repeat split; try congruence.
    + intros t. specialize (Ht t). specialize (Ht' t).
      destruct Ht as [T1 T2 H12|]; inversion Ht' as [? T3 H23|]; subst;
        constructor. by eapply topic_same_but_data_trans.
    + rewrite Hs in Hu'.
      apply Forall2_app_inv_l in Hu' as (u1 & u2 & Hu1 & Hu2 & ->).
      exists u1, (u2 ++ a'). split; [by rewrite Hs', app_assoc|]. split.
      * eapply Forall2_trans_all; [apply stored_same_but_data_trans|done..].
      * apply Forall_app. split.
        -- clear -Ha Hu2. induction Hu2 as [|x y l k Hxy _ IH];
             [constructor|].
           inversion Ha; subst. constructor; [|by apply IH].
           by eapply human_append_update.
        -- eapply Forall_impl; [exact Ha'|]. intros e He.
           by eapply human_append_mono.
Qed.

Lemma resumed_resumable_node stored w w' t n :
  resumed stored w w' → resumable_node w' t n = resumable_node w t n.
Proof.
  intros (Ht & Hn & _). unfold resumable_node. rewrite Hn.
  destruct (PyDict.get (nodes (workflow w)) n) as [node|]; [|done].
  rewrite (same_but_data_can_execute node w w' Ht).
  destruct (Ht t) as [T T' HT|]; [|done].
  by rewrite (same_but_data_can_consume T T' n HT).
Qed.

Lemma merge_into_same_but_data id input p :
  Topic.event_same_but_data p (Topic.merge_into id input p).
Proof.
  unfold Topic.merge_into. destruct (decide _); [by destruct p|].
  apply event_same_but_data_refl.
Qed.

Lemma append_user_input_same_but_data T p input :
  Topic.kind_of T = Topic.HumanRequest →
  Topic.same_but_data T (Topic.append_user_input T p input).1.
Proof.
  intros Hkind. repeat split; [|congruence].
  cbn [Topic.append_user_input fst Topic.with_state Topic.topic_events].
  induction (Topic.topic_events T) as [|e es IH]; [constructor|].
  rewrite fmap_cons. constructor; [apply merge_into_same_but_data|done].
Qed.

Lemma append_user_input_id T p input :
  PublishToTopicEvent.event_id (Topic.append_user_input T p input).2
  = PublishToTopicEvent.event_id p.
Proof.
  cbn [Topic.append_user_input snd Topic.merged PublishToTopicEvent.event_id].
  destruct (list_find _ _) as [[i e]|] eqn:Hfind; [|done].
  by apply list_find_Some in Hfind as (_ & ? & _).
Qed.

Lemma topics_same_but_data_insert w t T T' :
  topics (workflow w) !! t = Some T → Topic.same_but_data T T' →
  topics_same_but_data w
    (with_world_topics w (<[t := T']> (topics (workflow w)))).
Proof.
  intros HT Hsame t'. cbn [with_world_topics workflow with_topics topics].
  destruct (decide (t = t')) as [<-|Hne].
  - rewrite lookup_insert_eq, HT. by constructor.
  - rewrite lookup_insert_ne by done.
    destruct (topics (workflow w) !! t'); constructor.
    apply topic_same_but_data_refl.
Qed.

Lemma topic_named_registered w t T :
  topics (workflow w) !! t = Some T → topic_named t w = (inr T, w).
Proof. intros HT. unfold topic_named, mbind, M_bind, get. by rewrite HT. Qed.

(** One subscriber of the topic of a stored publish event: the node is
    appended to the queue iff it can still consume and is ready; apart
    from that, only a human-input append changes anything. *)
Lemma resume_node_spec stored p input n w :
  p ∈ stored →
  n ∈ PyDict.keys (nodes (workflow w)) →
  is_Some (topics (workflow w) !! PublishToTopicEvent.topic_name p) →
  ∃ w',
    resume_node (PublishToTopicEvent.topic_name p) p input n w = (inr (), w')
    ∧ resumed stored w w'
    ∧ execution_queue (workflow w')
      = execution_queue (workflow w)
        ++ option_list
             (resumable_node w (PublishToTopicEvent.topic_name p) n).
Proof.
  intros Hp Hn [T HT].
  destruct (node_named_registered w n Hn) as (node & Hget & Hnamed).
  unfold resume_node, resumable_node.
  rewrite (bind_run _ _ _ _ _ Hnamed).
  rewrite (bind_run _ _ _ _ _ (topic_named_registered w _ T HT)).
  rewrite (bind_run get _ w w w eq_refl). rewrite Hget, HT.
  destruct (Topic.can_consume T n && Node.can_execute node _) eqn:Htest.
  2:{ exists w. split; [done|]. split; [reflexivity|].
      by rewrite app_nil_r. }
  destruct (Topic.can_append_user_input T n p) eqn:Happend.
  2:{ eexists. split; [reflexivity|]. split; [|done].
      repeat split; try done.
      - intros t. cbn. destruct (topics (workflow w) !! t); constructor.
        apply topic_same_but_data_refl.
      - exists (event_store w), []. rewrite app_nil_r. repeat split.
        + apply Forall2_refl_all, stored_same_but_data_refl.
        + constructor. }
  assert (Hkind : Topic.kind_of T = Topic.HumanRequest).
  { unfold Topic.can_append_user_input in Happend.
    apply andb_true_iff in Happend as [Hk _].
    by apply bool_decide_eq_true in Hk. }
  pose proof (append_user_input_same_but_data T p input Hkind) as Hsame.
  pose proof (append_user_input_id T p input) as Hid.
  destruct (Topic.append_user_input T p input) as [T' ev] eqn:Happ.
  cbn [fst snd] in Hsame, Hid.
  eexists. split; [reflexivity|]. split; [|done].
  split; [|repeat split; try done].
  - intros t. cbn.
    pose proof (topics_same_but_data_insert w _ T T' HT Hsame t) as Hins.
    exact Hins.
  - eexists _, _. split; [reflexivity|]. split.
    + cbn. clear. induction (event_store w) as [|e es IH]; [constructor|].
      rewrite fmap_cons. constructor; [|done].
      destruct e; try done; apply merge_into_same_but_data.
    + constructor; [|constructor].
      exists ev, p, T. repeat split; try done.
      unfold Topic.as_event. by rewrite Hkind.
Qed.

Lemma resumed_is_Some stored w w' t :
  resumed stored w w' →
  is_Some (topics (workflow w) !! t) → is_Some (topics (workflow w') !! t).
Proof.
  intros (Ht & _) [T HT]. specialize (Ht t). rewrite HT in Ht.
  inversion Ht. by eexists.
Qed.

(** All subscribers of the topic of one stored publish event. *)
Lemma resume_nodes_spec stored p input names w :
  p ∈ stored →
  Forall (λ n, n ∈ PyDict.keys (nodes (workflow w))) names →
  is_Some (topics (workflow w) !! PublishToTopicEvent.topic_name p) →
  ∃ w',
    for_each names (resume_node (PublishToTopicEvent.topic_name p) p input) w
    = (inr (), w')
    ∧ resumed stored w w'
    ∧ execution_queue (workflow w')
      = execution_queue (workflow w)
        ++ omap (resumable_node w (PublishToTopicEvent.topic_name p)) names.
Proof.
  intros Hp Hnames Htopic.
  assert (Hgen : ∀ wc,
    resumed stored w wc →
    ∃ w',
      for_each names (resume_node (PublishToTopicEvent.topic_name p) p input)
        wc = (inr (), w')
      ∧ resumed stored w w'
      ∧ execution_queue (workflow w')
        = execution_queue (workflow wc)
          ++ omap (resumable_node w (PublishToTopicEvent.topic_name p))
               names).
  { induction Hnames as [|n names Hn _ IH]; intros wc Hwc.
    { exists wc. split; [done|]. split; [done|]. by rewrite app_nil_r. }
    destruct (resume_node_spec stored p input n wc Hp) as (w1 & Hrun & H1 & Hq1).
    { destruct Hwc as (_ & -> & _). exact Hn. }
    { by eapply resumed_is_Some. }
    assert (Hw1 : resumed stored w w1) by (by etrans).
    destruct (IH w1 Hw1) as (w' & Hrest & Hw' & Hq').
    exists w'. split; [|split; [done|]].
    - simpl. unfold mbind, M_bind. by rewrite Hrun.
    - rewrite Hq', Hq1, (resumed_resumable_node stored w wc _ _ Hwc).
      cbn [omap list_omap].
      destruct (resumable_node w _ n); simpl; by rewrite <- ?app_assoc, ?app_nil_r. }
  apply Hgen. reflexivity.
Qed.

Lemma omap_ext_all {A B} (f g : A → option B) (l : list A) :
  (∀ x, f x = g x) → omap f l = omap g l.
Proof.
  intros Hfg. induction l as [|x l IH]; [done|].
  cbn [omap list_omap]. by rewrite Hfg, IH.
Qed.

(** The subscribers of the topics of the stored publish events, one event
    after the other. *)
Lemma resume_events_spec stored ps input w :
  ps ⊆ stored →
  Forall (λ p, is_Some (topics (workflow w)
                          !! PublishToTopicEvent.topic_name p)) ps →
  graph_closed (workflow w) →
  ∃ w',
    for_each ps (λ publish_event,
      let topic_name := PublishToTopicEvent.topic_name publish_event in
      w ← get;
      match topic_nodes (workflow w) !! topic_name with
      | None => pass
      | Some subscribed_nodes =>
          topic_named topic_name;;
          for_each subscribed_nodes
            (resume_node topic_name publish_event input)
      end) w = (inr (), w')
    ∧ resumed stored w w'
    ∧ execution_queue (workflow w')
      = execution_queue (workflow w)
        ++ (ps ≫= λ p,
              match topic_nodes (workflow w)
                    !! PublishToTopicEvent.topic_name p with
              | Some names =>
                  omap (resumable_node w (PublishToTopicEvent.topic_name p))
                    names
              | None => []
              end).
Proof.
  intros Hsub Htopics Hclosed.
  set (body := λ publish_event : PublishToTopicEvent.t, _).
  set (nodes_of := λ p : PublishToTopicEvent.t, _).
  assert (Hgen : ∀ wc,
    resumed stored w wc →
    ∃ w',
      for_each ps body wc = (inr (), w')
      ∧ resumed stored w w'
      ∧ execution_queue (workflow w')
        = execution_queue (workflow wc) ++ (ps ≫= nodes_of)).
  { clear -Hsub Htopics Hclosed.
    induction ps as [|p ps IH]; intros wc Hwc.
    { exists wc. split; [done|]. split; [done|]. by rewrite app_nil_r. }
    apply Forall_cons in Htopics as [Htopic Htopics].
    assert (Hp : p ∈ stored) by (apply Hsub; left).
    assert (Hps : ps ⊆ stored) by (intros x Hx; apply Hsub; by right).
    assert (Hstep : ∃ w1,
      body p wc = (inr (), w1) ∧ resumed stored wc w1
      ∧ execution_queue (workflow w1)
        = execution_queue (workflow wc) ++ nodes_of p).
    { unfold body, nodes_of.
      rewrite (bind_run get _ wc wc wc eq_refl).
      destruct Hwc as (Hts & Hns & Htn & Hrest). rewrite Htn.
      destruct (topic_nodes (workflow w) !! _) as [names|] eqn:Hnames.
      2:{ exists wc. split; [done|]. split; [reflexivity|].
          by rewrite app_nil_r. }
      assert (Hwc : resumed stored w wc) by done.
      pose proof (resumed_is_Some stored w wc _ Hwc Htopic) as [Tc HTc].
      rewrite (bind_run _ _ _ _ _ (topic_named_registered wc _ Tc HTc)).
      destruct (resume_nodes_spec stored p input names wc Hp)
        as (w1 & Hrun & H1 & Hq1).
      { rewrite Hns. by apply (Hclosed _ _ Hnames). }
      { by eexists. }
      exists w1. split; [done|]. split; [done|].
      rewrite Hq1. f_equal. apply omap_ext_all. intros n.
      by apply resumed_resumable_node with stored. }
    destruct Hstep as (w1 & Hrun & H1 & Hq1).
    assert (Hw1 : resumed stored w w1) by (by etrans).
    destruct (IH Hps Htopics w1 Hw1) as (w' & Hrest & Hw' & Hq').
    exists w'. split; [|split; [done|]].
    - cbn [for_each]. by rewrite (bind_run _ _ _ _ _ Hrun).
    - rewrite Hq', Hq1. by rewrite bind_cons, app_assoc. }
  apply Hgen. reflexivity.
Qed.

Lemma with_world_topics_same w :
  with_world_topics w (topics (workflow w)) = w.
Proof. by destruct w as [[] ? ? ?]. Qed.

(** The first loop of the resume branch: every stored event is restored
    into its topic. *)
Lemma restore_loop_spec events w :
  Forall (λ e, ∀ t, Event.topic_name e = Some t →
               is_Some (topics (workflow w) !! t)) events →
  for_each events (λ event,
    match Event.topic_name event with
    | Some topic_name =>
        topic ← topic_named topic_name;
        set_topic topic_name (Topic.restore_topic topic event)
    | None => pass
    end) w
  = (inr (),
     with_world_topics w (restore_all (topics (workflow w)) events)).
Proof.
  intros Hreg. set (body := λ event : Event.t, _).
  revert w Hreg. induction events as [|e es IH]; intros w Hreg.
  { simpl. by rewrite with_world_topics_same. }
  apply Forall_cons in Hreg as [He Hes].
  cbn [for_each restore_all foldl].
  destruct (Event.topic_name e) as [t|] eqn:Ht.
  2:{ assert (Hbody : body e w = (inr (), w)).
      { unfold body. by rewrite Ht. }
      rewrite (bind_run _ _ _ _ _ Hbody). by apply IH. }
  destruct (He t eq_refl) as [T HT]. rewrite HT.
  assert (Hbody : body e w
    = (inr (), with_world_topics w
                 (<[t := Topic.restore_topic T e]> (topics (workflow w))))).
  { unfold body. rewrite Ht.
    by rewrite (bind_run _ _ _ _ _ (topic_named_registered w _ T HT)). }
  rewrite (bind_run _ _ _ _ _ Hbody). rewrite IH.
  - done.
  - eapply Forall_impl; [exact Hes|]. intros e' He' t' Ht'.
    cbn [with_world_topics workflow with_topics topics].
    apply lookup_insert_is_Some'. right. by apply He'.
Qed.

Lemma restore_all_is_Some ts events t :
  is_Some (ts !! t) → is_Some (restore_all ts events !! t).
Proof.
  revert ts. induction events as [|e es IH]; intros ts Hts; [done|].
  cbn [restore_all foldl]. apply IH.
  destruct (Event.topic_name e) as [t'|]; [|done].
  destruct (ts !! t') eqn:Ht'; [|done].
  apply lookup_insert_is_Some'. by right.
Qed.


End resume.


(** ** The asynchronous mode *)

Section streaming.
Import EventDrivenWorkflow.
Variable new_id : nat → string.
Variable clock : nat → Z.

(** Publishing to one topic: the store and the record of invocations stay,
    only that topic changes, and the event returned, if any, carries the
    data; there is one when the topic is registered and accepts. *)
Lemma publish_data_spec node ctx result consumed t w :
  graph_closed (workflow w) →
  ∃ r w',
    publish_data new_id clock t ctx (Node.name node) (Node.type node) result
      consumed w = (inr r, w')
    ∧ event_store w' = event_store w
    ∧ invocations w' = invocations w
    ∧ nodes (workflow w') = nodes (workflow w)
    ∧ topic_nodes (workflow w') = topic_nodes (workflow w)
    ∧ same_topics_but [t] w w'
    ∧ (∀ e, r = Some e → published_for node ctx result consumed e)
    ∧ (∀ Tw, topics (workflow w) !! t = Some Tw →
             Topic.accepts Tw result = true →
             ∃ p, r = Some (Topic.as_event Tw p)
                  ∧ PublishToTopicEvent.topic_name p = Topic.name Tw
                  ∧ PublishToTopicEvent.data p = result).
Proof.
  intros Hclosed.
  pose proof (publish_data_frame new_id clock t ctx (Node.name node)
                (Node.type node) result consumed w) as Hframe.
  unfold publish_data in *.
  rewrite (bind_run get _ w w w eq_refl) in *.
  destruct (topics (workflow w) !! t) as [Tw|] eqn:HTw.
  2:{ exists None, w. by repeat split. }
  unfold Topic.publish_data in *.
  destruct (Topic.accepts Tw result) eqn:Hacc.
  2:{ exists None, w. repeat split; try done. intros ? [= <-]. congruence. }
  set (p := PublishToTopicEvent.mk _ _ _ _ _ _ _ _ _ _) in *.
  set (T' := Topic.with_state _ _ _) in *.
  set (w3 := World (with_topics (workflow w)
                      (<[t := T']> (topics (workflow w))))
               (event_store w) (S (created w)) (invocations w)).
  destruct (on_event_spec (Topic.as_event Tw p) w3 Hclosed) as (added & Hon).
  assert (Hrun :
    (next_created;; set_topic t T';; on_event (Topic.as_event Tw p);;
     mret (Some (Topic.as_event Tw p))) w
    = (inr (Some (Topic.as_event Tw p)), requeue w3 added)).
  { set (w2 := World (workflow w) (event_store w) (S (created w))
                 (invocations w)).
    rewrite (bind_run next_created _ w (created w) w2 eq_refl).
    rewrite (bind_run (set_topic t T') _ w2 () w3 eq_refl).
    by rewrite (bind_run _ _ _ _ _ Hon). }
  rewrite Hrun in Hframe |- *.
  exists (Some (Topic.as_event Tw p)), (requeue w3 added).
  split; [done|]. repeat split; try done.
  - intros e [= <-]. exists p. by rewrite as_publish_as_event.
  - intros ? [= <-] _. by exists p.
Qed.

(** Publishing to the target topics of a node, one after the other. *)
Lemma publish_events_spec node ctx result consumed w :
  graph_closed (workflow w) →
  ∃ published w',
    _publish_events new_id clock node ctx result consumed w = (inr (), w')
    ∧ event_store w'
      = event_store w ++ (Event.Consume <$> consumed) ++ published
    ∧ invocations w' = invocations w
    ∧ Forall (published_for node ctx result consumed) published
    ∧ reaches_targets node w result published.
Proof.
  intros Hclosed. unfold _publish_events, reaches_targets.
  set (body := λ (published_events : list Event.t) (topic : Topic.t), _).
  assert (Hgen : ∀ l acc w0,
    graph_closed (workflow w0) →
    ∃ published w',
      fold_m body acc l w0 = (inr (acc ++ published), w')
      ∧ event_store w' = event_store w0
      ∧ invocations w' = invocations w0
      ∧ Forall (published_for node ctx result consumed) published
      ∧ ∀ T Tw,
          T ∈ l →
          topics (workflow w0) !! Topic.name T = Some Tw →
          Topic.accepts Tw result = true →
          ∃ p, Topic.as_event Tw p ∈ published
               ∧ PublishToTopicEvent.topic_name p = Topic.name Tw
               ∧ PublishToTopicEvent.data p = result).
  { clear w Hclosed. induction l as [|T l IH]; intros acc w0 Hclosed.
    { exists [], w0. rewrite app_nil_r. repeat split; try done.
      intros T Tw HT. by apply elem_of_nil in HT. }
    destruct (publish_data_spec node ctx result consumed (Topic.name T) w0
                Hclosed)
      as (r & w1 & Hrun & Hstore & Hinv & Hnodes & Htn & Hframe & Hr & Hacc).
    assert (Hclosed1 : graph_closed (workflow w1)).
    { unfold graph_closed. by rewrite Hnodes, Htn. }
    destruct (IH (match r with Some e => acc ++ [e] | None => acc end) w1
                Hclosed1)
      as (published & w' & Hrest & Hstore' & Hinv' & Hall & Hreach).
    exists (option_list r ++ published), w'.
    split; [|split; [congruence|split; [congruence|split]]].
    - assert (Hbody : body acc T w0
        = (inr (match r with Some e => acc ++ [e] | None => acc end), w1)).
      { unfold body. by rewrite (bind_run _ _ _ _ _ Hrun). }
      cbn [fold_m]. rewrite (bind_run _ _ _ _ _ Hbody).
      rewrite Hrest. destruct r; simpl; by rewrite <- ?app_assoc.
    - apply Forall_app. split; [|done].
      destruct r as [e|]; [|constructor].
      constructor; [by apply Hr|constructor].
    - intros T0 Tw0 HT0 HTw0 Haccepts.
      destruct (decide (Topic.name T0 = Topic.name T)) as [Heq|Hne].
      + rewrite Heq in HTw0.
        destruct (Hacc Tw0 HTw0 Haccepts) as (p & -> & Hp).
        exists p. split; [|done]. apply elem_of_app. left. simpl. left.
      + apply elem_of_cons in HT0 as [->|HT0]; [done|].
        destruct (Hreach T0 Tw0 HT0) as (p & Hin & Hp); [|done|].
        * rewrite Hframe; [done|]. by intros ?%list_elem_of_singleton.
        * exists p. split; [|done]. apply elem_of_app. by right. }
  destruct (Hgen (Node.publish_to node) [] w Hclosed)
    as (published & w' & Hrun & Hstore & Hinv & Hall & Hreach).
  eexists published, _. split.
  { rewrite (bind_run _ _ _ _ _ Hrun). reflexivity. }
  cbn [event_store invocations EventStoreInMemory.record_events].
  unfold EventStoreInMemory.record_events. rewrite Hstore.
  by repeat split.
Qed.

Lemma get_node_input_same_graph node :
  keeps same_graph (get_node_input new_id clock node).
Proof.
  unfold get_node_input. keeps_step. unfold consume_topic.
  keeps_step; [keeps_step|].
  destruct (_ !! _); [|keeps_step].
  destruct (Topic.can_consume _ _); [|keeps_step].
  destruct (Topic.consume _ _) as [T evs].
  keeps_step; [by intros w|]. unfold wrap_consumed.
  keeps_step. keeps_step; [by intros w|keeps_step].
Qed.


End streaming.



(** ** The events a run records *)

Section store_invariant.
Import EventDrivenWorkflow.
Variable AGENT_INPUT_TOPIC : string.
Variable new_id : nat → string.
Variable clock : nat → Z.

Lemma option_Forall2_Some_l {A B} (R : A → B → Prop) x my :
  option_Forall2 R (Some x) my → ∃ y, my = Some y ∧ R x y.
Proof. inversion 1; subst. by eexists. Qed.

Lemma option_Forall2_Some_r {A B} (R : A → B → Prop) mx y :
  option_Forall2 R mx (Some y) → ∃ x, mx = Some x ∧ R x y.
Proof. inversion 1; subst. by eexists. Qed.

Global Instance same_shape_preorder : PreOrder same_shape.
Proof.
  split.
  - intros w. repeat split. intros t.
    destruct (topics (workflow w) !! t); by constructor.
  - intros a b c (Hn1 & Ht1 & Hab) (Hn2 & Ht2 & Hbc).
    split; [congruence|]. split; [congruence|]. intros t.
    specialize (Hab t). specialize (Hbc t).
    destruct Hab as [T1 T2 [? ?]|]; inversion Hbc as [? T3 [? ?]|]; subst;
      constructor. split; congruence.
Qed.

Global Instance cursors_moved_preorder : PreOrder cursors_moved.
Proof.
  split.
  - intros w. repeat split. intros t.
    destruct (topics (workflow w) !! t); by constructor.
  - intros a b c (?&?&?&?& Hab) (?&?&?&?& Hbc).
    repeat (split; [congruence|]). intros t.
    specialize (Hab t). specialize (Hbc t).
    destruct Hab as [T1 T2 (?&?&?)|]; inversion Hbc as [? T3 (?&?&?)|]; subst;
      constructor. repeat split; congruence.
Qed.

Lemma cursors_moved_same_shape w w' : cursors_moved w w' → same_shape w w'.
Proof.
  intros (_&_&Hn&Ht&H). split; [done|]. split; [done|]. intros t.
  destruct (H t) as [T T' (?&?&?)|]; by constructor.
Qed.

Lemma same_shape_graph_closed w w' :
  same_shape w w' → graph_closed (workflow w) → graph_closed (workflow w').
Proof. intros (Hn & Ht & _). unfold graph_closed. by rewrite Hn, Ht. Qed.

Lemma same_shape_plain_topics w w' :
  same_shape w w' → plain_topics (workflow w) → plain_topics (workflow w').
Proof.
  intros (_ & _ & H) Hplain t T' HT'. specialize (H t).
  rewrite HT' in H.
  apply option_Forall2_Some_r in H as (T & HT & Hname & Hkind).
  destruct (Hplain t T HT) as [? ?]. split; congruence.
Qed.

Lemma cursors_moved_coupled r w w' :
  cursors_moved w w' → coupled r w → coupled r w'.
Proof.
  intros (Hstore & _ & _ & _ & H) Hc t T' HT'. specialize (H t).
  rewrite HT' in H.
  apply option_Forall2_Some_r in H as (T & HT & _ & _ & Hev).
  rewrite Hev, Hstore. by apply Hc.
Qed.

Lemma cursors_moved_consumed_in w w' c :
  cursors_moved w w' → consumed_in w c → consumed_in w' c.
Proof.
  intros (_ & _ & _ & _ & H) (t & T & p & HT & Hp & Hc). specialize (H t).
  rewrite HT in H.
  apply option_Forall2_Some_l in H as (T' & HT' & _ & _ & Hev).
  exists t, T', p. by rewrite Hev.
Qed.

(** *** The store as a list *)

Lemma get_agent_events_app (s1 s2 : list Event.t) r :
  EventStoreInMemory.get_agent_events (s1 ++ s2) r
  = EventStoreInMemory.get_agent_events s1 r
    ++ EventStoreInMemory.get_agent_events s2 r.
Proof. apply filter_app. Qed.

Lemma published_on_app (s1 s2 : list Event.t) r t :
  published_on (s1 ++ s2) r t = published_on s1 r t ++ published_on s2 r t.
Proof.
  unfold published_on.
  by rewrite get_agent_events_app, omap_app, filter_app.
Qed.

Lemma published_on_consume cs r t :
  published_on (Event.Consume <$> cs) r t = [].
Proof.
  induction cs as [|c cs IH]; [done|]. rewrite fmap_cons.
  change (Event.Consume c :: (Event.Consume <$> cs))
    with ([Event.Consume c] ++ (Event.Consume <$> cs)).
  rewrite published_on_app, IH, app_nil_r.
  unfold published_on, EventStoreInMemory.get_agent_events.
  cbn [filter list_filter]. by destruct (decide _).
Qed.

Lemma unconsumed_subseteq T n : Topic.unconsumed T n ⊆ Topic.topic_events T.
Proof.
  unfold Topic.unconsumed. destruct (_ !! _); [|done].
  intros p Hp. by apply list_elem_of_filter in Hp as [_ ?].
Qed.

(** *** Gathering input moves cursors only *)

Lemma consume_topic_moves node acc t w :
  ∃ more w',
    consume_topic new_id clock node acc t w = (inr (acc ++ more), w')
    ∧ cursors_moved w w'
    ∧ Forall (consumed_in w') more.
Proof.
  unfold consume_topic. rewrite (bind_run get _ w w w eq_refl).
  destruct (topics (workflow w) !! t) as [T|] eqn:HT.
  2:{ exists [], w. rewrite app_nil_r.
      split; [done|]. split; [reflexivity|constructor]. }
  destruct (Topic.can_consume T (Node.name node)).
  2:{ exists [], w. rewrite app_nil_r.
      split; [done|]. split; [reflexivity|constructor]. }
  unfold Topic.consume.
  set (T' := match last (Topic.topic_events T) with
             | Some e => _ | None => T end).
  set (w1 := World (with_topics (workflow w)
                      (<[t := T']> (topics (workflow w))))
               (event_store w) (created w) (invocations w)).
  rewrite (bind_run (set_topic t T') _ w () w1 eq_refl).
  rewrite wrap_consumed_spec. eexists _, _. split; [reflexivity|].
  assert (Hmoved : cursors_moved w
    (World (workflow w1) (event_store w1)
       (created w1 + length (Topic.unconsumed T (Node.name node)))
       (invocations w1))).
  { repeat split. intros t0. cbn.
    destruct (decide (t = t0)) as [<-|Hne].
    - rewrite lookup_insert_eq, HT. constructor. unfold T'.
      by destruct (last _).
    - rewrite lookup_insert_ne by done.
      destruct (topics (workflow w) !! t0); by constructor. }
  split; [exact Hmoved|].
  apply Forall_forall. intros c Hc.
  apply elem_of_lookup_imap in Hc as (i & p & -> & Hp).
  apply (cursors_moved_consumed_in w); [exact Hmoved|].
  exists t, T, p. split; [done|]. split; [|done].
  eapply unconsumed_subseteq, list_elem_of_lookup_2, Hp.
Qed.

Lemma gather_moves node l acc w :
  ∃ more w',
    fold_m (consume_topic new_id clock node) acc l w = (inr (acc ++ more), w')
    ∧ cursors_moved w w'
    ∧ Forall (consumed_in w') more.
Proof.
  revert acc w. induction l as [|t l IH]; intros acc w.
  { exists [], w. rewrite app_nil_r.
      split; [done|]. split; [reflexivity|constructor]. }
  destruct (consume_topic_moves node acc t w) as (more1 & w1 & Hstep & H1 & Hin1).
  destruct (IH (acc ++ more1) w1) as (more2 & w2 & Hrest & H2 & Hin2).
  exists (more1 ++ more2), w2. split; [|split].
  - cbn [fold_m]. rewrite (bind_run _ _ _ _ _ Hstep), Hrest.
    by rewrite app_assoc.
  - by etrans.
  - apply Forall_app. split; [|done].
    eapply Forall_impl; [exact Hin1|]. intros c.
    by apply cursors_moved_consumed_in.
Qed.

(** *** Publishing keeps topics and store in step *)

Lemma published_on_publish e p r t :
  Event.as_publish e = Some p →
  published_on [e] r t
  = if decide (ExecutionContext.assistant_request_id
                 (PublishToTopicEvent.execution_context p) = r
               ∧ PublishToTopicEvent.topic_name p = t)
    then [p] else [].
Proof.
  intros He. unfold published_on, EventStoreInMemory.get_agent_events.
  destruct e; simplify_eq/=; cbn [filter list_filter];
    (destruct (decide (_ = r)) as [?|?];
     cbn [omap list_omap Event.as_publish filter list_filter];
     [destruct (decide (_ = t)) as [?|?]|]);
    case_decide; naive_solver.
Qed.

Lemma offsets_snoc (l : list PublishToTopicEvent.t) p :
  PublishToTopicEvent.offset <$> l = seq 0 (length l) →
  PublishToTopicEvent.offset p = length l →
  PublishToTopicEvent.offset <$> (l ++ [p]) = seq 0 (length (l ++ [p])).
Proof.
  intros Hl Hp. rewrite fmap_app, length_app, seq_app, Hl. simpl.
  by rewrite Hp.
Qed.

Lemma publish_data_publishing ctx pname ptype result consumed t pending w :
  publishing (ExecutionContext.assistant_request_id ctx) pending w →
  ∃ r w',
    publish_data new_id clock t ctx pname ptype result consumed w = (inr r, w')
    ∧ event_store w' = event_store w
    ∧ invocations w' = invocations w
    ∧ publishing (ExecutionContext.assistant_request_id ctx)
        (pending ++ option_list r) w'
    ∧ (∀ e, r = Some e → is_Some (Event.as_publish e)).
Proof.
  intros (Hclosed & Hplain & Hoffsets & Hcoupled).
  unfold publish_data. rewrite (bind_run get _ w w w eq_refl).
  destruct (topics (workflow w) !! t) as [Tw|] eqn:HTw.
  2:{ exists None, w. rewrite app_nil_r.
      split; [done|]. split; [done|]. split; [done|].
      split; [|done].
      exact (conj Hclosed (conj Hplain (conj Hoffsets Hcoupled))). }
  unfold Topic.publish_data.
  destruct (Topic.accepts Tw result).
  2:{ exists None, w. rewrite app_nil_r.
      split; [done|]. split; [done|]. split; [done|].
      split; [|done].
      exact (conj Hclosed (conj Hplain (conj Hoffsets Hcoupled))). }
  set (p := PublishToTopicEvent.mk _ _ _ _ _ _ _ _ _ _).
  set (T' := Topic.with_state _ _ _).
  set (w2 := World (workflow w) (event_store w) (S (created w))
               (invocations w)).
  set (w3 := World (with_topics (workflow w)
                      (<[t := T']> (topics (workflow w))))
               (event_store w) (S (created w)) (invocations w)).
  destruct (on_event_spec (Topic.as_event Tw p) w3 Hclosed) as (added & Hon).
  exists (Some (Topic.as_event Tw p)), (requeue w3 added).
  split.
  { rewrite (bind_run next_created _ w (created w) w2 eq_refl).
    rewrite (bind_run (set_topic t T') _ w2 () w3 eq_refl).
    by rewrite (bind_run _ _ _ _ _ Hon). }
  split; [done|]. split; [done|].
  destruct (Hplain t Tw HTw) as [Hname Hkind].
  pose proof (Hcoupled t Tw HTw) as Hevents.
  assert (Hpub : ∀ r0 t0,
    published_on ((event_store w ++ pending) ++ [Topic.as_event Tw p]) r0 t0
    = published_on (event_store w ++ pending) r0 t0
      ++ if decide (ExecutionContext.assistant_request_id ctx = r0 ∧ t = t0)
         then [p] else []).
  { intros r0 t0. rewrite published_on_app. f_equal.
    rewrite (published_on_publish _ p) by apply as_publish_as_event.
    cbn [p PublishToTopicEvent.execution_context
         PublishToTopicEvent.topic_name]. by rewrite Hname. }
  split; [|by intros e [= <-]; rewrite as_publish_as_event].
  unfold publishing. cbn [option_list].
  change (event_store (requeue w3 added)) with (event_store w).
  rewrite (app_assoc (event_store w) pending).
  split; [exact Hclosed|]. split; [|split].
  - cbn [requeue workflow with_queue with_topics topics w3].
    apply map_Forall_insert_2; [|done]. by split.
  - intros r0 t0. rewrite Hpub.
    case_decide as Heq; [|by rewrite app_nil_r].
    destruct Heq as [<- <-]. apply offsets_snoc; [done|].
    cbn [p PublishToTopicEvent.offset]. by rewrite Hevents.
  - cbn [requeue workflow with_queue with_topics topics event_store w3].
    intros t0 T0 HT0. rewrite Hpub.
    destruct (decide (t = t0)) as [<-|Hne].
    + rewrite lookup_insert_eq in HT0. injection HT0 as <-.
      rewrite decide_True by done.
      cbn [T' Topic.with_state Topic.topic_events]. by rewrite Hevents.
    + rewrite lookup_insert_ne in HT0 by done.
      rewrite decide_False by naive_solver. rewrite app_nil_r.
      by apply Hcoupled.
Qed.

Lemma published_on_elem (store : list Event.t) r t p :
  p ∈ published_on store r t →
  ∃ j, store !! j ≫= Event.as_publish = Some p.
Proof.
  unfold published_on, EventStoreInMemory.get_agent_events. intros Hp.
  apply list_elem_of_filter in Hp as [_ Hp].
  apply list_elem_of_omap in Hp as (e & He & Hp).
  apply list_elem_of_filter in He as [_ He].
  apply list_elem_of_lookup_1 in He as [j Hj].
  exists j. by rewrite Hj.
Qed.

Lemma coupled_consumed_in r w c :
  coupled r w → consumed_in w c →
  ∃ j p, event_store w !! j ≫= Event.as_publish = Some p ∧ consumed_from c p.
Proof.
  intros Hc (t & T & p & HT & Hp & Hfrom).
  rewrite (Hc t T HT) in Hp.
  destruct (published_on_elem _ _ _ _ Hp) as [j Hj]. by exists j, p.
Qed.

(** Recording the consume events of a turn and then the events published
    in the turn. *)
Lemma consumes_published_record (store : list Event.t) consumed published :
  consumes_published store →
  Forall (λ c, ∃ j p, store !! j ≫= Event.as_publish = Some p
                      ∧ consumed_from c p) consumed →
  Forall (λ e, is_Some (Event.as_publish e)) published →
  consumes_published (store ++ (Event.Consume <$> consumed) ++ published).
Proof.
  intros Hold Hconsumed Hpublished i c Hi.
  assert (Hkeep : ∀ j p,
    store !! j ≫= Event.as_publish = Some p →
    j < length store
    ∧ (store ++ (Event.Consume <$> consumed) ++ published) !! j
        ≫= Event.as_publish = Some p).
  { intros j p Hj. destruct (store !! j) as [e|] eqn:He; [|done].
    pose proof (lookup_lt_Some _ _ _ He) as Hlt. split; [done|].
    by rewrite lookup_app_l, He. }
  destruct (decide (i < length store)) as [Hlt|Hge].
  - rewrite lookup_app_l in Hi by done.
    destruct (Hold i c Hi) as (j & p & Hji & Hj & Hfrom).
    exists j, p. split; [done|]. split; [|done]. by apply Hkeep.
  - rewrite lookup_app_r in Hi by lia.
    apply lookup_app_Some in Hi as [Hi|[_ Hi]].
    + apply list_lookup_fmap_Some in Hi as (c' & [= <-] & Hc).
      rewrite Forall_forall in Hconsumed.
      destruct (Hconsumed c) as (j & p & Hj & Hfrom).
      { by eapply list_elem_of_lookup_2. }
      destruct (Hkeep j p Hj) as [Hlt Hj'].
      exists j, p. split; [lia|]. by split.
    + rewrite Forall_forall in Hpublished.
      destruct (Hpublished (Event.Consume c)) as [? [=]].
      by eapply list_elem_of_lookup_2.
Qed.

(** Publishing the result of a node to its target topics and recording
    the events of the turn. *)
Lemma publish_events_running node ctx result consumed w :
  running (ExecutionContext.assistant_request_id ctx) w →
  Forall (consumed_in w) consumed →
  running (ExecutionContext.assistant_request_id ctx)
    (_publish_events new_id clock node ctx result consumed w).2.
Proof.
  set (r := ExecutionContext.assistant_request_id ctx).
  intros ((Hclosed & Hplain & Hoffsets & Hconsumes) & Hcoupled) Hin.
  unfold _publish_events.
  set (body := λ (published_events : list Event.t) (topic : Topic.t), _).
  assert (Hgen : ∀ l acc pending w0,
    publishing r pending w0 →
    ∃ more w',
      fold_m body acc l w0 = (inr (acc ++ more), w')
      ∧ event_store w' = event_store w0
      ∧ publishing r (pending ++ more) w'
      ∧ Forall (λ e, is_Some (Event.as_publish e)) more).
  { induction l as [|T l IH]; intros acc pending w0 Hw0.
    { exists [], w0. rewrite !app_nil_r.
      split; [done|]. split; [done|]. split; [done|constructor]. }
    destruct (publish_data_publishing ctx (Node.name node) (Node.type node)
                result consumed (Topic.name T) pending w0 Hw0)
      as (e & w1 & Hrun & Hstore & _ & Hw1 & He).
    destruct (IH (match e with Some e => acc ++ [e] | None => acc end)
                _ w1 Hw1)
      as (more & w' & Hrest & Hstore' & Hw' & Hmore).
    exists (option_list e ++ more), w'.
    split; [|split; [congruence|split]].
    - assert (Hbody : body acc T w0
        = (inr (match e with Some e => acc ++ [e] | None => acc end), w1)).
      { unfold body. by rewrite (bind_run _ _ _ _ _ Hrun). }
      cbn [fold_m]. rewrite (bind_run _ _ _ _ _ Hbody), Hrest.
      destruct e; simpl; by rewrite <- ?app_assoc.
    - by rewrite app_assoc.
    - apply Forall_app. split; [|done].
      destruct e as [e|]; [|constructor].
      constructor; [by apply He|constructor]. }
  destruct (Hgen (Node.publish_to node) [] [] w)
    as (published & w' & Hrun & Hstore & Hw' & Hpublished).
  { unfold publishing. rewrite app_nil_r.
    exact (conj Hclosed (conj Hplain (conj Hoffsets Hcoupled))). }
  rewrite (bind_run _ _ _ _ _ Hrun).
  destruct Hw' as (Hclosed' & Hplain' & Hoffsets' & Hcoupled').
  cbn [app] in Hoffsets', Hcoupled'. rewrite Hstore in Hoffsets', Hcoupled'.
  assert (Hpub : ∀ r0 t0,
    published_on (event_store w ++ (Event.Consume <$> consumed) ++ published)
      r0 t0
    = published_on (event_store w ++ published) r0 t0).
  { intros r0 t0. by rewrite !published_on_app, published_on_consume. }
  cbn [record_events snd]. unfold EventStoreInMemory.record_events.
  rewrite Hstore.
  split; [split; [done|split; [done|split]]|].
  - cbn [event_store]. intros r0 t0. rewrite Hpub. apply Hoffsets'.
  - cbn [event_store]. apply consumes_published_record; [done| |done].
    eapply Forall_impl; [exact Hin|]. intros c.
    by apply coupled_consumed_in with r.
  - intros t0 T0 HT0. cbn [event_store]. rewrite Hpub.
    by apply Hcoupled'.
Qed.

(** *** The turns of the loop *)

Lemma bind_raise {A B} (m : M A) (f : A → M B) w e w' :
  m w = (inl e, w') → (m ≫= f) w = (inl e, w').
Proof. intros Hm. unfold mbind, M_bind. by rewrite Hm. Qed.

Lemma cursors_moved_running r w w' :
  cursors_moved w w' → running r w → running r w'.
Proof.
  intros Hmoved ((Hclosed & Hplain & Hstore) & Hcoupled).
  pose proof (cursors_moved_same_shape _ _ Hmoved) as Hshape.
  split; [split; [|split]|].
  - by apply (same_shape_graph_closed w).
  - by apply (same_shape_plain_topics w).
  - destruct Hmoved as (-> & _). exact Hstore.
  - by apply (cursors_moved_coupled r w).
Qed.

Lemma execute_turn_running ctx node w :
  running (ExecutionContext.assistant_request_id ctx) w →
  running (ExecutionContext.assistant_request_id ctx)
    (execute_turn new_id clock ctx node w).2.
Proof.
  intros Hw.
  destruct (gather_moves node (Node.subscribed_topics node) [] w)
    as (consumed & w1 & Hgather & Hmoved & Hin).
  pose proof (cursors_moved_running _ _ _ Hmoved Hw) as Hw1.
  unfold execute_turn, get_node_input.
  rewrite (bind_run _ _ _ _ _ Hgather). cbn [app].
  destruct consumed as [|c cs]; [exact Hw1|].
  rewrite (bind_run get _ w1 w1 w1 eq_refl).
  set (w2 := World (workflow w1) (event_store w1) (created w1)
               (invocations w1 ++ [(Node.name node, c :: cs)])).
  rewrite (bind_run (note_invocation node (c :: cs)) _ w1 () w2 eq_refl).
  destruct (Node.execute node (event_store w1) ctx (c :: cs)) as [e|result].
  { exact Hw1. }
  rewrite (bind_run (lift (inr result)) _ w2 result w2 eq_refl).
  by apply publish_events_running.
Qed.

Lemma a_execute_turn_running ctx node w :
  running (ExecutionContext.assistant_request_id ctx) w →
  running (ExecutionContext.assistant_request_id ctx)
    (a_execute_turn new_id clock ctx node w).2.
Proof.
  intros Hw.
  destruct (gather_moves node (Node.subscribed_topics node) [] w)
    as (consumed & w1 & Hgather & Hmoved & Hin).
  pose proof (cursors_moved_running _ _ _ Hmoved Hw) as Hw1.
  unfold a_execute_turn, get_node_input.
  rewrite (bind_run _ _ _ _ _ Hgather). cbn [app].
  destruct consumed as [|c cs]; [exact Hw1|].
  rewrite (bind_run get _ w1 w1 w1 eq_refl).
  destruct (Node.streams node).
  { rewrite (bind_run (mret _) _ w1 _ w1 eq_refl).
    by apply publish_events_running. }
  set (w2 := World (workflow w1) (event_store w1) (created w1)
               (invocations w1 ++ [(Node.name node, c :: cs)])).
  destruct (Node.a_execute node (event_store w1) ctx (c :: cs))
    as [e|items] eqn:Hitems.
  - rewrite (bind_raise _ _ w1 e w2); [exact Hw1|].
    by rewrite (bind_run (note_invocation node (c :: cs)) _ w1 () w2 eq_refl).
  - rewrite (bind_run _ _ w1 (Data.Many (items ≫= Data.item_messages)) w2).
    + by apply (publish_events_running _ _ _ _ w2).
    + by rewrite (bind_run (note_invocation node (c :: cs)) _ w1 () w2
                    eq_refl).
Qed.

Lemma loop_running r turn fuel :
  (∀ node w, running r w → running r (turn node w).2) →
  ∀ w, running r w → running r (loop fuel turn w).2.
Proof.
  intros Hturn. induction fuel as [|fuel IH]; intros w Hw.
  - cbn [loop]. rewrite (bind_run get _ w w w eq_refl).
    by destruct (execution_queue (workflow w)).
  - cbn [loop]. rewrite (bind_run get _ w w w eq_refl).
    destruct (execution_queue (workflow w)) as [|node rest]; [done|].
    set (popped := World (with_queue (workflow w) rest) (event_store w)
                     (created w) (invocations w)).
    rewrite (bind_run (set_workflow _) _ w () popped eq_refl).
    assert (Hpopped : running r popped) by exact Hw.
    specialize (Hturn node popped Hpopped).
    destruct (turn node popped) as [[e|[]] w1] eqn:Hrun.
    + by rewrite (bind_raise _ _ _ _ _ Hrun).
    + rewrite (bind_run _ _ _ _ _ Hrun). by apply IH.
Qed.

(** *** Restoring the topics from the store *)

Lemma omap_as_publish_topic_events (l : list Event.t) :
  omap Event.as_publish (filter (λ e, Event.is_topic_event e = true) l)
  = omap Event.as_publish l.
Proof.
  induction l as [|e l IH]; [done|].
  destruct (decide (Event.is_topic_event e = true)) as [He|He].
  - rewrite filter_cons_True by done. cbn [omap list_omap]. by rewrite IH.
  - rewrite filter_cons_False by done. cbn [omap list_omap]. rewrite IH.
    by destruct e.
Qed.

Lemma published_on_stored store ctx t :
  published_on store (ExecutionContext.assistant_request_id ctx) t
  = filter (λ p, PublishToTopicEvent.topic_name p = t)
      (omap Event.as_publish (stored_topic_events store ctx)).
Proof.
  unfold published_on, stored_topic_events.
  by rewrite omap_as_publish_topic_events.
Qed.

Lemma restore_topic_shape T e :
  Topic.name (Topic.restore_topic T e) = Topic.name T
  ∧ Topic.kind_of (Topic.restore_topic T e) = Topic.kind_of T.
Proof. by destruct e. Qed.

Lemma restore_topic_events T e t :
  Event.topic_name e = Some t →
  Topic.topic_events (Topic.restore_topic T e)
  = Topic.topic_events T
    ++ filter (λ p, PublishToTopicEvent.topic_name p = t)
         (option_list (Event.as_publish e)).
Proof.
  intros He. destruct e; simplify_eq/=;
    rewrite ?app_nil_r; try done;
    by rewrite filter_cons_True, filter_nil.
Qed.

Lemma omap_cons_option_list {A B} (f : A → option B) x (l : list A) :
  omap f (x :: l) = option_list (f x) ++ omap f l.
Proof. cbn [omap list_omap]. by destruct (f x). Qed.

Lemma restore_all_events events ts t T' :
  restore_all ts events !! t = Some T' →
  ∃ T, ts !! t = Some T
       ∧ Topic.topic_events T'
         = Topic.topic_events T
           ++ filter (λ p, PublishToTopicEvent.topic_name p = t)
                (omap Event.as_publish events).
Proof.
  revert ts. induction events as [|e es IH]; intros ts HT'.
  { exists T'. split; [done|]. cbn. by rewrite app_nil_r. }
  cbn [restore_all foldl] in HT'.
  apply IH in HT' as (T1 & HT1 & Hevents). rewrite Hevents.
  rewrite omap_cons_option_list, filter_app.
  assert (Hskip : ts !! t = Some T1 → Event.topic_name e ≠ Some t →
    ∃ T, ts !! t = Some T
         ∧ Topic.topic_events T1
             ++ filter (λ p, PublishToTopicEvent.topic_name p = t)
                  (omap Event.as_publish es)
           = Topic.topic_events T
             ++ filter (λ p, PublishToTopicEvent.topic_name p = t)
                  (option_list (Event.as_publish e))
             ++ filter (λ p, PublishToTopicEvent.topic_name p = t)
                  (omap Event.as_publish es)).
  { intros Hts Hne. exists T1. split; [done|]. f_equal.
    destruct e; simpl in *; try done;
      by rewrite filter_cons_False by congruence. }
  destruct (Event.topic_name e) as [t'|] eqn:Ht'; [|by apply Hskip].
  destruct (ts !! t') as [T0|] eqn:HT0.
  2:{ apply Hskip; [done|]. intros [= ->]. congruence. }
  destruct (decide (t' = t)) as [->|Hne].
  - rewrite lookup_insert_eq in HT1. injection HT1 as <-.
    exists T0. split; [done|].
    by rewrite (restore_topic_events T0 e t), app_assoc.
  - rewrite lookup_insert_ne in HT1 by done. apply Hskip; [done|congruence].
Qed.

(** The first loop of the resume branch keeps names and kinds of the
    topics and the store; when it returns, the topics are the restored
    ones. *)
Lemma restore_loop_shape events w :
  let run :=
    for_each events (λ event,
      match Event.topic_name event with
      | Some topic_name =>
          topic ← topic_named topic_name;
          set_topic topic_name (Topic.restore_topic topic event)
      | None => pass
      end) w in
  same_shape w run.2
  ∧ event_store run.2 = event_store w
  ∧ (run.1 = inr () →
     run.2 = with_world_topics w (restore_all (topics (workflow w)) events)).
Proof.
  set (body := λ event : Event.t, _).
  revert w. induction events as [|e es IH]; intros w.
  { cbn. split; [reflexivity|]. split; [done|].
    intros _. by rewrite with_world_topics_same. }
  cbn [for_each restore_all foldl].
  destruct (Event.topic_name e) as [t|] eqn:Ht.
  2:{ assert (Hbody : body e w = (inr (), w)).
      { unfold body. by rewrite Ht. }
      rewrite (bind_run _ _ _ _ _ Hbody). apply IH. }
  destruct (topics (workflow w) !! t) as [T|] eqn:HT.
  2:{ assert (Hbody : body e w = (inl (KeyError t), w)).
      { unfold body. rewrite Ht.
        apply bind_raise. unfold topic_named.
        rewrite (bind_run get _ w w w eq_refl). by rewrite HT. }
      rewrite (bind_raise _ _ _ _ _ Hbody). cbn.
      split; [reflexivity|]. by split. }
  set (w1 := with_world_topics w
               (<[t := Topic.restore_topic T e]> (topics (workflow w)))).
  assert (Hbody : body e w = (inr (), w1)).
  { unfold body. rewrite Ht.
    by rewrite (bind_run _ _ _ _ _ (topic_named_registered w _ T HT)). }
  rewrite (bind_run _ _ _ _ _ Hbody).
  destruct (IH w1) as (Hshape & Hstore & Hrun).
  split; [|split; [done|exact Hrun]].
  etrans; [|exact Hshape]. split; [done|]. split; [done|]. intros t0.
  cbn [w1 with_world_topics workflow with_topics topics].
  destruct (decide (t = t0)) as [<-|Hne].
  - rewrite lookup_insert_eq, HT. constructor. apply restore_topic_shape.
  - rewrite lookup_insert_ne by done.
    destruct (topics (workflow w) !! t0); by constructor.
Qed.

(** *** Resuming without human-input topics *)

Global Instance only_queue_preorder : PreOrder only_queue.
Proof.
  split; [done|]. intros a b c Hab Hbc Hplain.
  destruct (Hab Hplain) as (Ht & Hn & Htn & Hs).
  destruct Hbc as (Ht' & Hn' & Htn' & Hs').
  { unfold plain_topics. by rewrite Ht. }
  repeat split; congruence.
Qed.

Lemma node_named_state n w r w1 : node_named n w = (r, w1) → w1 = w.
Proof.
  unfold node_named, mbind, M_bind, get.
  destruct (PyDict.get _ _); cbn; by intros [= _ <-].
Qed.

Lemma resume_node_only_queue t p input n :
  keeps only_queue (resume_node t p input n).
Proof.
  intros w Hplain. unfold resume_node.
  destruct (node_named n w) as [[e|node] w1] eqn:Hnode.
  pose proof (node_named_state _ _ _ _ Hnode) as ->.
  { by rewrite (bind_raise _ _ _ _ _ Hnode). }
  pose proof (node_named_state _ _ _ _ Hnode) as ->.
  rewrite (bind_run _ _ _ _ _ Hnode).
  destruct (topics (workflow w) !! t) as [T|] eqn:HT.
  2:{ rewrite (bind_raise _ _ w (KeyError t) w); [done|].
      unfold topic_named. rewrite (bind_run get _ w w w eq_refl).
      by rewrite HT. }
  rewrite (bind_run _ _ _ _ _ (topic_named_registered w _ T HT)).
  rewrite (bind_run get _ w w w eq_refl).
  destruct (Topic.can_consume T n && Node.can_execute node _); [|done].
  assert (Topic.can_append_user_input T n p = false) as ->.
  { unfold Topic.can_append_user_input.
    destruct (Hplain t T HT) as [_ Hkind].
    by rewrite bool_decide_eq_false_2. }
  done.
Qed.

Lemma resume_events_only_queue ps input :
  keeps only_queue
    (for_each ps (λ publish_event,
       let topic_name := PublishToTopicEvent.topic_name publish_event in
       w ← get;
       match topic_nodes (workflow w) !! topic_name with
       | None => pass
       | Some subscribed_nodes =>
           topic_named topic_name;;
           for_each subscribed_nodes
             (resume_node topic_name publish_event input)
       end)).
Proof.
  keeps_step. keeps_step; [keeps_step|].
  destruct (_ !! _); [|keeps_step].
  keeps_step; [apply topic_named_keeps; apply _|].
  keeps_step. apply resume_node_only_queue.
Qed.

(** *** Starting a run *)

Lemma store_invariant_record (store : list Event.t) e :
  consumes_published store → is_Some (Event.as_publish e) →
  consumes_published (store ++ [e]).
Proof.
  intros Hold He.
  apply (consumes_published_record store [] [e]); [done|constructor|].
  by constructor.
Qed.

(** [initial_workflow] leaves a sound state, whether it returns or
    raises, and when it returns the topics hold the recorded publish
    events of the request. *)
Lemma initial_workflow_sound ctx input w :
  sound w →
  let run := initial_workflow AGENT_INPUT_TOPIC new_id clock ctx input w in
  sound run.2
  ∧ (run.1 = inr () →
     coupled (ExecutionContext.assistant_request_id ctx) run.2).
Proof.
  set (r := ExecutionContext.assistant_request_id ctx).
  intros (Hclosed & Hplain & Hoffsets & Hconsumes).
  set (w1 := with_world_topics w (Topic.reset <$> topics (workflow w))).
  assert (Hplain1 : plain_topics (workflow w1)).
  { intros t T HT. cbn in HT. rewrite lookup_fmap in HT.
    destruct (topics (workflow w) !! t) as [T0|] eqn:HT0; simplify_eq/=.
    exact (Hplain t T0 HT0). }
  assert (Hreset : ∀ t T, topics (workflow w1) !! t = Some T →
                          Topic.topic_events T = []).
  { intros t T HT. cbn in HT. rewrite lookup_fmap in HT.
    by destruct (topics (workflow w) !! t); simplify_eq/=. }
  unfold initial_workflow.
  rewrite (bind_run (set_workflow _) _ w () w1 eq_refl).
  rewrite (bind_run get _ w1 w1 w1 eq_refl). cbv zeta.
  change (event_store w1) with (event_store w).
  destruct (stored_topic_events (event_store w) ctx) as [|e es] eqn:Hevents.
  - assert (Hpub1 : publishing r [] w1).
    { split; [exact Hclosed|]. split; [exact Hplain1|].
      change (event_store w1) with (event_store w). rewrite app_nil_r.
      split; [exact Hoffsets|]. intros t T HT.
      rewrite (Hreset t T HT). unfold r.
      by rewrite published_on_stored, Hevents. }
    destruct (topics (workflow w1) !! AGENT_INPUT_TOPIC) as [Tin|].
    2:{ cbn. split; [|done].
        exact (conj Hclosed (conj Hplain1 (conj Hoffsets Hconsumes))). }
    destruct (publish_data_publishing ctx (name (workflow w1))
                (type (workflow w1))
                (Data.Many
                   (sorted_by_timestamp
                      (conversation_messages (event_store w)
                         (ExecutionContext.conversation_id ctx)) ++ input))
                [] AGENT_INPUT_TOPIC [] w1 Hpub1)
      as (ev & w2 & Hrun & Hstore & _ & Hw2 & Hev).
    rewrite (bind_run _ _ _ _ _ Hrun).
    destruct Hw2 as (Hclosed2 & Hplain2 & Hoffsets2 & Hcoupled2).
    rewrite Hstore in Hoffsets2, Hcoupled2.
    change (event_store w1) with (event_store w) in Hoffsets2, Hcoupled2.
    destruct ev as [ev|]; cbn [app option_list] in Hoffsets2, Hcoupled2.
    + cbn [record_event fst snd workflow event_store].
      unfold EventStoreInMemory.record_event. rewrite Hstore.
      change (event_store w1) with (event_store w).
      split; [|by intros _].
      split; [done|]. split; [done|]. split; [done|].
      apply store_invariant_record; [done|by apply Hev].
    + rewrite app_nil_r in Hoffsets2. cbn [throw fst snd].
      split; [|done]. split; [done|]. split; [done|].
      rewrite Hstore. by split.
  - rewrite <- Hevents.
    destruct (restore_loop_shape (stored_topic_events (event_store w) ctx) w1)
      as (Hshape & Hstore & Hrestored).
    destruct (for_each (stored_topic_events (event_store w) ctx) _ w1)
      as [[ex|[]] w2] eqn:Hloop; cbn [fst snd] in Hshape, Hstore, Hrestored.
    + rewrite (bind_raise _ _ _ _ _ Hloop). cbn [fst snd].
      split; [|done]. split; [|split].
      * by apply (same_shape_graph_closed w1).
      * by apply (same_shape_plain_topics w1).
      * rewrite Hstore. by split.
    + rewrite (bind_run _ _ _ _ _ Hloop).
      pose proof (resume_events_only_queue
                    (omap Event.as_publish
                       (stored_topic_events (event_store w) ctx)) input w2)
        as Hqueue.
      cbv zeta in Hqueue.
      destruct Hqueue as (Htopics & Hnodes & Htn & Hstore3).
      { by apply (same_shape_plain_topics w1). }
      assert (Hplain2 : plain_topics (workflow w2))
        by (by apply (same_shape_plain_topics w1)).
      assert (Hclosed2 : graph_closed (workflow w2))
        by (by apply (same_shape_graph_closed w1)).
      split; [split; [|split]|].
      * unfold graph_closed. by rewrite Hnodes, Htn.
      * unfold plain_topics. by rewrite Htopics.
      * rewrite Hstore3, Hstore. by split.
      * intros _ t T' HT'. rewrite Htopics in HT'.
        rewrite Hstore3, Hstore. change (event_store w1) with (event_store w).
        rewrite (Hrestored eq_refl) in HT'.
        cbn [with_world_topics workflow with_topics topics] in HT'.
        apply restore_all_events in HT' as (T & HT & ->).
        rewrite (Hreset t T HT). unfold r.
        by rewrite published_on_stored.
Qed.

(** *** Runs *)

Lemma execute_sound fuel ctx input w :
  sound w →
  sound (execute AGENT_INPUT_TOPIC new_id clock fuel ctx input w).2.
Proof.
  intros Hw. unfold execute.
  destruct (initial_workflow_sound ctx input w Hw) as [Hsound Hcoupled].
  destruct (initial_workflow AGENT_INPUT_TOPIC new_id clock ctx input w)
    as [[e|[]] w1] eqn:Hinit; cbn [fst snd] in Hsound, Hcoupled.
  - by rewrite (bind_raise _ _ _ _ _ Hinit).
  - rewrite (bind_run _ _ _ _ _ Hinit).
    apply (loop_running (ExecutionContext.assistant_request_id ctx)).
    + intros node w0. apply execute_turn_running.
    + split; [done|]. by apply Hcoupled.
Qed.

Lemma a_execute_sound fuel ctx input w :
  sound w →
  sound (a_execute AGENT_INPUT_TOPIC new_id clock fuel ctx input w).2.
Proof.
  intros Hw. unfold a_execute.
  destruct (initial_workflow_sound ctx input w Hw) as [Hsound Hcoupled].
  destruct (initial_workflow AGENT_INPUT_TOPIC new_id clock ctx input w)
    as [[e|[]] w1] eqn:Hinit; cbn [fst snd] in Hsound, Hcoupled.
  - by rewrite (bind_raise _ _ _ _ _ Hinit).
  - rewrite (bind_run _ _ _ _ _ Hinit).
    apply (loop_running (ExecutionContext.assistant_request_id ctx)).
    + intros node w0. apply a_execute_turn_running.
    + split; [done|]. by apply Hcoupled.
Qed.

Lemma run_calls_sound calls w :
  sound w → sound (run_calls AGENT_INPUT_TOPIC new_id clock calls w).
Proof.
  revert w. induction calls as [|c calls IH]; intros w Hw; [done|].
  cbn [run_calls foldl]. apply IH. unfold run_call.
  destruct (call_mode c); [by apply execute_sound|by apply a_execute_sound].
Qed.


End store_invariant.



(** * Further properties of the code *)

(** ** The in-memory event store *)

Section event_store.

(** X1.  [get_event] returns the first event of the store that has the id: the
    events before it have other ids; and it returns [None] exactly when no
    event of the store has the id. *)
Theorem get_event_first_match (store : list Event.t) id :
  match EventStoreInMemory.get_event store id with
  | Some e =>
      ∃ i, store !! i = Some e ∧ Event.event_id e = id
           ∧ ∀ j e', j < i → store !! j = Some e' → Event.event_id e' ≠ id
  | None => ∀ e, e ∈ store → Event.event_id e ≠ id
  end.
Proof.
  unfold EventStoreInMemory.get_event.
  destruct (list_find _ _) as [[i e]|] eqn:Hfind; simpl.
  - apply list_find_Some in Hfind as (Hi & He & Hbefore).
    exists i. split; [done|]. split; [done|].
    intros j e' Hj He'. by apply (Hbefore j).
  - apply list_find_None in Hfind. intros e He.
    rewrite Forall_forall in Hfind. by apply Hfind.
Qed.

(** X2.  Recording an event does not change what [get_event] returns for an id
    the store already has: an event recorded under an id that is in use
    is not found by its id.  For an id that is new, the recorded event is
    found. *)
Theorem get_event_record_event (store : list Event.t) e id :
  EventStoreInMemory.get_event (EventStoreInMemory.record_event store e) id
  = match EventStoreInMemory.get_event store id with
    | Some e0 => Some e0
    | None => if decide (Event.event_id e = id) then Some e else None
    end.
Proof.
  unfold EventStoreInMemory.get_event, EventStoreInMemory.record_event.
  destruct (list_find _ store) as [[i e0]|] eqn:Hfind; simpl.
  - by rewrite (list_find_app_l _ _ _ _ _ Hfind).
  - rewrite (list_find_app_r _ _ _ Hfind). cbn [list_find].
    by destruct (decide _).
Qed.

End event_store.

(** ** Events as dictionaries *)

Section dictionaries.

(** X3.  A publish event whose data is a message or a list of messages is read
    back from its dictionary as it was: [from_dict] tells a single message
    from a list by the JSON value it finds. *)
Theorem PublishToTopicEvent_read_back e :
  Data.is_stream (PublishToTopicEvent.data e) = false →
  ∃ d, PublishToTopicEventDict.to_dict e = inr d
       ∧ PublishToTopicEventDict.from_dict d = inr e.
Proof. apply PublishToTopicEvent_round_trip. Qed.

(** X4.  A node respond event whose output is a list of messages is read back
    from its dictionary as it was. *)
Theorem NodeRespondEvent_list_read_back e l d :
  NodeRespondEvent.output_data e = Data.Many l →
  NodeRespondEventDict.to_dict e = inr d →
  NodeRespondEventDict.from_dict d = inr e.
Proof. apply NodeRespondEvent_round_trip_list. Qed.

End dictionaries.

Lemma PublishToTopicEvent_read_back_witness :
  let e := Sample.publish "p1"%string "t"%string 3 ["c1"%string]
             (Data.One Sample.note) in
  Data.is_stream (PublishToTopicEvent.data e) = false
  ∧ ∃ d, PublishToTopicEventDict.to_dict e = inr d
         ∧ PublishToTopicEventDict.from_dict d = inr e.
Proof.
  intros e. split; [reflexivity|].
  apply (PublishToTopicEvent_read_back e). reflexivity.
Defined.

Lemma NodeRespondEvent_list_read_back_witness :
  let e := NodeRespondEvent.mk
             (NodeRespondEvent.base RespondSample.single_output)
             (NodeRespondEvent.input_data RespondSample.single_output)
             (Data.Many [Sample.note; Sample.user]) in
  ∃ d, NodeRespondEventDict.to_dict e = inr d
       ∧ NodeRespondEventDict.from_dict d = inr e.
Proof.
  intros e. eexists. split; [vm_compute; reflexivity|].
  apply (NodeRespondEvent_list_read_back e [Sample.note; Sample.user]);
    [reflexivity|vm_compute; reflexivity].
Defined.

(** ** The loop of the workflow *)

Section workflow_loop.
Import EventDrivenWorkflow.
Variable AGENT_INPUT_TOPIC : string.
Variable new_id : nat → string.
Variable clock : nat → Z.

Lemma loop_returns_drained fuel turn w w' :
  loop fuel turn w = (inr (), w') → execution_queue (workflow w') = [].
Proof.
  revert w. induction fuel as [|fuel IH]; intros w; cbn [loop];
    rewrite (bind_run get _ w w w eq_refl);
    destruct (execution_queue (workflow w)) as [|node rest] eqn:Hqueue;
    try (by intros [= <-]); try done.
  set (popped := World (with_queue (workflow w) rest) (event_store w)
                   (created w) (invocations w)).
  rewrite (bind_run (set_workflow _) _ w () popped eq_refl).
  destruct (turn node popped) as [[e|[]] w1] eqn:Hturn.
  - by rewrite (bind_raise _ _ _ _ _ Hturn).
  - rewrite (bind_run _ _ _ _ _ Hturn). apply IH.
Qed.

(** X5.  When [execute] or [a_execute] returns, the execution queue is empty:
    the loop ends only on an empty queue, whatever the queue held when
    the call began. *)
Theorem execute_returns_drained (async : bool) fuel ctx input w w' :
  (if async
   then a_execute AGENT_INPUT_TOPIC new_id clock fuel ctx input w
   else execute AGENT_INPUT_TOPIC new_id clock fuel ctx input w)
  = (inr (), w') →
  execution_queue (workflow w') = [].
Proof.
  destruct async; unfold a_execute, execute;
    (destruct (initial_workflow AGENT_INPUT_TOPIC new_id clock ctx input w)
       as [[e|[]] w1] eqn:Hinit;
     [by rewrite (bind_raise _ _ _ _ _ Hinit)
     |rewrite (bind_run _ _ _ _ _ Hinit); apply loop_returns_drained]).
Qed.

(** X6.  [on_event] leaves the state as it is for an event that is not a
    publish event, for an output topic event, and for a topic without
    subscribers.  For a publish event on a topic with subscribers it
    appends to the queue, in the order of the subscriber index, every
    subscriber that is ready, also one that stands in the queue already;
    nothing else changes.  The subscriber index has to name registered
    nodes. *)
Theorem on_event_enqueues_ready event w :
  graph_closed (workflow w) →
  on_event event w
  = (inr (),
     requeue w
       match event with
       | Event.Publish p =>
           match topic_nodes (workflow w)
                 !! PublishToTopicEvent.topic_name p with
           | Some names => ready_subscribers w names
           | None => []
           end
       | _ => []
       end).
Proof.
  intros Hclosed. unfold on_event.
  destruct event as [p|p|c|a|n|o]; try by rewrite requeue_nil.
  rewrite (bind_run get _ w w w eq_refl).
  destruct (topic_nodes (workflow w) !! PublishToTopicEvent.topic_name p)
    as [names|] eqn:Hnames; [|by rewrite requeue_nil].
  apply enqueue_ready. exact (Hclosed _ _ Hnames).
Qed.

End workflow_loop.

Lemma execute_returns_drained_witness :
  let w := WorkflowSample.fresh [WorkflowSample.responder] in
  let w' := WorkflowSample.run 5 WorkflowSample.request_1 w in
  EventDrivenWorkflow.execute WorkflowSample.AGENT_INPUT_TOPIC
    WorkflowSample.new_id WorkflowSample.now 5 WorkflowSample.request_1
    [Sample.user] w = (inr (), w')
  ∧ EventDrivenWorkflow.execution_queue (EventDrivenWorkflow.workflow w') = [].
Proof.
  intros w w'.
  assert (Hrun : EventDrivenWorkflow.execute WorkflowSample.AGENT_INPUT_TOPIC
    WorkflowSample.new_id WorkflowSample.now 5 WorkflowSample.request_1
    [Sample.user] w = (inr (), w')) by (vm_compute; reflexivity).
  split; [exact Hrun|].
  exact (execute_returns_drained WorkflowSample.AGENT_INPUT_TOPIC
           WorkflowSample.new_id WorkflowSample.now false 5
           WorkflowSample.request_1 [Sample.user] w w' Hrun).
Defined.

Lemma on_event_enqueues_ready_witness :
  let w := WorkflowSample.streaming_popped in
  let p := Sample.publish "p"%string "agent_input_topic"%string 1 []
             (Data.Many [Sample.user]) in
  EventDrivenWorkflow.graph_closed (EventDrivenWorkflow.workflow w)
  ∧ EventDrivenWorkflow.on_event (Event.Publish p) w
    = (inr (),
       EventDrivenWorkflow.requeue w
         match EventDrivenWorkflow.topic_nodes (EventDrivenWorkflow.workflow w)
               !! PublishToTopicEvent.topic_name p with
         | Some names => EventDrivenWorkflow.ready_subscribers w names
         | None => []
         end).
Proof.
  intros w p.
  assert (Hclosed : EventDrivenWorkflow.graph_closed
                      (EventDrivenWorkflow.workflow w)).
  { apply (bool_decide_unpack _). vm_compute; exact I. }
  split; [exact Hclosed|].
  exact (on_event_enqueues_ready (Event.Publish p) w Hclosed).
Defined.

(** ** Gathering and publishing *)

Section turn.
Import EventDrivenWorkflow.
Variable new_id : nat → string.
Variable clock : nat → Z.

Lemma gather_wraps node l acc w :
  NoDup l →
  let pending :=
    l ≫= λ t, match topics (workflow w) !! t with
              | Some T => Topic.unconsumed T (Node.name node)
              | None => []
              end in
  ∃ w',
    fold_m (consume_topic new_id clock node) acc l w
    = (inr (acc ++ imap (λ i p, consume_event new_id clock node
                                  (created w + i) p) pending), w')
    ∧ event_store w' = event_store w
    ∧ invocations w' = invocations w
    ∧ created w' = created w + length pending
    ∧ nodes (workflow w') = nodes (workflow w)
    ∧ topic_nodes (workflow w') = topic_nodes (workflow w)
    ∧ execution_queue (workflow w') = execution_queue (workflow w)
    ∧ same_topics_but l w w'.
Proof.
  intros Hnd. revert acc w.
  induction Hnd as [|t l Hnotin Hnd IH]; intros acc w; cbn zeta.
  { exists w. rewrite app_nil_r, Nat.add_0_r. by repeat split. }
  rewrite bind_cons.
  set (here := match topics (workflow w) !! t with
               | Some T => Topic.unconsumed T (Node.name node)
               | None => []
               end).
  set (rest := l ≫= _).
  assert (Hstep : ∃ w1,
    consume_topic new_id clock node acc t w
    = (inr (acc ++ imap (λ i p, consume_event new_id clock node
                                  (created w + i) p) here), w1)
    ∧ event_store w1 = event_store w
    ∧ invocations w1 = invocations w
    ∧ created w1 = created w + length here
    ∧ nodes (workflow w1) = nodes (workflow w)
    ∧ topic_nodes (workflow w1) = topic_nodes (workflow w)
    ∧ execution_queue (workflow w1) = execution_queue (workflow w)
    ∧ same_topics_but [t] w w1).
  { unfold consume_topic, here. rewrite (bind_run get _ w w w eq_refl).
    destruct (topics (workflow w) !! t) as [T|] eqn:HT.
    2:{ exists w. rewrite app_nil_r, Nat.add_0_r. by repeat split. }
    destruct (Topic.can_consume T (Node.name node)) eqn:Hcan.
    2:{ exists w. unfold Topic.can_consume in Hcan.
        destruct (Topic.unconsumed T (Node.name node)); [|done].
        rewrite app_nil_r, Nat.add_0_r. by repeat split. }
    unfold Topic.consume.
    set (T' := match last (Topic.topic_events T) with
               | Some e => _ | None => T end).
    set (w1 := World (with_topics (workflow w)
                        (<[t := T']> (topics (workflow w))))
                 (event_store w) (created w) (invocations w)).
    rewrite (bind_run (set_topic t T') _ w () w1 eq_refl).
    rewrite wrap_consumed_spec. eexists. split; [reflexivity|].
    repeat split. intros t0 Ht0. cbn.
    apply lookup_insert_ne. set_solver. }
  destruct Hstep as (w1 & Hrun & Hs1 & Hi1 & Hc1 & Hn1 & Htn1 & Hq1 & Hf1).
  destruct (IH (acc ++ imap (λ i p, consume_event new_id clock node
                                      (created w + i) p) here) w1)
    as (w' & Hrest & Hs & Hi & Hc & Hn & Htn & Hq & Hf).
  assert (Hsame : (l ≫= λ t0, match topics (workflow w1) !! t0 with
                              | Some T => Topic.unconsumed T (Node.name node)
                              | None => []
                              end) = rest).
  { unfold rest. clear -Hf1 Hnotin.
    induction l as [|t0 l IHl]; [done|].
    rewrite !bind_cons, IHl by set_solver.
    rewrite (Hf1 t0); [done|]. set_solver. }
  rewrite Hsame in Hrest, Hc.
  exists w'. split; [|repeat split; try congruence].
  - cbn [fold_m]. rewrite (bind_run _ _ _ _ _ Hrun), Hrest.
    rewrite <- app_assoc, imap_app. do 4 f_equal.
    apply imap_ext. intros i p _. cbn. rewrite Hc1. f_equal. lia.
  - rewrite Hc, Hc1, length_app. lia.
  - intros t0 Ht0. rewrite Hf by set_solver. apply Hf1. set_solver.
Qed.


Lemma get_node_input_drained node w :
  map_Forall (λ _ T, Topic.well_formed T) (topics (workflow w)) →
  let w1 := (get_node_input new_id clock node w).2 in
  get_node_input new_id clock node w1 = (inr [], w1).
Proof.
  intros Hwf w1. unfold get_node_input. apply gather_nothing.
  intros t T Ht HT.
  eapply (gather_drains new_id clock node (Node.subscribed_topics node) []
            w (NoDup_remove_dups _)); [|exact Ht|exact HT].
  intros t0 T0 _ HT0. by apply (Hwf t0).
Qed.

(** X9.  Once a node has gathered its input, the topics have nothing more for
    it: gathering again right away returns no event and changes nothing.
    The topics have to hold their events at the offsets of their
    positions. *)
Theorem get_node_input_again node w :
  map_Forall (λ _ T, Topic.well_formed T) (topics (workflow w)) →
  let w1 := (get_node_input new_id clock node w).2 in
  get_node_input new_id clock node w1 = (inr [], w1).
Proof. apply get_node_input_drained. Qed.


Lemma pending_for_nil w node :
  pending_for w node = []
  ↔ ∀ t T, t ∈ Node.subscribed_topics node →
           topics (workflow w) !! t = Some T →
           Topic.can_consume T (Node.name node) = false.
Proof.
  unfold pending_for.
  induction (Node.subscribed_topics node) as [|t l IH].
  { split; [by intros _ t T ?%elem_of_nil|done]. }
  rewrite bind_cons. split.
  - intros [Ht Hl]%app_eq_nil t' T Hin HT.
    apply elem_of_cons in Hin as [->|Hin].
    + rewrite HT in Ht. unfold Topic.can_consume. by rewrite Ht.
    + by apply (proj1 IH Hl t' T).
  - intros Hcan.
    rewrite (proj2 IH (λ t' T Hin, Hcan t' T (list_elem_of_further _ _ _ Hin))).
    rewrite app_nil_r.
    destruct (topics (workflow w) !! t) as [T|] eqn:HT; [|done].
    specialize (Hcan t T (list_elem_of_here _ _) HT).
    unfold Topic.can_consume in Hcan.
    by destruct (Topic.unconsumed T (Node.name node)).
Qed.

(** X11.  When the body of a node raises, the exception leaves the turn of
    [execute] as it is, and the input gathered for the node is lost: the
    cursors of the topics have moved all the same, so that the topics
    hold nothing more for the node, and a later turn of the node, in any
    state in which they hold nothing for it, does nothing (the topics
    holding their events at the offsets of their positions). *)
Theorem execute_turn_node_raises ctx node w consumed e :
  (get_node_input new_id clock node w).1 = inr consumed →
  length consumed ≠ 0 →
  Node.execute node (event_store w) ctx consumed = inl e →
  let run := execute_turn new_id clock ctx node w in
  run.1 = inl e
  ∧ invocations run.2 = invocations w ++ [(Node.name node, consumed)]
  ∧ (map_Forall (λ _ T, Topic.well_formed T) (topics (workflow w)) →
     pending_for run.2 node = []
     ∧ ∀ w', pending_for w' node = [] →
             execute_turn new_id clock ctx node w' = (inr (), w')).
Proof.
  intros Hgather Hlen Hraise.
  pose proof (get_node_input_same_store new_id clock node w) as [Hstore Hinv].
  pose proof (get_node_input_drained node w) as Hagain.
  destruct (get_node_input new_id clock node w) as [r w1] eqn:Hrun.
  cbn [fst snd] in *. subst r.
  set (w2 := World (workflow w1) (event_store w1) (created w1)
               (invocations w1 ++ [(Node.name node, consumed)])).
  assert (Hturn : execute_turn new_id clock ctx node w = (inl e, w2)).
  { unfold execute_turn. rewrite (bind_run _ _ _ _ _ Hrun).
    destruct consumed as [|c cs]; [done|].
    rewrite (bind_run get _ w1 w1 w1 eq_refl).
    rewrite (bind_run (note_invocation node (c :: cs)) _ w1 () w2 eq_refl).
    rewrite Hstore, Hraise. reflexivity. }
  cbv zeta. rewrite Hturn. cbn [fst snd].
  split; [done|]. split; [by rewrite <- Hinv|].
  intros Hwf. specialize (Hagain Hwf). cbv zeta in Hagain. split.
  - apply pending_for_nil. intros t T Ht HT.
    unfold get_node_input in Hagain.
    destruct (gather_spec new_id clock node (Node.subscribed_topics node)
                [] w1) as (more & w3 & Heq & Hnil).
    rewrite Heq in Hagain. injection Hagain as Hmore _.
    destruct (Hnil Hmore) as [_ Hcan]. by apply (Hcan t T).
  - intros w' Hpending. unfold execute_turn.
    assert (Hnone : get_node_input new_id clock node w' = (inr [], w')).
    { unfold get_node_input. apply gather_nothing.
      by apply pending_for_nil. }
    by rewrite (bind_run _ _ _ _ _ Hnone).
Qed.

End turn.

Lemma get_node_input_again_witness :
  let w := WorkflowSample.streaming_popped in
  let w1 := (EventDrivenWorkflow.get_node_input WorkflowSample.new_id
               WorkflowSample.now WorkflowSample.streamer w).2 in
  length WorkflowSample.streamer_input = 1
  ∧ EventDrivenWorkflow.get_node_input WorkflowSample.new_id
      WorkflowSample.now WorkflowSample.streamer w1 = (inr [], w1).
Proof.
  intros w w1. split; [vm_compute; reflexivity|].
  apply (get_node_input_again WorkflowSample.new_id WorkflowSample.now
           WorkflowSample.streamer w).
  apply (bool_decide_unpack _). vm_compute; exact I.
Defined.


Lemma execute_turn_node_raises_witness :
  let w := WorkflowSample.faulty_started in
  let run :=
    EventDrivenWorkflow.execute_turn WorkflowSample.new_id WorkflowSample.now
      WorkflowSample.request_1 WorkflowSample.faulty w in
  length WorkflowSample.faulty_input ≠ 0
  ∧ run.1 = inl (NodeExecutionError "faulty")
  ∧ EventDrivenWorkflow.invocations run.2
    = EventDrivenWorkflow.invocations w
      ++ [("faulty"%string, WorkflowSample.faulty_input)]
  ∧ (map_Forall (λ _ T, Topic.well_formed T)
       (EventDrivenWorkflow.topics (EventDrivenWorkflow.workflow w)) →
     EventDrivenWorkflow.pending_for run.2 WorkflowSample.faulty = []
     ∧ ∀ w', EventDrivenWorkflow.pending_for w' WorkflowSample.faulty = [] →
             EventDrivenWorkflow.execute_turn WorkflowSample.new_id
               WorkflowSample.now WorkflowSample.request_1
               WorkflowSample.faulty w' = (inr (), w')).
Proof.
  intros w run. split; [vm_compute; lia|].
  apply (execute_turn_node_raises WorkflowSample.new_id WorkflowSample.now
           WorkflowSample.request_1 WorkflowSample.faulty w
           WorkflowSample.faulty_input (NodeExecutionError "faulty")).
  - vm_compute; reflexivity.
  - vm_compute; lia.
  - vm_compute; reflexivity.
Defined.

(** ** What [build] constructs *)

Section built.
Import EventDrivenWorkflow.
Variables AGENT_INPUT_TOPIC AGENT_OUTPUT_TOPIC : string.

Lemma listed_listed o a b : listed (listed o a) b = listed o (a ++ b).
Proof.
  destruct a as [|x a]; [done|]. destruct b as [|y b].
  - by rewrite app_nil_r.
  - cbn. by rewrite <- app_assoc.
Qed.

Lemma foldl_bind {A B C} (f : A → C → A) (g : B → list C) (l : list B) a :
  foldl (λ a b, foldl f a (g b)) a l = foldl f a (l ≫= g).
Proof.
  revert a. induction l as [|b l IH]; intros a; [done|].
  by rewrite bind_cons, foldl_app, <- IH.
Qed.

Lemma add_topic_keeps self T :
  topic_nodes (Builder._add_topic self T) = topic_nodes self
  ∧ execution_queue (Builder._add_topic self T) = execution_queue self
  ∧ ((∀ t T0, topics self !! t = Some T0 → Topic.name T0 = t) →
     ∀ t T0, topics (Builder._add_topic self T) !! t = Some T0 →
             Topic.name T0 = t)
  ∧ (∀ t, is_Some (topics self !! t) →
          is_Some (topics (Builder._add_topic self T) !! t))
  ∧ is_Some (topics (Builder._add_topic self T) !! Topic.name T).
Proof.
  unfold Builder._add_topic.
  destruct (topics self !! Topic.name T) as [T1|] eqn:HT1.
  { repeat split; try done; by eexists. }
  cbn [with_topics topic_nodes execution_queue topics].
  split; [done|]. split; [done|]. split; [|split].
  - intros Hnames t T0 HT0.
    destruct (decide (Topic.name T = t)) as [<-|Hne].
    + rewrite lookup_insert_eq in HT0. by injection HT0 as <-.
    + rewrite lookup_insert_ne in HT0 by done. by apply Hnames.
  - intros t Hsome. apply lookup_insert_is_Some'. by right.
  - rewrite lookup_insert_eq. by eexists.
Qed.

(** The inner loop of step 1: the node is appended to the list of every
    topic its expressions name, once per occurrence. *)
Lemma subscribe_topics self node_name ts t0 :
  let self' :=
    foldl (λ self t, Builder.subscribe (Builder._add_topic self t)
                       (Topic.name t) node_name) self ts in
  topic_nodes self' !! t0
  = listed (topic_nodes self !! t0)
      ((λ _, node_name) <$> filter (λ T, Topic.name T = t0) ts)
  ∧ nodes self' = nodes self
  ∧ execution_queue self' = execution_queue self
  ∧ ((∀ t T0, topics self !! t = Some T0 → Topic.name T0 = t) →
     ∀ t T0, topics self' !! t = Some T0 → Topic.name T0 = t)
  ∧ (∀ t, is_Some (topics self !! t) → is_Some (topics self' !! t))
  ∧ ((∀ t, is_Some (topic_nodes self !! t) → is_Some (topics self !! t)) →
     ∀ t, is_Some (topic_nodes self' !! t) → is_Some (topics self' !! t)).
Proof.
  revert self. induction ts as [|T ts IH]; intros self; cbn zeta.
  { by repeat split. }
  cbn [foldl].
  set (self1 := Builder.subscribe (Builder._add_topic self T) (Topic.name T)
                  node_name).
  destruct (add_topic_keeps self T) as (Htn & Hq & Hnames & Hmono & Hhere).
  destruct (add_topic_dom self T) as [_ Hnodes].
  destruct (IH self1) as (IHtn & IHn & IHq & IHnames & IHmono & IHdom).
  split; [|split; [|split; [|split; [|split]]]].
  - rewrite IHtn. cbn [self1 Builder.subscribe topic_nodes]. rewrite Htn.
    destruct (decide (Topic.name T = t0)) as [Heq|Hne].
    + rewrite filter_cons_True by done. rewrite fmap_cons.
      etrans; [|exact (listed_listed (topic_nodes self !! t0) [node_name]
                         _)].
      f_equal. subst t0. by rewrite lookup_insert_eq.
    + rewrite filter_cons_False by done.
      by rewrite lookup_insert_ne.
  - rewrite IHn. exact Hnodes.
  - rewrite IHq. exact Hq.
  - intros H. apply IHnames. by apply Hnames.
  - intros t Ht. apply IHmono. by apply Hmono.
  - intros Hdom. apply IHdom. intros t Ht.
    cbn [self1 Builder.subscribe topic_nodes topics] in Ht |- *.
    destruct (decide (Topic.name T = t)) as [<-|Hne]; [done|].
    rewrite lookup_insert_ne in Ht by done. rewrite Htn in Ht.
    by apply Hmono, Hdom.
Qed.

Lemma add_topics_keep ts self :
  let self' := foldl Builder._add_topic self ts in
  topic_nodes self' = topic_nodes self
  ∧ execution_queue self' = execution_queue self
  ∧ ((∀ t T0, topics self !! t = Some T0 → Topic.name T0 = t) →
     ∀ t T0, topics self' !! t = Some T0 → Topic.name T0 = t)
  ∧ (∀ t, is_Some (topics self !! t) → is_Some (topics self' !! t)).
Proof.
  revert self. induction ts as [|T ts IH]; intros self; cbn zeta.
  { by repeat split. }
  cbn [foldl].
  destruct (add_topic_keeps self T) as (Htn & Hq & Hnames & Hmono & _).
  destruct (IH (Builder._add_topic self T)) as (IHtn & IHq & IHnames & IHmono).
  split; [congruence|]. split; [congruence|]. split.
  - intros H. by apply IHnames, Hnames.
  - intros t Ht. by apply IHmono, Hmono.
Qed.

(** Step 1 of [build] for one node. *)
Lemma gather_listed self entry t0 :
  let self' := Builder.gather self entry in
  topic_nodes self' !! t0
  = listed (topic_nodes self !! t0)
      ((λ _, entry.1)
         <$> filter (λ T, Topic.name T = t0)
               (Node.subscribed_expressions entry.2 ≫= Node.extract_topics))
  ∧ execution_queue self' = execution_queue self
  ∧ (indexed self → indexed self').
Proof.
  destruct entry as [node_name node]. cbn [fst snd]. unfold Builder.gather.
  rewrite (foldl_bind
             (λ self t, Builder.subscribe (Builder._add_topic self t)
                          (Topic.name t) node_name) Node.extract_topics).
  set (ts := Node.subscribed_expressions node ≫= Node.extract_topics).
  destruct (subscribe_topics self node_name ts t0)
    as (Htn & _ & Hq & Hnames & Hmono & Hdom).
  set (self1 := foldl _ self ts) in *.
  destruct (add_topics_keep (Node.publish_to node) self1)
    as (Htn' & Hq' & Hnames' & Hmono').
  cbn zeta in *. rewrite Htn', Hq'.
  split; [exact Htn|]. split; [exact Hq|].
  intros [Hn Hd]. split.
  - by apply Hnames', Hnames.
  - intros t Ht. rewrite Htn' in Ht. by apply Hmono', Hdom.
Qed.

Lemma gather_all_listed ns self t0 :
  let self' := foldl Builder.gather self ((λ n, (Node.name n, n)) <$> ns) in
  topic_nodes self' !! t0
  = listed (topic_nodes self !! t0) (subscribers ns t0)
  ∧ execution_queue self' = execution_queue self
  ∧ (indexed self → indexed self').
Proof.
  revert self. induction ns as [|n ns IH]; intros self; cbn zeta.
  { split; [reflexivity|]. split; [reflexivity|]. by intros H. }
  rewrite fmap_cons. cbn [foldl].
  destruct (gather_listed self (Node.name n, n) t0) as (Htn & Hq & Hidx).
  destruct (IH (Builder.gather self (Node.name n, n))) as (IHtn & IHq & IHidx).
  cbn zeta in *. split; [|split; [congruence|]].
  - rewrite IHtn, Htn, listed_listed. unfold subscribers.
    by rewrite bind_cons.
  - intros H. by apply IHidx, Hidx.
Qed.

Lemma handle_function_calling_nodes_index self :
  topic_nodes (Builder._handle_function_calling_nodes self)
  = topic_nodes self
  ∧ execution_queue (Builder._handle_function_calling_nodes self)
    = execution_queue self.
Proof.
  unfold Builder._handle_function_calling_nodes.
  set (R := λ a b : t, topic_nodes b = topic_nodes a
                       ∧ execution_queue b = execution_queue a).
  assert (Hrefl : ∀ a, R a a) by done.
  assert (Htrans : ∀ a b c, R a b → R b c → R a c).
  { intros a b c [H1 H2] [H3 H4]. split; congruence. }
  apply (foldl_related R); [done..|].
  intros a fn. destruct (Node.node_variant fn) as [|spec|]; [done| |done].
  apply (foldl_related R); [done..|].
  intros a' tn.
  destruct (PyDict.get _ tn) as [publisher|]; [|done].
  by destruct (PyDict.get (nodes a') publisher).
Qed.

Lemma chain_index ns self :
  Builder.chain ns = inr self →
  topic_nodes self = ∅ ∧ execution_queue self = [].
Proof.
  revert self. induction ns as [|n ns IH] using rev_ind; intros self.
  { by intros [= <-]. }
  rewrite chain_snoc. destruct (Builder.chain ns) as [e|self0]; [done|].
  destruct (IH self0 eq_refl) as (Htn & Hq).
  cbn [mbind result_bind]. unfold Builder.node.
  destruct (PyDict.contains (nodes self0) (Node.name n)); [done|].
  by intros [= <-].
Qed.

(** X12.  The subscriber index of a workflow that [build] returns: a topic has
    an entry exactly when some node names it in a subscription expression,
    and the entry lists the subscribing nodes in the order in which they
    were registered, a node once for every occurrence of the topic among
    the topics of its expressions. *)
Theorem build_subscriber_index ns self w t :
  Builder.chain ns = inr self →
  Builder.build AGENT_INPUT_TOPIC AGENT_OUTPUT_TOPIC self = inr w →
  topic_nodes w !! t = listed None (subscribers ns t).
Proof.
  intros Hchain Hbuild.
  destruct (chain_inr _ _ Hchain) as (Hnodes & _ & _).
  destruct (chain_index _ _ Hchain) as (Htn & _).
  unfold Builder.build in Hbuild. destruct (_ && _); [done|].
  injection Hbuild as <-.
  destruct (handle_function_calling_nodes_index
              (foldl Builder.gather self (nodes self))) as [-> _].
  rewrite Hnodes.
  destruct (gather_all_listed ns self t) as (-> & _).
  by rewrite Htn, lookup_empty.
Qed.

(** X13.  A workflow that [build] returns is fit for the engine: the subscriber
    index names registered nodes only, every topic stands under its own
    name, every topic of the subscriber index is a topic of the workflow,
    and the execution queue is empty. *)
Theorem build_well_formed ns self w :
  Builder.chain ns = inr self →
  Builder.build AGENT_INPUT_TOPIC AGENT_OUTPUT_TOPIC self = inr w →
  graph_closed w ∧ indexed w ∧ execution_queue w = [].
Proof.
  intros Hchain Hbuild.
  destruct (chain_inr _ _ Hchain) as (Hnodes & _ & Htopics).
  destruct (chain_index _ _ Hchain) as (Htn & Hq).
  unfold Builder.build in Hbuild. destruct (_ && _); [done|].
  injection Hbuild as <-.
  set (gathered := foldl Builder.gather self (nodes self)).
  destruct (handle_function_calling_nodes_index gathered) as [Htn' Hq'].
  destruct (handle_function_calling_nodes_keeps gathered) as [Ht' Hkeys'].
  destruct (gather_all_dom (nodes self) self) as [_ Hn].
  fold gathered in Hn.
  assert (Hidx : indexed gathered ∧ execution_queue gathered = []).
  { unfold gathered. rewrite Hnodes.
    destruct (gather_all_listed ns self "") as (_ & Hq0 & Hidx).
    cbn zeta in *. split; [|congruence]. apply Hidx. split.
    - intros t T. by rewrite Htopics, lookup_empty.
    - intros t. rewrite Htn, lookup_empty. by intros [? ?]. }
  destruct Hidx as [[Hnames Hdom] Hqueue].
  split; [|split; [split|congruence]].
  - intros t names Hnames_t. rewrite Htn' in Hnames_t. rewrite Hkeys', Hn.
    unfold gathered in Hnames_t. rewrite Hnodes in Hnames_t.
    destruct (gather_all_listed ns self t) as (Hlisted & _).
    cbn zeta in Hlisted. rewrite Hlisted, Htn, lookup_empty in Hnames_t.
    assert (Hsub : Forall (λ n, n ∈ Node.name <$> ns) (subscribers ns t)).
    { apply Forall_forall. intros x Hx. unfold subscribers in Hx.
      apply list_elem_of_bind in Hx as (n & Hx & Hn0).
      apply list_elem_of_fmap in Hx as (T & -> & _).
      by apply list_elem_of_fmap_2. }
    assert (Hkeys : PyDict.keys (nodes self) = Node.name <$> ns).
    { unfold PyDict.keys. by rewrite Hnodes, <- list_fmap_compose. }
    rewrite Hkeys.
    destruct (subscribers ns t) as [|x l]; [done|].
    by injection Hnames_t as <-.
  - intros t T. rewrite Ht'. apply Hnames.
  - intros t. rewrite Htn', Ht'. apply Hdom.
Qed.

End built.

Lemma build_subscriber_index_witness :
  let ns := [WorkflowSample.streamer; WorkflowSample.reviewer] in
  let w := EventDrivenWorkflow.workflow (WorkflowSample.fresh ns) in
  EventDrivenWorkflow.topic_nodes w !! "agent_input_topic"%string
  = Some ["streamer"%string; "reviewer"%string]
  ∧ EventDrivenWorkflow.topic_nodes w !! "review"%string = None.
Proof.
  intros ns w.
  assert (Hchain : EventDrivenWorkflow.Builder.chain ns
                   = inr (WorkflowSample.registered ns))
    by (vm_compute; reflexivity).
  assert (Hbuild : EventDrivenWorkflow.Builder.build
                     WorkflowSample.AGENT_INPUT_TOPIC
                     WorkflowSample.AGENT_OUTPUT_TOPIC
                     (WorkflowSample.registered ns) = inr w)
    by (vm_compute; reflexivity).
  split.
  - rewrite (build_subscriber_index WorkflowSample.AGENT_INPUT_TOPIC
               WorkflowSample.AGENT_OUTPUT_TOPIC ns _ w _ Hchain Hbuild).
    vm_compute; reflexivity.
  - rewrite (build_subscriber_index WorkflowSample.AGENT_INPUT_TOPIC
               WorkflowSample.AGENT_OUTPUT_TOPIC ns _ w _ Hchain Hbuild).
    vm_compute; reflexivity.
Defined.

Lemma build_well_formed_witness :
  let ns := [WorkflowSample.streamer; WorkflowSample.reviewer] in
  let w := EventDrivenWorkflow.workflow (WorkflowSample.fresh ns) in
  EventDrivenWorkflow.Builder.chain ns = inr (WorkflowSample.registered ns)
  ∧ EventDrivenWorkflow.Builder.build WorkflowSample.AGENT_INPUT_TOPIC
      WorkflowSample.AGENT_OUTPUT_TOPIC (WorkflowSample.registered ns)
    = inr w
  ∧ EventDrivenWorkflow.graph_closed w
  ∧ EventDrivenWorkflow.indexed w
  ∧ EventDrivenWorkflow.execution_queue w = [].
Proof.
  intros ns w.
  assert (Hchain : EventDrivenWorkflow.Builder.chain ns
                   = inr (WorkflowSample.registered ns))
    by (vm_compute; reflexivity).
  assert (Hbuild : EventDrivenWorkflow.Builder.build
                     WorkflowSample.AGENT_INPUT_TOPIC
                     WorkflowSample.AGENT_OUTPUT_TOPIC
                     (WorkflowSample.registered ns) = inr w)
    by (vm_compute; reflexivity).
  split; [exact Hchain|]. split; [exact Hbuild|].
  exact (build_well_formed WorkflowSample.AGENT_INPUT_TOPIC
           WorkflowSample.AGENT_OUTPUT_TOPIC ns _ w Hchain Hbuild).
Defined.

(** ** The input of the LLM command *)

Section command_input.
Variable clock : nat → Z.

Lemma results_counts (d : gmap string Message.t) n cs :
  let '(rs, _, ws) := Interleaved.results clock d n cs in
  length rs = length cs
  ∧ length ws = length (filter (λ c, d !! ToolCall.id c = None) cs).
Proof.
  revert n. induction cs as [|c cs IH]; intros n; simpl; [done|].
  destruct (d !! ToolCall.id c) as [m|] eqn:Hc.
  - specialize (IH n).
    destruct (Interleaved.results clock d n cs) as [[rs n'] ws].
    rewrite filter_cons_False by (by rewrite Hc). simpl. naive_solver.
  - specialize (IH (S n)).
    destruct (Interleaved.results clock d (S n) cs) as [[rs n'] ws].
    rewrite filter_cons_True by done. simpl. naive_solver.
Qed.

Lemma expand_counts (d : gmap string Message.t) n ms :
  let '(out, _, ws) := Interleaved.expand clock d n ms in
  length out = length ms + length (ms ≫= Message.calls)
  ∧ length ws
    = length (filter (λ c, d !! ToolCall.id c = None) (ms ≫= Message.calls)).
Proof.
  revert n. induction ms as [|m ms IH]; intros n; [done|].
  cbn [Interleaved.expand]. rewrite bind_cons.
  pose proof (results_counts d n (Message.calls m)) as Hres.
  destruct (Interleaved.results clock d n (Message.calls m))
    as [[rs n'] ws].
  specialize (IH n').
  destruct (Interleaved.expand clock d n' ms) as [[out n''] ws'].
  destruct Hres as [Hrs Hws]. destruct IH as [Hout Hws'].
  rewrite filter_app, !length_app. cbn [length].
  rewrite length_app, length_reverse. split; lia.
Qed.


(** X15.  The function specs of the node show on the last message.  A node
    without function specs returns the messages with the tools they have.
    A node with function specs returns the same messages up to their
    tools, with the same warnings, and the last message returned has the
    tools of the specs, one for each spec and in their order. *)
Theorem get_command_input_tools self store ctx node_input out log :
  LLMNode.get_command_input clock self store ctx node_input = inr (out, log) →
  ∃ out0,
    LLMNode.get_command_input clock
      (LLMNode.mk (LLMNode.name self) (LLMNode.type self) []) store ctx
      node_input = inr (out0, log)
    ∧ Forall2 Message.same_but_tools out0 out
    ∧ (LLMNode.function_specs self = [] → out = out0)
    ∧ (LLMNode.function_specs self ≠ [] →
       ∀ m, last out = Some m →
            Message.tools m
            = Some (FunctionSpec.to_openai_tool
                      <$> LLMNode.function_specs self)).
Proof.
  unfold LLMNode.get_command_input.
  destruct (LLMNode.flattened_messages store ctx node_input) as [e|msgs];
    [done|].
  cbn [mbind result_bind]. cbv zeta.
  destruct (LLMNode.interleave clock _ _ 0 _) as [e|[[ms n] ws]]; [done|].
  cbn [mbind result_bind LLMNode.function_specs]. intros [= <- <-].
  exists ms. split; [done|].
  split; [apply attach_function_specs_same|].
  unfold LLMNode.attach_function_specs. split.
  - by intros ->.
  - intros Hspecs m.
    destruct (LLMNode.function_specs self) as [|s specs]; [done|].
    destruct ms as [|m0 ms _] using rev_ind; [done|].
    destruct (ms ++ [m0]) as [|x l] eqn:Hsnoc.
    { by destruct ms. }
    rewrite <- Hsnoc. rewrite length_app. cbn [length].
    replace (length ms + 1 - 1) with (length ms + 0) by lia.
    rewrite alter_app_r. cbn [alter list_alter].
    rewrite last_snoc. by intros [= <-].
Qed.

End command_input.


Lemma get_command_input_tools_witness :
  let self :=
    LLMNode.mk "llm" "LLMNode" [FunctionSpec.mk "lookup" "" "{}"] in
  ∃ out log,
    LLMNode.get_command_input Sample.clock self [] Sample.ctx
      Sample.both_results = inr (out, log)
    ∧ ∃ out0,
        LLMNode.get_command_input Sample.clock
          (LLMNode.mk (LLMNode.name self) (LLMNode.type self) []) []
          Sample.ctx Sample.both_results = inr (out0, log)
        ∧ Forall2 Message.same_but_tools out0 out
        ∧ (LLMNode.function_specs self = [] → out = out0)
        ∧ (LLMNode.function_specs self ≠ [] →
           ∀ m, last out = Some m →
                Message.tools m
                = Some (FunctionSpec.to_openai_tool
                          <$> LLMNode.function_specs self)).
Proof.
  intros self.
  assert (Hrun : ∃ r, LLMNode.get_command_input Sample.clock self []
                        Sample.ctx Sample.both_results = inr r).
  { eexists. vm_compute; reflexivity. }
  destruct Hrun as [[out log] Hrun].
  exists out, log. split; [exact Hrun|].
  exact (get_command_input_tools Sample.clock self [] Sample.ctx
           Sample.both_results out log Hrun).
Defined.

(** ** Linking function-calling nodes *)

Section linking.
Import EventDrivenWorkflow.

Lemma pydict_comprehension_get {K V A} `{EqDecision K} (key : A → K)
    (val : A → V) (l : list A) k :
  PyDict.get (PyDict.comprehension key val l) k
  = val <$> last (filter (λ x, key x = k) l).
Proof.
  unfold PyDict.comprehension.
  induction l as [|x l IH] using rev_ind; [done|].
  rewrite foldl_app, filter_app. cbn [foldl].
  destruct (decide (key x = k)) as [<-|Hne].
  - rewrite pydict_get_set_eq.
    rewrite (filter_cons_True _ x []) by done.
    rewrite filter_nil. by rewrite last_snoc.
  - rewrite pydict_get_set_ne by done.
    rewrite (filter_cons_False _ x []) by done.
    by rewrite filter_nil, app_nil_r.
Qed.

(** A dictionary comprehension keeps the last value of a key: of the LLM
    nodes that publish to a topic, [published_topics_to_nodes] holds the
    one registered last. *)
Lemma published_topics_to_nodes_last self topic_name :
  PyDict.get (Builder.published_topics_to_nodes self) topic_name
  = last_publisher self topic_name.
Proof. apply pydict_comprehension_get. Qed.

(** X16.  The linking step of [build] leaves alone every node that is not the
    last LLM node publishing to some topic: when two LLM nodes publish to
    the topic a function-calling node reads, the one registered first gets
    no function spec. *)
Theorem link_skips_earlier_publisher self name :
  Forall (λ p, last_publisher self (Topic.name p.1) ≠ Some name)
    (llm_publications self) →
  PyDict.get (nodes (Builder._handle_function_calling_nodes self)) name
  = PyDict.get (nodes self) name.
Proof.
  intros Hnot.
  assert (Hpub : ∀ t, PyDict.get (Builder.published_topics_to_nodes self) t
                      ≠ Some name).
  { intros t Hget. rewrite published_topics_to_nodes_last in Hget.
    unfold last_publisher in Hget.
    destruct (last _) as [p|] eqn:Hlast; [|done].
    injection Hget as Hp.
    pose proof Hlast as Hin.
    apply last_Some_elem_of, list_elem_of_filter in Hin as [Ht Hin].
    rewrite Forall_forall in Hnot. apply (Hnot p Hin).
    unfold last_publisher. rewrite Ht, Hlast. simpl. by rewrite Hp. }
  unfold Builder._handle_function_calling_nodes.
  set (R := λ a b : t, PyDict.get (nodes b) name = PyDict.get (nodes a) name).
  assert (Hrefl : ∀ a, R a a) by done.
  assert (Htrans : ∀ a b c, R a b → R b c → R a c).
  { intros a b c H1 H2. unfold R in *. congruence. }
  apply (foldl_related R); [done..|].
  intros a fn. destruct (Node.node_variant fn) as [|spec|]; [done| |done].
  apply (foldl_related R); [done..|].
  intros a' tn.
  destruct (PyDict.get _ tn) as [publisher|] eqn:Hget; [|done].
  destruct (PyDict.get (nodes a') publisher) as [node|]; [|done].
  unfold R. cbn [nodes]. apply pydict_get_set_ne.
  intros ->. by apply (Hpub tn).
Qed.

End linking.

Lemma link_skips_earlier_publisher_witness :
  let self :=
    WorkflowSample.registered
      [WorkflowSample.llm_a; WorkflowSample.llm_b;
       WorkflowSample.function_caller] in
  let linked := EventDrivenWorkflow.Builder._handle_function_calling_nodes
                  self in
  PyDict.get (EventDrivenWorkflow.nodes linked) "llm_a"%string
  = PyDict.get (EventDrivenWorkflow.nodes self) "llm_a"%string
  ∧ Node.node_variant
      <$> PyDict.get (EventDrivenWorkflow.nodes linked) "llm_b"%string
    = Some (Node.LLMNode [WorkflowSample.lookup_spec]).
Proof.
  intros self linked. split; [|vm_compute; reflexivity].
  apply (link_skips_earlier_publisher self "llm_a"%string).
  apply (bool_decide_unpack _). vm_compute; exact I.
Defined.

(** ** The store is a log *)

Section append_only.
Import EventDrivenWorkflow.
Variable AGENT_INPUT_TOPIC : string.
Variable new_id : nat → string.
Variable clock : nat → Z.

Global Instance appends_preorder : PreOrder appends.
Proof.
  split.
  - intros w. split; reflexivity.
  - intros a b c [H1 H2] [H3 H4]. split; by etrans.
Qed.

Lemma keeps_bind_from {A B} (R : world → world → Prop) `{!PreOrder R}
    (m : M A) (f : A → M B) w :
  R w (m w).2 → (∀ a, keeps R (f a)) → R w ((m ≫= f) w).2.
Proof.
  intros Hm Hf. unfold mbind, M_bind.
  destruct (m w) as [[e|a] w1]; [done|].
  etrans; [exact Hm|apply Hf].
Qed.

Lemma set_topic_same_shape w t T T' s c i :
  topics (workflow w) !! t = Some T →
  Topic.name T' = Topic.name T → Topic.kind_of T' = Topic.kind_of T →
  same_shape w
    (World (with_topics (workflow w) (<[t := T']> (topics (workflow w))))
       s c i).
Proof.
  intros HT Hname Hkind. split; [done|]. split; [done|]. intros t0. cbn.
  destruct (decide (t = t0)) as [<-|Hne].
  - rewrite lookup_insert_eq, HT. by constructor.
  - rewrite lookup_insert_ne by done.
    destruct (topics (workflow w) !! t0); by constructor.
Qed.

Lemma enqueue_appends node : keeps appends (enqueue node).
Proof. intros w. split; [|done]. split; [done|]. split; [done|].
  intros t. cbn. destruct (topics (workflow w) !! t); by constructor. Qed.

Lemma on_event_appends event : keeps appends (on_event event).
Proof.
  unfold on_event. destruct event as [p|p|c|a|n|o]; [|keeps_step..].
  keeps_step; [keeps_step|]. destruct (_ !! _); [|keeps_step].
  keeps_step. keeps_step; [apply node_named_keeps; apply _|].
  keeps_step; [keeps_step|].
  destruct (Node.can_execute _ _); [|keeps_step]. apply enqueue_appends.
Qed.

Lemma publish_data_appends t ctx pname ptype data consumed :
  keeps appends (publish_data new_id clock t ctx pname ptype data consumed).
Proof.
  intros w. unfold publish_data. rewrite (bind_run get _ w w w eq_refl).
  destruct (topics (workflow w) !! t) as [Tw|] eqn:HTw; [|reflexivity].
  unfold Topic.publish_data.
  destruct (Topic.accepts Tw data); [|reflexivity].
  set (p := PublishToTopicEvent.mk _ _ _ _ _ _ _ _ _ _).
  set (T' := Topic.with_state _ _ _).
  set (w2 := World (workflow w) (event_store w) (S (created w))
               (invocations w)).
  rewrite (bind_run next_created _ w (created w) w2 eq_refl).
  assert (H2 : appends w w2).
  { split; [change (same_shape w w); reflexivity|done]. }
  etrans; [exact H2|]. apply (keeps_bind_from appends).
  - cbn [set_topic set_workflow snd]. split; [|done].
    by apply (set_topic_same_shape w2 t Tw T').
  - intros []. keeps_step; [apply on_event_appends|keeps_step].
Qed.

Lemma record_events_appends events : keeps appends (record_events events).
Proof.
  intros w. split; [change (same_shape w w); reflexivity|].
  cbn. by apply prefix_app_r.
Qed.

Lemma publish_events_appends node ctx result consumed :
  keeps appends (_publish_events new_id clock node ctx result consumed).
Proof.
  unfold _publish_events. keeps_step; [|apply record_events_appends].
  keeps_step. keeps_step; [apply publish_data_appends|keeps_step].
Qed.

Lemma get_node_input_appends node :
  keeps appends (get_node_input new_id clock node).
Proof.
  intros w. unfold get_node_input.
  destruct (gather_moves new_id clock node (Node.subscribed_topics node) [] w)
    as (more & w' & Hrun & Hmoved & _).
  rewrite Hrun. cbn [snd]. split.
  - by apply cursors_moved_same_shape.
  - destruct Hmoved as (-> & _). reflexivity.
Qed.

Lemma note_invocation_appends node input :
  keeps appends (note_invocation node input).
Proof.
  intros w. split; [change (same_shape w w); reflexivity|done].
Qed.

Lemma execute_turn_appends ctx node :
  keeps appends (execute_turn new_id clock ctx node).
Proof.
  unfold execute_turn. keeps_step; [apply get_node_input_appends|].
  destruct a as [|c cs]; [keeps_step|].
  keeps_step; [keeps_step|]. keeps_step; [apply note_invocation_appends|].
  keeps_step; [keeps_step|]. apply publish_events_appends.
Qed.

Lemma a_execute_turn_appends ctx node :
  keeps appends (a_execute_turn new_id clock ctx node).
Proof.
  unfold a_execute_turn. keeps_step; [apply get_node_input_appends|].
  destruct a as [|c cs]; [keeps_step|].
  keeps_step; [keeps_step|]. keeps_step; [|apply publish_events_appends].
  destruct (Node.streams node); [keeps_step|].
  keeps_step; [apply note_invocation_appends|].
  keeps_step; [keeps_step|keeps_step].
Qed.

Lemma loop_appends fuel turn :
  (∀ node, keeps appends (turn node)) → keeps appends (loop fuel turn).
Proof.
  intros Hturn. induction fuel as [|fuel IH]; cbn [loop].
  - keeps_step; [keeps_step|].
    destruct (execution_queue _); keeps_step.
  - keeps_step; [keeps_step|].
    destruct (execution_queue _) as [|node rest]; [keeps_step|].
    keeps_step; [|keeps_step; [apply Hturn|apply IH]].
    intros w. split; [|done]. split; [done|]. split; [done|].
    intros t. cbn. destruct (topics (workflow w) !! t); by constructor.
Qed.

Lemma record_event_appends event : keeps appends (record_event event).
Proof.
  intros w. split; [change (same_shape w w); reflexivity|].
  cbn. by apply prefix_app_r.
Qed.

Lemma initial_workflow_appends ctx input w :
  plain_topics (workflow w) →
  appends w (initial_workflow AGENT_INPUT_TOPIC new_id clock ctx input w).2.
Proof.
  intros Hplain.
  set (w1 := with_world_topics w (Topic.reset <$> topics (workflow w))).
  assert (H1 : appends w w1).
  { split; [|done]. split; [done|]. split; [done|]. intros t. cbn.
    rewrite lookup_fmap.
    destruct (topics (workflow w) !! t); by constructor. }
  unfold initial_workflow.
  rewrite (bind_run (set_workflow _) _ w () w1 eq_refl).
  rewrite (bind_run get _ w1 w1 w1 eq_refl). cbv zeta.
  change (event_store w1) with (event_store w).
  destruct (stored_topic_events (event_store w) ctx) as [|e es] eqn:Hevents.
  - destruct (topics (workflow w1) !! AGENT_INPUT_TOPIC); [|exact H1].
    etrans; [exact H1|].
    assert (Hk : keeps appends
      (publish_data new_id clock AGENT_INPUT_TOPIC ctx (name (workflow w1))
         (type (workflow w1))
         (Data.Many
            (sorted_by_timestamp
               (conversation_messages (event_store w)
                  (ExecutionContext.conversation_id ctx)) ++ input)) []
       ≫= λ event, match event with
                   | Some e => record_event e
                   | None => throw AttributeError
                   end)).
    { keeps_step; [apply publish_data_appends|].
      destruct a; [apply record_event_appends|keeps_step]. }
    apply Hk.
  - rewrite <- Hevents.
    destruct (restore_loop_shape (stored_topic_events (event_store w) ctx) w1)
      as (Hshape & Hstore & _).
    destruct (for_each (stored_topic_events (event_store w) ctx) _ w1)
      as [[ex|[]] w2] eqn:Hloop; cbn [fst snd] in Hshape, Hstore.
    + rewrite (bind_raise _ _ _ _ _ Hloop). cbn [snd].
      etrans; [exact H1|]. split; [done|]. by rewrite Hstore.
    + rewrite (bind_run _ _ _ _ _ Hloop).
      assert (H2 : appends w w2).
      { etrans; [exact H1|]. split; [done|]. by rewrite Hstore. }
      etrans; [exact H2|].
      pose proof (resume_events_only_queue
                    (omap Event.as_publish
                       (stored_topic_events (event_store w) ctx)) input w2)
        as Hqueue.
      cbv zeta in Hqueue.
      destruct Hqueue as (Htopics & Hnodes & Htn & Hstore3).
      { apply (same_shape_plain_topics w); [apply H2|done]. }
      split; [|by rewrite Hstore3].
      split; [done|]. split; [done|]. intros t. rewrite Htopics.
      destruct (topics (workflow w2) !! t); by constructor.
Qed.

(** X17.  On a workflow without human-input topics the event store is a
    log: whatever the body of [execute] or [a_execute] does, whether it
    returns or raises, the events the store held before the call are
    still there afterwards, in the same order and at the beginning of the
    store, each of them the event it was up to the tools of the messages
    it holds (an LLM node assigns the tools of the last message it is
    given).  The workflow keeps its nodes and its subscriber index, and is
    again without human-input topics. *)
Theorem execute_appends_to_store (async : bool) fuel ctx input w :
  plain_topics (workflow w) →
  let run :=
    if async
    then a_execute AGENT_INPUT_TOPIC new_id clock fuel ctx input w
    else execute AGENT_INPUT_TOPIC new_id clock fuel ctx input w in
  (WithoutTools.event <$> event_store w)
    `prefix_of` (WithoutTools.event <$> event_store run.2)
  ∧ plain_topics (workflow run.2)
  ∧ nodes (workflow run.2) = nodes (workflow w)
  ∧ topic_nodes (workflow run.2) = topic_nodes (workflow w).
Proof.
  intros Hplain run.
  assert (Happends : appends w run.2).
  { pose proof (initial_workflow_appends ctx input w Hplain) as Hinit.
    unfold run. destruct async; unfold a_execute, execute;
      (destruct (initial_workflow AGENT_INPUT_TOPIC new_id clock ctx input w)
         as [[e|[]] w1] eqn:Hrun; cbn [snd] in Hinit;
       [by rewrite (bind_raise _ _ _ _ _ Hrun)
       |rewrite (bind_run _ _ _ _ _ Hrun); etrans; [exact Hinit|]]).
    - apply loop_appends. intros node. apply a_execute_turn_appends.
    - apply loop_appends. intros node. apply execute_turn_appends. }
  destruct Happends as [Hshape [more Hmore]].
  split.
  { exists (WithoutTools.event <$> more).
    rewrite <- fmap_app. exact (f_equal (fmap WithoutTools.event) Hmore). }
  split; [by apply (same_shape_plain_topics w)|].
  destruct Hshape as (Hn & Htn & _). by split.
Qed.

End append_only.

Lemma execute_appends_to_store_witness :
  let w := WorkflowSample.run 5 WorkflowSample.request_1
             (WorkflowSample.fresh [WorkflowSample.responder]) in
  let run :=
    EventDrivenWorkflow.execute WorkflowSample.AGENT_INPUT_TOPIC
      WorkflowSample.new_id WorkflowSample.now 5 WorkflowSample.request_2
      [Sample.user] w in
  length (EventDrivenWorkflow.event_store w) = 3
  ∧ length (EventDrivenWorkflow.event_store run.2) = 6
  ∧ (WithoutTools.event <$> EventDrivenWorkflow.event_store w)
      `prefix_of` (WithoutTools.event <$> EventDrivenWorkflow.event_store run.2)
  ∧ EventDrivenWorkflow.plain_topics (EventDrivenWorkflow.workflow run.2)
  ∧ EventDrivenWorkflow.nodes (EventDrivenWorkflow.workflow run.2)
    = EventDrivenWorkflow.nodes (EventDrivenWorkflow.workflow w)
  ∧ EventDrivenWorkflow.topic_nodes (EventDrivenWorkflow.workflow run.2)
    = EventDrivenWorkflow.topic_nodes (EventDrivenWorkflow.workflow w).
Proof.
  intros w run. split; [vm_compute; reflexivity|].
  split; [vm_compute; reflexivity|].
  apply (execute_appends_to_store WorkflowSample.AGENT_INPUT_TOPIC
           WorkflowSample.new_id WorkflowSample.now false 5
           WorkflowSample.request_2 [Sample.user] w).
  apply (bool_decide_unpack _). vm_compute; exact I.
Defined.
